(** * Relations graph engine of home.theor.net

    A shallow embedding of [src/lib/relations.ts], [src/lib/graph-data.ts]
    and [src/pages/backlinks.json.ts], and the properties of the relation
    graph, the link extractor, the breadcrumb resolver and the graph views.

    JavaScript values are modelled as follows.
    - [string] is a Rocq [string]; the code only compares strings, takes
      prefixes and suffixes of them and concatenates them.
    - An optional string ([next?: string]) is an [option string]; the test
      [if (x)] on it is [truthy]: defined and not the empty string.
    - An array of strings is a [list string]; [push] appends at the end.
    - A [Map] is an association list in insertion order with unique keys
      ([JsMap]); [set] on an existing key replaces the value in place, which
      is also how the mutation of an object held by the map is written.
    - A [Set] of strings is a duplicate-free list in insertion order. *)

From Stdlib Require Import List String Ascii Bool Arith Lia PeanoNat.
Import ListNotations.
Open Scope string_scope.
Open Scope list_scope.

Set Implicit Arguments.

(* ================================================================== *)
(** * Part I: the program *)
(* ================================================================== *)

(** ** JavaScript primitives *)

(** [if (x)] for [x : string | undefined]. *)
Definition truthy (o : option string) : bool :=
  match o with
  | Some s => negb (s =? "")
  | None => false
  end.

(** [arr.includes(value)] *)
Definition includes (arr : list string) (value : string) : bool :=
  existsb (String.eqb value) arr.

(** [s.startsWith(p)] *)
Definition startsWith (s p : string) : bool := String.prefix p s.

(** [s.endsWith("/")] *)
Fixpoint endsWithSlash (s : string) : bool :=
  match s with
  | EmptyString => false
  | String c EmptyString => Ascii.eqb c "/"
  | String _ rest => endsWithSlash rest
  end.

(** [s.slice(1)] *)
Definition slice1 (s : string) : string :=
  match s with
  | EmptyString => EmptyString
  | String _ rest => rest
  end.

(** [s.slice(0, -1)] *)
Fixpoint sliceInit (s : string) : string :=
  match s with
  | EmptyString => EmptyString
  | String _ EmptyString => EmptyString
  | String c rest => String c (sliceInit rest)
  end.

(** Insertion-ordered [Map<string, V>]. *)
Module JsMap.
Section WithValue.
Variable V : Type.

Definition t := list (string * V).

Definition empty : t := [].

Fixpoint get (k : string) (m : t) : option V :=
  match m with
  | [] => None
  | (k', v) :: m' => if k =? k' then Some v else get k m'
  end.

Fixpoint set (k : string) (v : V) (m : t) : t :=
  match m with
  | [] => [(k, v)]
  | (k', v') :: m' =>
      if k =? k' then (k', v) :: m' else (k', v') :: set k v m'
  end.

Definition has (k : string) (m : t) : bool :=
  match get k m with Some _ => true | None => false end.

Definition keys (m : t) : list string := map fst m.
End WithValue.
Arguments empty {V}.
End JsMap.

(** Insertion-ordered [Set<string>]. *)
Module JsSet.
Definition t := list string.
Definition empty : t := [].
Definition has (s : t) (x : string) : bool := includes s x.
Definition add (s : t) (x : string) : t := if has s x then s else s ++ [x].
Definition of_list (l : list string) : t := fold_left add l empty.
End JsSet.

(** ** relations.ts: data model *)

(** The ten relation arrays of a [PageRelations] object. *)
Inductive RelKind : Type :=
  NTPP | NTTPI | TPP | TPPI | PO | EC | EQ | DC | R | RI.

Module Rel.
Record PageRelations : Type := mk {
  ntpp : list string;
  nttpi : list string;
  tpp : list string;
  tppi : list string;
  po : list string;
  ec : list string;
  eq : list string;
  dc : list string;
  next : option string;
  prev : option string;
  r : list string;
  ri : list string
}.
End Rel.
Abbreviation PageRelations := Rel.PageRelations.

(** [rel[kind]] *)
Definition field (k : RelKind) (rel : PageRelations) : list string :=
  match k with
  | NTPP => Rel.ntpp rel | NTTPI => Rel.nttpi rel
  | TPP => Rel.tpp rel | TPPI => Rel.tppi rel
  | PO => Rel.po rel | EC => Rel.ec rel | EQ => Rel.eq rel | DC => Rel.dc rel
  | R => Rel.r rel | RI => Rel.ri rel
  end.

(** [rel[kind] = v] *)
Definition set_field (k : RelKind) (v : list string) (rel : PageRelations)
  : PageRelations :=
  let '(Rel.mk a b c d e f g h n p i j) := rel in
  match k with
  | NTPP => Rel.mk v b c d e f g h n p i j
  | NTTPI => Rel.mk a v c d e f g h n p i j
  | TPP => Rel.mk a b v d e f g h n p i j
  | TPPI => Rel.mk a b c v e f g h n p i j
  | PO => Rel.mk a b c d v f g h n p i j
  | EC => Rel.mk a b c d e v g h n p i j
  | EQ => Rel.mk a b c d e f v h n p i j
  | DC => Rel.mk a b c d e f g v n p i j
  | R => Rel.mk a b c d e f g h n p v j
  | RI => Rel.mk a b c d e f g h n p i v
  end.

Definition set_next (v : option string) (rel : PageRelations) : PageRelations :=
  let '(Rel.mk a b c d e f g h _ p i j) := rel in Rel.mk a b c d e f g h v p i j.

Definition set_prev (v : option string) (rel : PageRelations) : PageRelations :=
  let '(Rel.mk a b c d e f g h n _ i j) := rel in Rel.mk a b c d e f g h n v i j.

Record PageInfo : Type := mkInfo { slug : string; title : string }.

Abbreviation RelationsGraph := (JsMap.t PageRelations).
Abbreviation PageInfoMap := (JsMap.t PageInfo).

(** An entry of the [pages] collection: [id], [data.title], [body] and the
    declared relations of the front matter ([RawRelations]). *)
Record Page : Type := mkPage {
  id : string;
  data_title : string;
  body : option string;
  data_ntpp : option (list string);
  data_tpp : option (list string);
  data_po : option (list string);
  data_ec : option (list string);
  data_eq : option (list string);
  data_dc : option (list string);
  data_next : option string;
  data_prev : option string
}.

Definition emptyRelations : PageRelations :=
  Rel.mk [] [] [] [] [] [] [] [] None None [] [].

(** [if (!arr.includes(value)) arr.push(value)], returning the array. *)
Definition addUnique (arr : list string) (value : string) : list string :=
  if includes arr value then arr else arr ++ [value].

Definition slugToPath (s : string) : string :=
  if s =? "index" then "/" else ("/" ++ s)%string.

(** [path.replace(/^\//, '')] removes one leading slash. *)
Definition pathToSlug (path : string) : string :=
  if path =? "/" then "index"
  else if startsWith path "/" then slice1 path else path.

(** ** relations.ts: link extraction *)

(** [take_until c s] splits [s] at the first occurrence of [c]: the
    longest prefix without [c], and what follows that [c]. *)
Fixpoint take_until (c : ascii) (s : string) : option (string * string) :=
  match s with
  | EmptyString => None
  | String a rest =>
      if Ascii.eqb a c then Some (EmptyString, rest)
      else match take_until c rest with
           | Some (pre, post) => Some (String a pre, post)
           | None => None
           end
  end.

(** The pattern [\[([^\]]+)\]\(([^)]+)\)] anchored at the start of [s]:
    the second group and the number of characters matched.  Both groups
    are negated classes followed by the excluded character, so the greedy
    match is the one up to the first such character. *)
Definition match_here (s : string) : option (string * nat) :=
  match s with
  | String "["%char s1 =>
      match take_until "]"%char s1 with
      | Some (label, String "("%char s2) =>
          match take_until ")"%char s2 with
          | Some (href, _) =>
              if (label =? "") || (href =? "") then None
              else Some (href, 4 + String.length label + String.length href)
          | None => None
          end
      | _ => None
      end
  | _ => None
  end.

(** Leftmost match in [s], which starts at index [pos] of the body:
    the second group and the index after the match. *)
Fixpoint search (pos : nat) (s : string) : option (string * nat) :=
  match match_here s with
  | Some (href, len) => Some (href, pos + len)
  | None =>
      match s with
      | EmptyString => None
      | String _ rest => search (S pos) rest
      end
  end.

Fixpoint drop (n : nat) (s : string) : string :=
  match n, s with
  | O, _ => s
  | S n', String _ rest => drop n' rest
  | S _, EmptyString => EmptyString
  end.

(** [linkRegex.exec(body)] with [linkRegex.lastIndex = lastIndex]:
    [match[2]] and the new [lastIndex], or [None] for [null]. *)
Definition regex_exec (body : string) (lastIndex : nat) : option (string * nat) :=
  if Nat.ltb (String.length body) lastIndex then None
  else search lastIndex (drop lastIndex body).

(** Is the target skipped: external link, anchor or mailto. *)
Definition skipped (href : string) : bool :=
  startsWith href "http" || startsWith href "#" || startsWith href "mailto:".

(** Normalisation of a link target to a path. *)
Definition normalizePath (href : string) : string :=
  let targetPath := href in
  let targetPath := if startsWith targetPath "./" then slice1 targetPath else targetPath in
  let targetPath := if startsWith targetPath "/" then targetPath else ("/" ++ targetPath)%string in
  let targetPath :=
    if endsWithSlash targetPath && negb (targetPath =? "/")
    then sliceInit targetPath else targetPath in
  targetPath.

(** The loop [while ((match = linkRegex.exec(body)) !== null) { ... }]
    as a fold of the loop body [step] over the successive [match[2]];
    [None] when [fuel] calls of [exec] do not reach the [null]. *)
Fixpoint execLoop (A : Type) (step : A -> string -> A) (fuel : nat)
    (body : string) (lastIndex : nat) (acc : A) : option A :=
  match fuel with
  | O => None
  | S fuel' =>
      match regex_exec body lastIndex with
      | None => Some acc
      | Some (href, lastIndex') =>
          execLoop step fuel' body lastIndex' (step acc href)
      end
  end.

(** One iteration of the [while] loop of [extractLinkSlugs]. *)
Definition extractStep (sourceSlug : string) (knownSlugs : JsSet.t)
    (slugs : list string) (href : string) : list string :=
  if skipped href then slugs
  else
    let targetSlug := pathToSlug (normalizePath href) in
    if JsSet.has knownSlugs targetSlug
       && negb (targetSlug =? sourceSlug)
       && negb (includes slugs targetSlug)
    then slugs ++ [targetSlug] else slugs.

(** Every match is at least six characters long and [lastIndex] moves
    past it, so [S (length body)] calls of [exec] reach the [null]
    ([execLoop_terminates] below). *)
Definition extractLinkSlugs (body : string) (sourceSlug : string)
    (knownSlugs : JsSet.t) : list string :=
  match execLoop (extractStep sourceSlug knownSlugs)
          (S (String.length body)) body 0 [] with
  | Some slugs => slugs
  | None => []
  end.

(** ** relations.ts: graph construction *)

(** The relations object of the first pass for one page. *)
Definition declaredRelations (knownSlugs : JsSet.t) (page : Page)
  : PageRelations :=
  let rel := emptyRelations in
  let rel := match data_ntpp page with Some l => set_field NTPP l rel | None => rel end in
  let rel := match data_tpp page with Some l => set_field TPP l rel | None => rel end in
  let rel := match data_po page with Some l => set_field PO l rel | None => rel end in
  let rel := match data_ec page with Some l => set_field EC l rel | None => rel end in
  let rel := match data_eq page with Some l => set_field EQ l rel | None => rel end in
  let rel := match data_dc page with Some l => set_field DC l rel | None => rel end in
  let rel := set_next (data_next page) rel in
  let rel := set_prev (data_prev page) rel in
  let body := match body page with Some b => b | None => "" end in
  set_field R (extractLinkSlugs body (id page) knownSlugs) rel.

(** Body of the first-pass loop. *)
Definition firstPassStep (knownSlugs : JsSet.t)
    (st : RelationsGraph * PageInfoMap) (page : Page)
  : RelationsGraph * PageInfoMap :=
  let '(graph, pages) := st in
  let slug := id page in
  let pages := JsMap.set slug (mkInfo slug (data_title page)) pages in
  let rel := declaredRelations knownSlugs page in
  (JsMap.set slug rel graph, pages).

Definition firstPass (allPages : list Page) : RelationsGraph * PageInfoMap :=
  let knownSlugs := JsSet.of_list (map id allPages) in
  fold_left (firstPassStep knownSlugs) allPages (JsMap.empty, JsMap.empty).

(** [const targetRel = graph.get(target);
     if (targetRel) addUnique(targetRel[dst], slug);] *)
Definition pushInverse (dst : RelKind) (slug : string)
    (graph : RelationsGraph) (target : string) : RelationsGraph :=
  match JsMap.get target graph with
  | Some targetRel =>
      JsMap.set target
        (set_field dst (addUnique (field dst targetRel) slug) targetRel) graph
  | None => graph
  end.

(** [for (const target of rel[src]) { ... }] for the page [slug], whose
    relations object [rel] is the one the map holds.  The array iterated
    is never pushed to by its own loop: a target equal to [slug] is
    already an element ([addUnique_member]). *)
Definition inferKind (src dst : RelKind) (slug : string)
    (graph : RelationsGraph) : RelationsGraph :=
  match JsMap.get slug graph with
  | Some rel => fold_left (pushInverse dst slug) (field src rel) graph
  | None => graph
  end.

(** [if (rel.next) { const nextRel = graph.get(rel.next);
      if (nextRel && !nextRel.prev) nextRel.prev = slug; }] *)
Definition inferNext (slug : string) (graph : RelationsGraph) : RelationsGraph :=
  match JsMap.get slug graph with
  | Some rel =>
      match Rel.next rel with
      | Some n =>
          if truthy (Some n) then
            match JsMap.get n graph with
            | Some nextRel =>
                if negb (truthy (Rel.prev nextRel))
                then JsMap.set n (set_prev (Some slug) nextRel) graph
                else graph
            | None => graph
            end
          else graph
      | None => graph
      end
  | None => graph
  end.

(** [if (rel.prev) { const prevRel = graph.get(rel.prev);
      if (prevRel && !prevRel.next) prevRel.next = slug; }] *)
Definition inferPrev (slug : string) (graph : RelationsGraph) : RelationsGraph :=
  match JsMap.get slug graph with
  | Some rel =>
      match Rel.prev rel with
      | Some p =>
          if truthy (Some p) then
            match JsMap.get p graph with
            | Some prevRel =>
                if negb (truthy (Rel.next prevRel))
                then JsMap.set p (set_next (Some slug) prevRel) graph
                else graph
            | None => graph
            end
          else graph
      | None => graph
      end
  | None => graph
  end.

(** Body of the second-pass loop for the page [slug]. *)
Definition inferPage (graph : RelationsGraph) (slug : string) : RelationsGraph :=
  let graph := inferKind NTPP NTTPI slug graph in
  let graph := inferKind TPP TPPI slug graph in
  let graph := inferKind PO PO slug graph in
  let graph := inferKind EC EC slug graph in
  let graph := inferKind EQ EQ slug graph in
  let graph := inferKind DC DC slug graph in
  let graph := inferNext slug graph in
  let graph := inferPrev slug graph in
  inferKind R RI slug graph.

(** The second pass visits the entries in insertion order; it adds no
    key, so the keys it visits are those the first pass left. *)
Definition secondPass (graph : RelationsGraph) : RelationsGraph :=
  fold_left inferPage (JsMap.keys graph) graph.

Definition buildRelationsGraph (allPages : list Page)
  : RelationsGraph * PageInfoMap :=
  let '(graph, pages) := firstPass allPages in
  (secondPass graph, pages).

(** ** relations.ts: breadcrumbs *)

(** [rel.ntpp[0] ?? rel.tpp[0]] *)
Definition parentOf (rel : PageRelations) : option string :=
  match Rel.ntpp rel with
  | p :: _ => Some p
  | [] => hd_error (Rel.tpp rel)
  end.

(** The [while (current && !visited.has(current))] loop; [None] when
    [fuel] tests of the condition do not end it. *)
Fixpoint breadcrumbLoop (fuel : nat) (graph : RelationsGraph)
    (pages : PageInfoMap) (current : option string) (visited : JsSet.t)
    (breadcrumbs : list PageInfo) : option (list PageInfo) :=
  match fuel with
  | O => None
  | S fuel' =>
      match current with
      | Some cur =>
          if truthy current && negb (JsSet.has visited cur) then
            let visited := JsSet.add visited cur in
            let breadcrumbs :=
              match JsMap.get cur pages with
              | Some pageInfo => pageInfo :: breadcrumbs
              | None => breadcrumbs
              end in
            match JsMap.get cur graph with
            | None => Some breadcrumbs
            | Some rel =>
                breadcrumbLoop fuel' graph pages (parentOf rel) visited breadcrumbs
            end
          else Some breadcrumbs
      | None => Some breadcrumbs
      end
  end.

(** Each iteration that goes on adds a new key of the graph to [visited],
    so one test more than the graph has entries ends the loop. *)
Definition getBreadcrumbs (slug : string) (graph : RelationsGraph)
    (pages : PageInfoMap) : option (list PageInfo) :=
  breadcrumbLoop (S (List.length graph)) graph pages (Some slug) JsSet.empty [].

(** ** graph-data.ts *)

Inductive EdgeType : Type :=
  E_ntpp | E_tpp | E_po | E_ec | E_eq | E_dc | E_next | E_r.

(** The string an [EdgeType] is in the source. *)
Definition edgeTypeName (ty : EdgeType) : string :=
  match ty with
  | E_ntpp => "ntpp" | E_tpp => "tpp" | E_po => "po" | E_ec => "ec"
  | E_eq => "eq" | E_dc => "dc" | E_next => "next" | E_r => "r"
  end.

Definition EdgeType_eqb (a b : EdgeType) : bool :=
  edgeTypeName a =? edgeTypeName b.

Module Node.
Record GraphNode : Type := mk {
  id : string;
  title : string;
  connections : nat
}.
End Node.
Abbreviation GraphNode := Node.GraphNode.

Module Edge.
Record GraphEdge : Type := mk {
  source : string;
  target : string;
  type : EdgeType
}.
End Edge.
Abbreviation GraphEdge := Edge.GraphEdge.

Record GraphData : Type := mkGraphData {
  nodes : list GraphNode;
  edges : list GraphEdge
}.

(** [rel[type as keyof typeof rel] as string[]]; the source reads it for
    the four symmetric types only. *)
Definition fieldOfType (ty : EdgeType) (rel : PageRelations) : list string :=
  match ty with
  | E_ntpp => Rel.ntpp rel | E_tpp => Rel.tpp rel
  | E_po => Rel.po rel | E_ec => Rel.ec rel
  | E_eq => Rel.eq rel | E_dc => Rel.dc rel
  | E_r => Rel.r rel
  | E_next => []
  end.

(** [[a, b].sort()]: the default order of [sort] compares the strings by
    their UTF-16 code units; [String.leb] compares bytes, which is the
    same order unless a character beyond the Basic Multilingual Plane
    meets one from U+E000 on. *)
Definition sortPair (a b : string) : string * string :=
  if String.leb a b then (a, b) else (b, a).

(** [[slug, target].sort().join('::') + '::' + type] *)
Definition edgeKey (slug target : string) (ty : EdgeType) : string :=
  let '(x, y) := sortPair slug target in
  (x ++ "::" ++ y ++ "::" ++ edgeTypeName ty)%string.

(** The arrays [nodes] and [edges] and the set [seen] of [buildGraphData]. *)
Record ViewState : Type := mkView {
  vs_nodes : list GraphNode;
  vs_edges : list GraphEdge;
  vs_seen : JsSet.t
}.

Definition pushEdge (slug target : string) (ty : EdgeType) (st : ViewState)
  : ViewState :=
  mkView (vs_nodes st) (vs_edges st ++ [Edge.mk slug target ty]) (vs_seen st).

(** An edge pushed unless its key was seen. *)
Definition pushEdgeOnce (slug : string) (ty : EdgeType) (st : ViewState)
    (target : string) : ViewState :=
  let key := edgeKey slug target ty in
  if JsSet.has (vs_seen st) key then st
  else mkView (vs_nodes st) (vs_edges st ++ [Edge.mk slug target ty])
              (JsSet.add (vs_seen st) key).

Definition countConnections (rel : PageRelations) : nat :=
  List.length (Rel.ntpp rel) + List.length (Rel.nttpi rel) +
  List.length (Rel.tpp rel) + List.length (Rel.tppi rel) +
  List.length (Rel.po rel) + List.length (Rel.ec rel) +
  List.length (Rel.eq rel) + List.length (Rel.dc rel) +
  (if truthy (Rel.next rel) then 1 else 0) +
  (if truthy (Rel.prev rel) then 1 else 0) +
  List.length (Rel.r rel) + List.length (Rel.ri rel).

(** Body of the loop of [buildGraphData] for one entry of the graph. *)
Definition viewStep (pages : PageInfoMap) (st : ViewState)
    (entry : string * PageRelations) : ViewState :=
  let '(slug, rel) := entry in
  match JsMap.get slug pages with
  | None => st
  | Some info =>
      let st := mkView (vs_nodes st ++ [Node.mk slug (title info) (countConnections rel)])
                       (vs_edges st) (vs_seen st) in
      let st := fold_left (fun st target => pushEdge slug target E_ntpp st) (Rel.ntpp rel) st in
      let st := fold_left (fun st target => pushEdge slug target E_tpp st) (Rel.tpp rel) st in
      let st := fold_left
                  (fun st ty => fold_left (pushEdgeOnce slug ty) (fieldOfType ty rel) st)
                  [E_po; E_ec; E_eq; E_dc] st in
      let st := match Rel.next rel with
                | Some n => if truthy (Some n) then pushEdgeOnce slug E_next st n else st
                | None => st
                end in
      fold_left (fun st target => pushEdge slug target E_r st) (Rel.r rel) st
  end.

Definition buildGraphState (graph : RelationsGraph) (pages : PageInfoMap)
  : ViewState :=
  fold_left (viewStep pages) graph (mkView [] [] JsSet.empty).

Definition buildGraphData (graph : RelationsGraph) (pages : PageInfoMap)
  : GraphData :=
  let st := buildGraphState graph pages in
  mkGraphData (vs_nodes st) (vs_edges st).

Record SubgraphOptions : Type := mkOpts {
  relationTypes : list EdgeType;
  depth : nat
}.

(** The two [if]s of the innermost loop of the traversal. *)
Definition visitEdge (includedSlugs : JsSet.t) (slug : string)
    (nextFrontier : JsSet.t) (edge : GraphEdge) : JsSet.t :=
  let nextFrontier :=
    if (Edge.source edge =? slug) && negb (JsSet.has includedSlugs (Edge.target edge))
    then JsSet.add nextFrontier (Edge.target edge) else nextFrontier in
  if (Edge.target edge =? slug) && negb (JsSet.has includedSlugs (Edge.source edge))
  then JsSet.add nextFrontier (Edge.source edge) else nextFrontier.

Definition expandFrontier (relevantEdges : list GraphEdge)
    (includedSlugs frontier : JsSet.t) : JsSet.t :=
  fold_left
    (fun nextFrontier slug =>
       fold_left (visitEdge includedSlugs slug) relevantEdges nextFrontier)
    frontier JsSet.empty.

(** The loop [for (let d = 0; d <= opts.depth; d++)], by the number
    [opts.depth - d] of hops left. *)
Fixpoint bfsLoop (relevantEdges : list GraphEdge) (left : nat)
    (includedSlugs frontier : JsSet.t) : JsSet.t :=
  let includedSlugs := fold_left JsSet.add frontier includedSlugs in
  match left with
  | O => includedSlugs
  | S left' =>
      bfsLoop relevantEdges left' includedSlugs
        (expandFrontier relevantEdges includedSlugs frontier)
  end.

Definition relevantEdgesOf (full : GraphData) (opts : SubgraphOptions)
  : list GraphEdge :=
  filter (fun e => existsb (EdgeType_eqb (Edge.type e)) (relationTypes opts))
         (edges full).

Definition includedSlugsOf (full : GraphData) (rootSlug : string)
    (opts : SubgraphOptions) : JsSet.t :=
  bfsLoop (relevantEdgesOf full opts) (depth opts) JsSet.empty [rootSlug].

Definition buildSubgraphData (graph : RelationsGraph) (pages : PageInfoMap)
    (rootSlug : string) (opts : SubgraphOptions) : GraphData :=
  let full := buildGraphData graph pages in
  let relevantEdges := relevantEdgesOf full opts in
  let includedSlugs := includedSlugsOf full rootSlug opts in
  mkGraphData
    (filter (fun n => JsSet.has includedSlugs (Node.id n)) (nodes full))
    (filter (fun e => JsSet.has includedSlugs (Edge.source e)
                      && JsSet.has includedSlugs (Edge.target e))
            relevantEdges).

(** ** pages/backlinks.json.ts *)

Module Backlinks.
Record Backlink : Type := mk { path : string; title : string }.

(** The object [backlinks]: its keys are paths, which start with a
    slash, so no key is an integer index or a property of
    [Object.prototype], and the entries keep their insertion order. *)
Definition t := JsMap.t (list Backlink).

Definition pagePath (page : Page) : string :=
  if id page =? "index" then "/" else ("/" ++ id page)%string.

Definition init (pages : list Page) : t :=
  fold_left (fun backlinks page => JsMap.set (pagePath page) [] backlinks)
            pages JsMap.empty.

(** The body of the [while] loop, as this file writes it. *)
Definition linkStep (sourcePath sourceTitle : string) (backlinks : t)
    (href : string) : t :=
  if startsWith href "http" || startsWith href "#" || startsWith href "mailto:"
  then backlinks
  else
    let targetPath := href in
    let targetPath :=
      if startsWith targetPath "./" then slice1 targetPath else targetPath in
    let targetPath :=
      if negb (startsWith targetPath "/") then ("/" ++ targetPath)%string
      else targetPath in
    let targetPath :=
      if endsWithSlash targetPath && negb (targetPath =? "/")
      then sliceInit targetPath else targetPath in
    match JsMap.get targetPath backlinks with
    | Some arr =>
        if negb (targetPath =? sourcePath) then
          let exists_ := existsb (fun bl => path bl =? sourcePath) arr in
          if negb exists_
          then JsMap.set targetPath (arr ++ [mk sourcePath sourceTitle]) backlinks
          else backlinks
        else backlinks
    | None => backlinks
    end.

Definition pageStep (backlinks : t) (page : Page) : t :=
  let sourcePath := pagePath page in
  let sourceTitle := data_title page in
  let body := match body page with Some b => b | None => "" end in
  match execLoop (linkStep sourcePath sourceTitle)
          (S (String.length body)) body 0 backlinks with
  | Some backlinks' => backlinks'
  | None => backlinks
  end.

(** The map the endpoint serialises. *)
Definition GET (pages : list Page) : t :=
  fold_left pageStep pages (init pages).
End Backlinks.

(** ** relations.ts with arrays by reference

    The arrays of the page store and of the graph are objects: one array
    reached from two places is changed for both.  This section writes
    the construction of the graph again with every array in a heap, to
    see what the second pass, which pushes to arrays, can reach.  The
    construction above is what it computes ([buildRef_refines]). *)

Module Heap.
(** The arrays allocated so far; a reference is an index. *)
Definition t := list (list string).
Definition loc := nat.

Definition read (h : t) (l : loc) : list string := nth l h [].

(** [new Array(...v)] *)
Definition alloc (h : t) (v : list string) : loc * t :=
  (List.length h, h ++ [v]).

Fixpoint write (h : t) (l : loc) (v : list string) : t :=
  match h, l with
  | [], _ => []
  | _ :: h', O => v :: h'
  | a :: h', S l' => a :: write h' l' v
  end.
End Heap.

(** An entry of the collection whose declared arrays are references. *)
Record PageRef : Type := mkPageRef {
  ref_id : string;
  ref_title : string;
  ref_body : option string;
  ref_ntpp : option Heap.loc;
  ref_tpp : option Heap.loc;
  ref_po : option Heap.loc;
  ref_ec : option Heap.loc;
  ref_eq : option Heap.loc;
  ref_dc : option Heap.loc;
  ref_next : option string;
  ref_prev : option string
}.

(** A [PageRelations] object: ten references and two pointers. *)
Module RelRef.
Record t : Type := mk {
  ntpp : Heap.loc;
  nttpi : Heap.loc;
  tpp : Heap.loc;
  tppi : Heap.loc;
  po : Heap.loc;
  ec : Heap.loc;
  eq : Heap.loc;
  dc : Heap.loc;
  next : option string;
  prev : option string;
  r : Heap.loc;
  ri : Heap.loc
}.
End RelRef.

Abbreviation GraphRef := (JsMap.t RelRef.t).

Definition fieldRef (k : RelKind) (rel : RelRef.t) : Heap.loc :=
  match k with
  | NTPP => RelRef.ntpp rel | NTTPI => RelRef.nttpi rel
  | TPP => RelRef.tpp rel | TPPI => RelRef.tppi rel
  | PO => RelRef.po rel | EC => RelRef.ec rel
  | EQ => RelRef.eq rel | DC => RelRef.dc rel
  | R => RelRef.r rel | RI => RelRef.ri rel
  end.

Definition set_fieldRef (k : RelKind) (l : Heap.loc) (rel : RelRef.t) : RelRef.t :=
  let '(RelRef.mk a b c d e f g h n p i j) := rel in
  match k with
  | NTPP => RelRef.mk l b c d e f g h n p i j
  | NTTPI => RelRef.mk a l c d e f g h n p i j
  | TPP => RelRef.mk a b l d e f g h n p i j
  | TPPI => RelRef.mk a b c l e f g h n p i j
  | PO => RelRef.mk a b c d l f g h n p i j
  | EC => RelRef.mk a b c d e l g h n p i j
  | EQ => RelRef.mk a b c d e f l h n p i j
  | DC => RelRef.mk a b c d e f g l n p i j
  | R => RelRef.mk a b c d e f g h n p l j
  | RI => RelRef.mk a b c d e f g h n p i l
  end.

Definition set_nextRef (v : option string) (rel : RelRef.t) : RelRef.t :=
  let '(RelRef.mk a b c d e f g h _ p i j) := rel in RelRef.mk a b c d e f g h v p i j.

Definition set_prevRef (v : option string) (rel : RelRef.t) : RelRef.t :=
  let '(RelRef.mk a b c d e f g h n _ i j) := rel in RelRef.mk a b c d e f g h n v i j.

(** [emptyRelations()]: ten new empty arrays. *)
Definition emptyRelationsRef (h : Heap.t) : RelRef.t * Heap.t :=
  let l := List.length h in
  (RelRef.mk l (1 + l) (2 + l) (3 + l) (4 + l) (5 + l) (6 + l) (7 + l)
             None None (8 + l) (9 + l),
   h ++ [[]; []; []; []; []; []; []; []; []; []]).

(** [rel[k] = v] for a new array [v]. *)
Definition assignNew (k : RelKind) (v : list string)
    (st : RelRef.t * Heap.t) : RelRef.t * Heap.t :=
  let '(rel, h) := st in
  let '(l, h) := Heap.alloc h v in
  (set_fieldRef k l rel, h).

(** [if (data[k]) rel[k] = [...data[k]]]: the spread copies the
    declared array into a new one. *)
Definition spreadInto (k : RelKind) (declared : option Heap.loc)
    (st : RelRef.t * Heap.t) : RelRef.t * Heap.t :=
  match declared with
  | Some src => assignNew k (Heap.read (snd st) src) st
  | None => st
  end.

Definition declaredRelationsRef (knownSlugs : JsSet.t) (page : PageRef)
    (h : Heap.t) : RelRef.t * Heap.t :=
  let st := emptyRelationsRef h in
  let st := spreadInto NTPP (ref_ntpp page) st in
  let st := spreadInto TPP (ref_tpp page) st in
  let st := spreadInto PO (ref_po page) st in
  let st := spreadInto EC (ref_ec page) st in
  let st := spreadInto EQ (ref_eq page) st in
  let st := spreadInto DC (ref_dc page) st in
  let st := (set_nextRef (ref_next page) (fst st), snd st) in
  let st := (set_prevRef (ref_prev page) (fst st), snd st) in
  let body := match ref_body page with Some b => b | None => "" end in
  assignNew R (extractLinkSlugs body (ref_id page) knownSlugs) st.

(** The graph, the page infos and the heap. *)
Record BuildState : Type := mkBuild {
  bs_graph : GraphRef;
  bs_pages : PageInfoMap;
  bs_heap : Heap.t
}.

Definition firstPassStepRef (knownSlugs : JsSet.t) (st : BuildState)
    (page : PageRef) : BuildState :=
  let slug := ref_id page in
  let pages := JsMap.set slug (mkInfo slug (ref_title page)) (bs_pages st) in
  let '(rel, h) := declaredRelationsRef knownSlugs page (bs_heap st) in
  mkBuild (JsMap.set slug rel (bs_graph st)) pages h.

Definition firstPassRef (allPages : list PageRef) (h : Heap.t) : BuildState :=
  let knownSlugs := JsSet.of_list (map ref_id allPages) in
  fold_left (firstPassStepRef knownSlugs) allPages
            (mkBuild JsMap.empty JsMap.empty h).

(** [addUnique(targetRel[dst], slug)] writes the array the graph
    refers to. *)
Definition pushInverseRef (dst : RelKind) (slug : string) (graph : GraphRef)
    (h : Heap.t) (target : string) : Heap.t :=
  match JsMap.get target graph with
  | Some targetRel =>
      let arr := fieldRef dst targetRel in
      Heap.write h arr (addUnique (Heap.read h arr) slug)
  | None => h
  end.

Definition inferKindRef (src dst : RelKind) (slug : string) (graph : GraphRef)
    (h : Heap.t) : Heap.t :=
  match JsMap.get slug graph with
  | Some rel =>
      fold_left (pushInverseRef dst slug graph) (Heap.read h (fieldRef src rel)) h
  | None => h
  end.

Definition inferNextRef (slug : string) (graph : GraphRef) : GraphRef :=
  match JsMap.get slug graph with
  | Some rel =>
      match RelRef.next rel with
      | Some n =>
          if truthy (Some n) then
            match JsMap.get n graph with
            | Some nextRel =>
                if negb (truthy (RelRef.prev nextRel))
                then JsMap.set n (set_prevRef (Some slug) nextRel) graph
                else graph
            | None => graph
            end
          else graph
      | None => graph
      end
  | None => graph
  end.

Definition inferPrevRef (slug : string) (graph : GraphRef) : GraphRef :=
  match JsMap.get slug graph with
  | Some rel =>
      match RelRef.prev rel with
      | Some p =>
          if truthy (Some p) then
            match JsMap.get p graph with
            | Some prevRel =>
                if negb (truthy (RelRef.next prevRel))
                then JsMap.set p (set_nextRef (Some slug) prevRel) graph
                else graph
            | None => graph
            end
          else graph
      | None => graph
      end
  | None => graph
  end.

Definition inferPageRef (st : GraphRef * Heap.t) (slug : string)
  : GraphRef * Heap.t :=
  let '(graph, h) := st in
  let h := inferKindRef NTPP NTTPI slug graph h in
  let h := inferKindRef TPP TPPI slug graph h in
  let h := inferKindRef PO PO slug graph h in
  let h := inferKindRef EC EC slug graph h in
  let h := inferKindRef EQ EQ slug graph h in
  let h := inferKindRef DC DC slug graph h in
  let graph := inferNextRef slug graph in
  let graph := inferPrevRef slug graph in
  let h := inferKindRef R RI slug graph h in
  (graph, h).

Definition secondPassRef (graph : GraphRef) (h : Heap.t) : GraphRef * Heap.t :=
  fold_left inferPageRef (JsMap.keys graph) (graph, h).

Definition buildRelationsGraphRef (allPages : list PageRef) (h : Heap.t)
  : BuildState :=
  let st := firstPassRef allPages h in
  let '(graph, h) := secondPassRef (bs_graph st) (bs_heap st) in
  mkBuild graph (bs_pages st) h.

(** ** components/graph: helpers of the renderer *)

(** The address a click on a node leads to. *)
Definition slugToHref (slug : string) : string :=
  if slug =? "index" then "/" else ("/" ++ slug ++ "/")%string.

(** ** relations.ts, the earlier version: up, down, next, prev *)

Module Old.
Record PageRelations : Type := mk {
  up : option string;
  down : list string;
  next : option string;
  prev : option string
}.

(** An entry of the collection with its [RawRelations]. *)
Record Page : Type := mkPage {
  id : string;
  data_title : string;
  data_up : option string;
  data_down : option (list string);
  data_next : option string;
  data_prev : option string
}.

Definition RelationsGraph := JsMap.t PageRelations.

Definition set_up (v : option string) (r : PageRelations) : PageRelations :=
  mk v (down r) (next r) (prev r).
Definition set_down (v : list string) (r : PageRelations) : PageRelations :=
  mk (up r) v (next r) (prev r).
Definition set_next (v : option string) (r : PageRelations) : PageRelations :=
  mk (up r) (down r) v (prev r).
Definition set_prev (v : option string) (r : PageRelations) : PageRelations :=
  mk (up r) (down r) (next r) v.

(** First pass: the page info and the declared relations of one page;
    [data.down ? [...data.down] : []] copies the declared array. *)
Definition firstPassStep (st : RelationsGraph * PageInfoMap) (page : Page)
  : RelationsGraph * PageInfoMap :=
  let '(graph, pages) := st in
  let slug := id page in
  let pages := JsMap.set slug (mkInfo slug (data_title page)) pages in
  let graph :=
    JsMap.set slug
      (mk (data_up page)
          (match data_down page with Some d => d | None => [] end)
          (data_next page) (data_prev page))
      graph in
  (graph, pages).

Definition firstPass (allPages : list Page) : RelationsGraph * PageInfoMap :=
  fold_left firstPassStep allPages (JsMap.empty, JsMap.empty).

(** The entries of the map are objects changed in place: [relations] is
    the entry of [slug] as it is when it is read. *)

(** [A.up = B -> B.down includes A] *)
Definition inferDown (slug : string) (graph : RelationsGraph) : RelationsGraph :=
  match JsMap.get slug graph with
  | Some relations =>
      if truthy (up relations) then
        match up relations with
        | Some u =>
            match JsMap.get u graph with
            | Some parent =>
                if negb (includes (down parent) slug)
                then JsMap.set u (set_down (down parent ++ [slug]) parent) graph
                else graph
            | None => graph
            end
        | None => graph
        end
      else graph
  | None => graph
  end.

(** [A.next = B -> B.prev = A] *)
Definition inferPrev (slug : string) (graph : RelationsGraph) : RelationsGraph :=
  match JsMap.get slug graph with
  | Some relations =>
      if truthy (next relations) then
        match next relations with
        | Some n =>
            match JsMap.get n graph with
            | Some nextPage =>
                if negb (truthy (prev nextPage))
                then JsMap.set n (set_prev (Some slug) nextPage) graph
                else graph
            | None => graph
            end
        | None => graph
        end
      else graph
  | None => graph
  end.

(** One child of [A.down includes B -> B.up = A]. *)
Definition adopt (slug : string) (graph : RelationsGraph) (child : string)
  : RelationsGraph :=
  match JsMap.get child graph with
  | Some childPage =>
      if negb (truthy (up childPage))
      then JsMap.set child (set_up (Some slug) childPage) graph
      else graph
  | None => graph
  end.

Definition inferUp (slug : string) (graph : RelationsGraph) : RelationsGraph :=
  match JsMap.get slug graph with
  | Some relations => fold_left (adopt slug) (down relations) graph
  | None => graph
  end.

(** [A.prev = B -> B.next = A] *)
Definition inferNext (slug : string) (graph : RelationsGraph) : RelationsGraph :=
  match JsMap.get slug graph with
  | Some relations =>
      if truthy (prev relations) then
        match prev relations with
        | Some p =>
            match JsMap.get p graph with
            | Some prevPage =>
                if negb (truthy (next prevPage))
                then JsMap.set p (set_next (Some slug) prevPage) graph
                else graph
            | None => graph
            end
        | None => graph
        end
      else graph
  | None => graph
  end.

(** The body of the second loop for the entry of [slug]. *)
Definition inferPage (graph : RelationsGraph) (slug : string) : RelationsGraph :=
  inferNext slug (inferUp slug (inferPrev slug (inferDown slug graph))).

(** No entry is added or removed in the loop, so it visits the keys the
    graph has when it starts, in their order. *)
Definition secondPass (graph : RelationsGraph) : RelationsGraph :=
  fold_left inferPage (JsMap.keys graph) graph.

Definition buildRelationsGraph (allPages : list Page)
  : RelationsGraph * PageInfoMap :=
  let '(graph, pages) := firstPass allPages in
  (secondPass graph, pages).
End Old.

(* ================================================================== *)
(** * Part II: vocabulary of the properties *)
(* ================================================================== *)

(** ** Views of a map *)

(** The map with [f] applied to every value: one field of every page. *)
Definition mapVals (V W : Type) (f : V -> W) (m : JsMap.t V) : JsMap.t W :=
  map (fun kv => (fst kv, f (snd kv))) m.

(** [addUnique(m.get(target), slug)] on a map of arrays: what
    [pushInverse] does to the field it writes. *)
Definition pushList (slug : string) (m : JsMap.t (list string))
    (target : string) : JsMap.t (list string) :=
  match JsMap.get target m with
  | Some l => JsMap.set target (addUnique l slug) m
  | None => m
  end.

(** The second pass seen on a forward field [fwd], which it only reads,
    and its inverse field [inv]. *)
Definition dirStep (fwd : JsMap.t (list string)) (inv : JsMap.t (list string))
    (slug : string) : JsMap.t (list string) :=
  match JsMap.get slug fwd with
  | Some targets => fold_left (pushList slug) targets inv
  | None => inv
  end.

(** The second pass seen on one symmetric field. *)
Definition symStep (m : JsMap.t (list string)) (slug : string)
  : JsMap.t (list string) :=
  match JsMap.get slug m with
  | Some targets => fold_left (pushList slug) targets m
  | None => m
  end.

(** The pointers [(next, prev)] of a relations object. *)
Definition pointers (rel : PageRelations) : option string * option string :=
  (Rel.next rel, Rel.prev rel).

Abbreviation Pointers := (JsMap.t (option string * option string)).

(** [inferNext] and [inferPrev] seen on the pointers. *)
Definition ptrNext (slug : string) (m : Pointers) : Pointers :=
  match JsMap.get slug m with
  | Some (Some n, _) =>
      if truthy (Some n) then
        match JsMap.get n m with
        | Some (nn, np) =>
            if negb (truthy np) then JsMap.set n (nn, Some slug) m else m
        | None => m
        end
      else m
  | _ => m
  end.

Definition ptrPrev (slug : string) (m : Pointers) : Pointers :=
  match JsMap.get slug m with
  | Some (_, Some p) =>
      if truthy (Some p) then
        match JsMap.get p m with
        | Some (pn, pp) =>
            if negb (truthy pn) then JsMap.set p (Some slug, pp) m else m
        | None => m
        end
      else m
  | _ => m
  end.

Definition ptrStep (m : Pointers) (slug : string) : Pointers :=
  ptrPrev slug (ptrNext slug m).

(** [c] is visited before [a] in the order [l]. *)
Definition before (l : list string) (c a : string) : Prop :=
  exists l1 l2 l3, l = l1 ++ c :: l2 ++ a :: l3.

(** A list obtained from [l] by calls of [addUnique] only. *)
Definition dedupAppended (l l' : list string) : Prop :=
  exists xs, l' = fold_left addUnique xs l.

(** The page [x] of the graph lists [s] in its array of kind [k]. *)
Definition listsBack (graph : RelationsGraph) (k : RelKind) (s x : string)
  : Prop :=
  exists relx, JsMap.get x graph = Some relx /\ In s (field k relx).

(** The four symmetric relation kinds. *)
Definition symmetricKind (k : RelKind) : Prop :=
  k = PO \/ k = EC \/ k = EQ \/ k = DC.

(** [x] is set: defined and not the empty string. *)
Definition isSet (o : option string) : Prop := truthy o = true.

Definition RelKind_eqb (a b : RelKind) : bool :=
  match a, b with
  | NTPP, NTPP | NTTPI, NTTPI | TPP, TPP | TPPI, TPPI | PO, PO
  | EC, EC | EQ, EQ | DC, DC | R, R | RI, RI => true
  | _, _ => false
  end.

(** The array [m.get(slug)], empty when there is none. *)
Definition targetsOf (m : JsMap.t (list string)) (slug : string) : list string :=
  match JsMap.get slug m with
  | Some l => l
  | None => []
  end.

Definition nextOf (m : Pointers) (s : string) : option string :=
  match JsMap.get s m with
  | Some (n, _) => n
  | None => None
  end.

Definition prevOf (m : Pointers) (s : string) : option string :=
  match JsMap.get s m with
  | Some (_, p) => p
  | None => None
  end.

(** The pointer [o] is set and names the page [s]. *)
Definition pointsTo (o : option string) (s : string) : bool :=
  match o with
  | Some b => negb (b =? "") && (s =? b)
  | None => false
  end.

(** What holds of the pointers [m] once the pages [done] are visited,
    from the pointers [m0] the first pass left:
    - a [prev] that is set was declared, or names a visited page whose
      [next] points back;
    - the [next] of a visited page names a page whose [prev] is set: to
      that page, to what was declared, or to a page visited earlier
      whose [next] names it too. *)
Record PtrInv (m0 : Pointers) (done : list string) (m : Pointers) : Prop := {
  inv_prev_just : forall s p,
    prevOf m s = Some p -> p <> "" ->
    prevOf m0 s = Some p \/ (In p done /\ nextOf m p = Some s /\ s <> "");
  inv_done : forall a b,
    In a done -> nextOf m a = Some b -> b <> "" -> JsMap.get b m <> None ->
    exists p, prevOf m b = Some p /\ p <> "" /\
      (p = a \/ prevOf m0 b = Some p \/ (before done p a /\ nextOf m p = Some b))
}.

(** ** Statements about the page store *)

(** The slug [s] declares [prev: p] in its front matter. *)
Definition declaresPrev (allPages : list Page) (s p : string) : Prop :=
  exists page, In page allPages /\ id page = s /\ data_prev page = Some p.

(** The page that gives the slug [s] its entry: the last one the store
    enumerates under that id, since [Map.set] replaces an entry. *)
Definition pageOf (allPages : list Page) (s : string) : option Page :=
  find (fun page => id page =? s) (rev allPages).

(** Sequential consistency with declared values only: the [prev] of the
    page a [next] names is that page, unless the named page declared
    another [prev], which is then kept. *)
Definition sequentialConsistency (allPages : list Page) : Prop :=
  forall A B relA relB,
    JsMap.get A (fst (buildRelationsGraph allPages)) = Some relA ->
    JsMap.get B (fst (buildRelationsGraph allPages)) = Some relB ->
    Rel.next relA = Some B ->
    Rel.prev relB = Some A \/
    (exists P, P <> A /\ declaresPrev allPages B P /\ Rel.prev relB = Some P).

(** A page with no body and no declared relation but those given. *)
Definition pageWith (slug : string) (next_ prev_ : option string) : Page :=
  mkPage slug slug None None None None None None None next_ prev_.

(** A page that only declares the arrays of one kind. *)
Definition pageDeclaring (slug : string) (k : RelKind) (targets : list string)
  : Page :=
  let pick k' := if RelKind_eqb k k' then Some targets else None in
  mkPage slug slug None (pick NTPP) (pick TPP) (pick PO) (pick EC) (pick EQ)
         (pick DC) None None.

(** A page with a body only. *)
Definition pageBody (slug text : string) : Page :=
  mkPage slug slug (Some text) None None None None None None None None.

(** ** Statements about link extraction *)

(** The successive [match[2]] of [linkRegex] over [body] from
    [lastIndex]: the targets of the bracket links. *)
Fixpoint targetsFrom (fuel : nat) (body : string) (lastIndex : nat)
  : option (list string) :=
  match fuel with
  | O => None
  | S fuel' =>
      match regex_exec body lastIndex with
      | None => Some []
      | Some (href, lastIndex') =>
          option_map (cons href) (targetsFrom fuel' body lastIndex')
      end
  end.

Definition linkTargets (body : string) : list string :=
  match targetsFrom (S (String.length body)) body 0 with
  | Some hrefs => hrefs
  | None => []
  end.









(** ** Statements about breadcrumbs *)

(** A completed graph: the page-info map has the keys of the graph, and
    the info of a slug carries that slug. *)
Definition completed (graph : RelationsGraph) (pages : PageInfoMap) : Prop :=
  forall s,
    match JsMap.get s graph, JsMap.get s pages with
    | Some _, Some info => slug info = s
    | None, None => True
    | _, _ => False
    end.

(** The parent the claim names for a page: [ntpp[0]] if present,
    otherwise [tpp[0]]; none when both arrays are empty. *)
Definition claimedParent (rel : PageRelations) (o : option string) : Prop :=
  match o with
  | Some p =>
      (exists rest, Rel.ntpp rel = p :: rest) \/
      (Rel.ntpp rel = [] /\ exists rest, Rel.tpp rel = p :: rest)
  | None => Rel.ntpp rel = [] /\ Rel.tpp rel = []
  end.

(** The walk stops at a page whose parent [o] is missing: there is none,
    or it was visited, or it is no page of the graph. *)
Definition halts (graph : RelationsGraph) (visited : JsSet.t)
    (o : option string) : Prop :=
  o = None \/
  exists p, o = Some p /\ (In p visited \/ JsMap.get p graph = None).

(** [walk graph visited cur chain]: from the page [cur], with [visited]
    behind, stepping to [ntpp[0]], else [tpp[0]], until the walk stops,
    the pages met are [chain], last met first and [cur] last. *)
Inductive walk (graph : RelationsGraph)
  : JsSet.t -> string -> list string -> Prop :=
| walk_stop : forall visited cur rel o,
    JsMap.get cur graph = Some rel ->
    claimedParent rel o ->
    halts graph (JsSet.add visited cur) o ->
    walk graph visited cur [cur]
| walk_step : forall visited cur rel p chain,
    JsMap.get cur graph = Some rel ->
    claimedParent rel (Some p) ->
    ~ In p (JsSet.add visited cur) ->
    JsMap.get p graph <> None ->
    walk graph (JsSet.add visited cur) p chain ->
    walk graph visited cur (chain ++ [cur]).

(** The breadcrumbs of [start] end at [start], as the claim says of
    every starting slug. *)
Definition endsAtStart (graph : RelationsGraph) (pages : PageInfoMap)
    (start : string) : Prop :=
  exists infos front,
    getBreadcrumbs start graph pages = Some infos /\
    map slug infos = front ++ [start].

(** The store of the breadcrumb example. *)
Definition breadcrumbExample : list Page :=
  [pageDeclaring "root" NTPP [];
   pageDeclaring "mid" NTPP ["root"];
   pageDeclaring "leaf" NTPP ["mid"]].

(** A store where the two containments differ: mid is deep inside root
    and a tangential part of side; leaf is a tangential part of mid and
    deep inside nothing. *)
Definition parentChoiceExample : list Page :=
  [pageDeclaring "root" NTPP [];
   pageDeclaring "side" NTPP [];
   mkPage "mid" "mid" None (Some ["root"]) (Some ["side"]) None None None None
          None None;
   pageDeclaring "leaf" TPP ["mid"]].

(** ** Statements about the subgraph view *)

(** An edge of [E] joins [u] and [v], in either direction. *)
Definition adjacent (E : list GraphEdge) (u v : string) : Prop :=
  exists e, In e E /\
    ((Edge.source e = u /\ Edge.target e = v) \/
     (Edge.source e = v /\ Edge.target e = u)).

(** [v] is at the end of a path of [n] edges of [E] from [root]. *)
Inductive hops (E : list GraphEdge) (root : string) : nat -> string -> Prop :=
| hops_root : hops E root 0 root
| hops_next : forall n u v,
    hops E root n u -> adjacent E u v -> hops E root (S n) v.

(** [v] is reachable from [root] within [N] hops. *)
Definition within (E : list GraphEdge) (root : string) (N : nat) (v : string)
  : Prop :=
  exists n, n <= N /\ hops E root n v.

(** The claim on depth 0: only the root node, and no edge. *)
Definition depthZeroClaim (graph : RelationsGraph) (pages : PageInfoMap)
    (rootSlug : string) (types : list EdgeType) : Prop :=
  let sub := buildSubgraphData graph pages rootSlug (mkOpts types 0) in
  (forall n, In n (nodes sub) -> Node.id n = rootSlug) /\ edges sub = [].

(** The claim on the edges: both ends of every edge returned are among
    the nodes returned. *)
Definition endpointsClaim (graph : RelationsGraph) (pages : PageInfoMap)
    (rootSlug : string) (opts : SubgraphOptions) : Prop :=
  let sub := buildSubgraphData graph pages rootSlug opts in
  forall e, In e (edges sub) ->
    In (Edge.source e) (map Node.id (nodes sub)) /\
    In (Edge.target e) (map Node.id (nodes sub)).

(** ** Statements about the full view *)

(** The edge [e] is of type [ty] and joins [a] and [b]. *)
Definition joins (ty : EdgeType) (a b : string) (e : GraphEdge) : bool :=
  EdgeType_eqb (Edge.type e) ty &&
  (((Edge.source e =? a) && (Edge.target e =? b)) ||
   ((Edge.source e =? b) && (Edge.target e =? a))).

(** How many edges of type [ty] the view has between [a] and [b]. *)
Definition edgesBetween (ty : EdgeType) (a b : string) (view : GraphData) : nat :=
  List.length (filter (joins ty a b) (edges view)).

(** A store with two pairs of equal pages whose slugs hold the
    separator of the keys. *)
Definition collidingStore : list Page :=
  [pageDeclaring "a" EQ ["b::c"]; pageDeclaring "b::c" EQ [];
   pageDeclaring "a::b" EQ []; pageDeclaring "c" EQ ["a::b"]].

(** ** Statements about the backlinks *)

(** The backlinks of the page [P] as the link extractor gives them: the
    pages of the store, in its order, whose extracted references hold
    the slug of [P]. *)
Definition backlinksFromExtractor (allPages : list Page) (P : Page)
  : list Backlinks.Backlink :=
  let knownSlugs := JsSet.of_list (map id allPages) in
  map (fun Q => Backlinks.mk (Backlinks.pagePath Q) (data_title Q))
      (filter (fun Q =>
                 includes (extractLinkSlugs
                             (match body Q with Some b => b | None => "" end)
                             (id Q) knownSlugs)
                          (id P))
              allPages).

(** The endpoint agrees with the extractor on every page. *)
Definition backlinksAgree (allPages : list Page) : Prop :=
  forall P, In P allPages ->
    JsMap.get (Backlinks.pagePath P) (Backlinks.GET allPages) =
    Some (backlinksFromExtractor allPages P).

(** A store whose page [a] links to the home page by its slug. *)
Definition indexLinkStore : list Page :=
  [pageBody "index" "Home"; pageBody "a" "Back [home](/index)."].

(** ** Reading the heap *)

(** The relations object a [RelRef.t] is in the heap [h]. *)
Definition readRel (h : Heap.t) (rel : RelRef.t) : PageRelations :=
  Rel.mk (Heap.read h (RelRef.ntpp rel)) (Heap.read h (RelRef.nttpi rel))
         (Heap.read h (RelRef.tpp rel)) (Heap.read h (RelRef.tppi rel))
         (Heap.read h (RelRef.po rel)) (Heap.read h (RelRef.ec rel))
         (Heap.read h (RelRef.eq rel)) (Heap.read h (RelRef.dc rel))
         (RelRef.next rel) (RelRef.prev rel)
         (Heap.read h (RelRef.r rel)) (Heap.read h (RelRef.ri rel)).

Definition readGraph (h : Heap.t) (graph : GraphRef) : RelationsGraph :=
  mapVals (readRel h) graph.

Definition readPage (h : Heap.t) (page : PageRef) : Page :=
  mkPage (ref_id page) (ref_title page) (ref_body page)
         (option_map (Heap.read h) (ref_ntpp page))
         (option_map (Heap.read h) (ref_tpp page))
         (option_map (Heap.read h) (ref_po page))
         (option_map (Heap.read h) (ref_ec page))
         (option_map (Heap.read h) (ref_eq page))
         (option_map (Heap.read h) (ref_dc page))
         (ref_next page) (ref_prev page).

Definition readStore (h : Heap.t) (allPages : list PageRef) : list Page :=
  map (readPage h) allPages.

(** The array references of a page of the store. *)
Definition pageRefs (page : PageRef) : list (option Heap.loc) :=
  [ref_ntpp page; ref_tpp page; ref_po page; ref_ec page; ref_eq page;
   ref_dc page].

(** Every array of the store is allocated in [h]. *)
Definition storeAllocated (allPages : list PageRef) (h : Heap.t) : Prop :=
  forall page l, In page allPages -> In (Some l) (pageRefs page) ->
    l < List.length h.

(** The arrays of the graph are allocated in [h] from [base] on, and no
    two fields of the graph share one. *)
Record GraphWf (base : nat) (graph : GraphRef) (h : Heap.t) : Prop := {
  wf_keys : NoDup (JsMap.keys graph);
  wf_bounds : forall s rel k,
    In (s, rel) graph -> base <= fieldRef k rel < List.length h;
  wf_separate : forall s1 rel1 k1 s2 rel2 k2,
    In (s1, rel1) graph -> In (s2, rel2) graph ->
    fieldRef k1 rel1 = fieldRef k2 rel2 -> s1 = s2 /\ k1 = k2
}.

(** The arrays of one relations object under construction. *)
Definition RelWf (base : nat) (rel : RelRef.t) (h : Heap.t) : Prop :=
  (forall k, base <= fieldRef k rel < List.length h) /\
  (forall k1 k2, fieldRef k1 rel = fieldRef k2 rel -> k1 = k2).

(** A store of two pages that share one declared array. *)
Definition sharedStore : list PageRef :=
  [mkPageRef "a" "A" None None None (Some 0) None None None (Some "b") None;
   mkPageRef "b" "B" (Some "see [a](/a)") None None (Some 0) None None None None None].

Definition sharedHeap : Heap.t := [["b"; "a"]].

(** The relations object [st] under construction over the heap [h0]
    reads as [p]: its arrays are new, apart from each other, and the
    heap only grew. *)
Definition Building (h0 : Heap.t) (st : RelRef.t * Heap.t) (p : PageRelations)
  : Prop :=
  (exists ext, snd st = h0 ++ ext) /\
  RelWf (List.length h0) (fst st) (snd st) /\
  readRel (snd st) (fst st) = p.

(** The state of the first pass over the heap [h0] reads as the graph
    [g] and the page infos [p]. *)
Definition FirstPassInv (h0 : Heap.t) (st : BuildState)
    (g : RelationsGraph) (p : PageInfoMap) : Prop :=
  (exists ext, bs_heap st = h0 ++ ext) /\
  GraphWf (List.length h0) (bs_graph st) (bs_heap st) /\
  readGraph (bs_heap st) (bs_graph st) = g /\
  bs_pages st = p.

(** ** Statements about strings *)

(** The character [c] occurs in [s]. *)
Fixpoint contains (c : ascii) (s : string) : bool :=
  match s with
  | EmptyString => false
  | String a rest => Ascii.eqb a c || contains c rest
  end.

(** [data[k] ?? []]: a declared array, or none. *)
Definition orEmpty (o : option (list string)) : list string :=
  match o with
  | Some l => l
  | None => []
  end.

(** The mirror of [PtrInv], for [prev] pointers and the [next] they
    name. *)
Record PtrInvPrev (m0 : Pointers) (done : list string) (m : Pointers) : Prop := {
  inv_next_just : forall s n,
    nextOf m s = Some n -> n <> "" ->
    nextOf m0 s = Some n \/ (In n done /\ prevOf m n = Some s /\ s <> "");
  inv_done_prev : forall a b,
    In a done -> prevOf m a = Some b -> b <> "" -> JsMap.get b m <> None ->
    exists n, nextOf m b = Some n /\ n <> "" /\
      (n = a \/ nextOf m0 b = Some n \/ (before done n a /\ prevOf m n = Some b))
}.

(** The slug [s] declares [next: n] in its front matter. *)
Definition declaresNext (allPages : list Page) (s n : string) : Prop :=
  exists page, In page allPages /\ id page = s /\ data_next page = Some n.

(** The edge types pushed through the set [seen]. *)
Definition onceType (ty : EdgeType) : bool :=
  match ty with
  | E_po | E_ec | E_eq | E_dc | E_next => true
  | E_ntpp | E_tpp | E_r => false
  end.

(** The key under which an edge is seen. *)
Definition keyOf (e : GraphEdge) : string :=
  edgeKey (Edge.source e) (Edge.target e) (Edge.type e).

(** The keys seen are those of the edges pushed through [seen], in the
    order of the pushes, and none occurs twice. *)
Definition ViewInv (st : ViewState) : Prop :=
  map keyOf (filter (fun e => onceType (Edge.type e)) (vs_edges st)) = vs_seen st /\
  NoDup (vs_seen st).

(** [st'] is [st] with the edges [added] pushed: the nodes are kept and
    no key is forgotten. *)
Definition grows (st st' : ViewState) (added : list GraphEdge) : Prop :=
  vs_edges st' = vs_edges st ++ added /\
  vs_nodes st' = vs_nodes st /\
  incl (vs_seen st) (vs_seen st').

(** The entry lists [target] under the type [ty]: in the array of the
    type, or as its non-empty [next]. *)
Definition listed (rel : PageRelations) (ty : EdgeType) (target : string) : Prop :=
  In target (fieldOfType ty rel) \/
  (ty = E_next /\ Rel.next rel = Some target /\ target <> ""%string).

(** The edge [e] is read from the entry of [slug]: it starts there and
    ends at a slug the entry lists under the type of the edge. *)
Definition fromEntry (slug : string) (rel : PageRelations) (e : GraphEdge) : Prop :=
  Edge.source e = slug /\ listed rel (Edge.type e) (Edge.target e).

Definition hasType (ty : EdgeType) (e : GraphEdge) : bool :=
  EdgeType_eqb (Edge.type e) ty.

(** The node of an entry of the graph, if the page is known. *)
Definition nodeOf (pages : PageInfoMap) (entry : string * PageRelations)
  : list GraphNode :=
  match JsMap.get (fst entry) pages with
  | Some info => [Node.mk (fst entry) (title info) (countConnections (snd entry))]
  | None => []
  end.

(** The edges of type [ty] an entry of the graph lists, if the page is
    known. *)
Definition listedEdges (pages : PageInfoMap) (ty : EdgeType)
    (entry : string * PageRelations) : list GraphEdge :=
  match JsMap.get (fst entry) pages with
  | Some _ => map (fun target => Edge.mk (fst entry) target ty)
                  (fieldOfType ty (snd entry))
  | None => []
  end.

(** No colon in the slug. *)
Definition colonFree (s : string) : bool := negb (contains ":" s).

(** Neither the key of the entry nor a slug it lists under a type that
    passes through [seen] holds a colon. *)
Definition colonFreeEntry (entry : string * PageRelations) : bool :=
  let rel := snd entry in
  colonFree (fst entry) &&
  forallb colonFree (Rel.po rel ++ Rel.ec rel ++ Rel.eq rel ++ Rel.dc rel) &&
  match Rel.next rel with
  | Some n => colonFree n
  | None => true
  end.

Definition colonFreeGraph (graph : RelationsGraph) : bool :=
  forallb colonFreeEntry graph.

(** ** Statements about the backlinks endpoint *)

(** [page.body || ''] *)
Definition bodyOf (page : Page) : string :=
  match body page with Some b => b | None => ""%string end.

(** A link of the page, not skipped, normalises to the path [k]. *)
Definition linksToPath (page : Page) (k : string) : bool :=
  existsb (fun href => negb (skipped href) && (normalizePath href =? k))
          (linkTargets (bodyOf page)).

(** What one page adds to the backlinks of the path [k]: itself, when it
    links to [k], is not at [k] and is not listed yet. *)
Definition addBacklink (k : string) (arr : list Backlinks.Backlink)
    (page : Page) : list Backlinks.Backlink :=
  if linksToPath page k && negb (k =? Backlinks.pagePath page)
     && negb (existsb (fun bl => Backlinks.path bl =? Backlinks.pagePath page) arr)
  then arr ++ [Backlinks.mk (Backlinks.pagePath page) (data_title page)]
  else arr.

(** The backlinks of the path [k], page after page. *)
Definition backlinksAt (allPages : list Page) (k : string)
  : list Backlinks.Backlink :=
  fold_left (addBacklink k) allPages [].

(** No link of the store, not skipped, normalises to [/index]. *)
Definition noIndexLink (allPages : list Page) : bool :=
  forallb (fun page => negb (linksToPath page "/index")) allPages.

(** ** Statements about the earlier relations graph *)

(** [o'] keeps what [o] holds: a value that is set is not replaced. *)
Definition keptOpt (o o' : option string) : Prop :=
  truthy o = true -> o' = o.

(** The relations [r'] keep what [r] holds and may hold more. *)
Definition relExt (r r' : Old.PageRelations) : Prop :=
  keptOpt (Old.up r) (Old.up r') /\
  (exists extra, Old.down r' = Old.down r ++ extra) /\
  keptOpt (Old.next r) (Old.next r') /\
  keptOpt (Old.prev r) (Old.prev r').

(** The graph [g'] has the entries of [g], each keeping what it held. *)
Definition graphExt (g g' : Old.RelationsGraph) : Prop :=
  JsMap.keys g' = JsMap.keys g /\
  forall s r, JsMap.get s g = Some r ->
    exists r', JsMap.get s g' = Some r' /\ relExt r r'.

Definition upOf (g : Old.RelationsGraph) (s : string) : option string :=
  match JsMap.get s g with
  | Some r => Old.up r
  | None => None
  end.

Definition downOf (g : Old.RelationsGraph) (s : string) : list string :=
  match JsMap.get s g with
  | Some r => Old.down r
  | None => []
  end.

(** Every page among [done] whose parent is a page of the graph is
    listed by that parent. *)
Definition parentsList (done : list string) (g : Old.RelationsGraph) : Prop :=
  forall B p, upOf g B = Some p -> p <> ""%string -> JsMap.get p g <> None ->
    In B done -> In B (downOf g p).

(** [update s f g]: the entry of [s], if there is one, changed by [f]. *)
Definition update (s : string) (f : Old.PageRelations -> Old.PageRelations)
    (g : Old.RelationsGraph) : Old.RelationsGraph :=
  match JsMap.get s g with
  | Some r => JsMap.set s (f r) g
  | None => g
  end.

(** What the four rules do to the entry they reach. *)
Definition listChild (slug : string) (parent : Old.PageRelations)
  : Old.PageRelations :=
  if negb (includes (Old.down parent) slug)
  then Old.set_down (Old.down parent ++ [slug]) parent else parent.

Definition prevIfNone (slug : string) (nextPage : Old.PageRelations)
  : Old.PageRelations :=
  if negb (truthy (Old.prev nextPage))
  then Old.set_prev (Some slug) nextPage else nextPage.

Definition upIfNone (slug : string) (childPage : Old.PageRelations)
  : Old.PageRelations :=
  if negb (truthy (Old.up childPage))
  then Old.set_up (Some slug) childPage else childPage.

Definition nextIfNone (slug : string) (prevPage : Old.PageRelations)
  : Old.PageRelations :=
  if negb (truthy (Old.next prevPage))
  then Old.set_next (Some slug) prevPage else prevPage.

(** The entry the first pass writes for a page. *)
Definition declaredOld (page : Old.Page) : Old.PageRelations :=
  Old.mk (Old.data_up page) (orEmpty (Old.data_down page))
         (Old.data_next page) (Old.data_prev page).

(** ** Statements about the entry of a page *)

(** The array [l] is [declared] followed by inferred slugs: distinct
    pages, none of them declared, each listing [s] in its array of
    kind [k]. *)
Definition inferredAfter (graph : RelationsGraph) (k : RelKind) (s : string)
    (declared l : list string) : Prop :=
  exists extra,
    l = declared ++ extra /\ NoDup extra /\
    (forall x, In x extra -> ~ In x declared) /\
    Forall (listsBack graph k s) extra.

(** The store of two pages again, its shared array at another place of
    another heap. *)
Definition movedStore : list PageRef :=
  [mkPageRef "a" "A" None None None (Some 1) None None None (Some "b") None;
   mkPageRef "b" "B" (Some "see [a](/a)") None None (Some 1) None None None None None].

Definition movedHeap : Heap.t := [["other"]; ["b"; "a"]].

(* ================================================================== *)
(** * Part III: properties *)
(* ================================================================== *)

(** ** Strings, arrays and maps *)

Lemma includes_In (arr : list string) (x : string) :
  includes arr x = true <-> In x arr.
Proof.
  unfold includes. rewrite existsb_exists. split.
  - intros [y [Hy He]]. apply String.eqb_eq in He. now subst.
  - intros H. exists x. split; [assumption | apply String.eqb_refl].
Qed.

Lemma includes_false (arr : list string) (x : string) :
  includes arr x = false <-> ~ In x arr.
Proof.
  rewrite <- includes_In. destruct (includes arr x); split; congruence.
Qed.

Lemma addUnique_In (arr : list string) (v x : string) :
  In x (addUnique arr v) <-> In x arr \/ x = v.
Proof.
  unfold addUnique. destruct (includes arr v) eqn:E.
  - apply includes_In in E. split; [tauto | intros [H | ->]; assumption].
  - rewrite in_app_iff. simpl. intuition.
Qed.

(** Adding a member changes nothing: the loop of [inferKind] for a page
    that lists itself does not push to the array it iterates. *)
Lemma addUnique_member (arr : list string) (v : string) :
  In v arr -> addUnique arr v = arr.
Proof.
  intros H. unfold addUnique. apply includes_In in H. now rewrite H.
Qed.

Lemma addUnique_NoDup (arr : list string) (v : string) :
  NoDup arr -> NoDup (addUnique arr v).
Proof.
  intros H. unfold addUnique. destruct (includes arr v) eqn:E; [assumption |].
  apply includes_false in E.
  apply NoDup_app; [assumption | repeat constructor; simpl; tauto |].
  intros x Hx [<- | []]. contradiction.
Qed.

Module JsMapFacts.
Import JsMap.
Section WithValue.
Variable V : Type.
Implicit Types (m : JsMap.t V) (k : string) (v : V).

Lemma get_set_eq k v m : get k (set k v m) = Some v.
Proof.
  induction m as [| [k' v'] m IH]; simpl.
  - now rewrite String.eqb_refl.
  - destruct (k =? k') eqn:E; simpl; rewrite E; [reflexivity | exact IH].
Qed.

Lemma get_set_ne k k' v m : k <> k' -> get k' (set k v m) = get k' m.
Proof.
  intros Hne. induction m as [| [k0 v0] m IH]; simpl.
  - destruct (k' =? k) eqn:E; [| reflexivity].
    apply String.eqb_eq in E. congruence.
  - destruct (k =? k0) eqn:E; simpl.
    + apply String.eqb_eq in E. subst k0.
      destruct (k' =? k) eqn:E'; [| reflexivity].
      apply String.eqb_eq in E'. congruence.
    + now rewrite IH.
Qed.

Lemma get_set k k' v m :
  get k' (set k v m) = if k' =? k then Some v else get k' m.
Proof.
  destruct (k' =? k) eqn:E.
  - apply String.eqb_eq in E. subst. apply get_set_eq.
  - apply String.eqb_neq in E. apply get_set_ne. congruence.
Qed.

Lemma keys_set_present k v m :
  get k m <> None -> keys (set k v m) = keys m.
Proof.
  induction m as [| [k' v'] m IH]; simpl; [congruence |].
  destruct (k =? k') eqn:E; simpl; [reflexivity |].
  intros H. f_equal. now apply IH.
Qed.

Lemma keys_set_absent k v m :
  get k m = None -> keys (set k v m) = keys m ++ [k].
Proof.
  induction m as [| [k' v'] m IH]; simpl; [reflexivity |].
  destruct (k =? k') eqn:E; simpl; [congruence |].
  intros H. f_equal. now apply IH.
Qed.

Lemma length_set_present k v m :
  get k m <> None -> List.length (set k v m) = List.length m.
Proof.
  intros H. apply keys_set_present with (v := v) in H.
  unfold keys in H. apply (f_equal (@List.length _)) in H.
  now rewrite !length_map in H.
Qed.

Lemma set_same k v m : get k m = Some v -> set k v m = m.
Proof.
  induction m as [| [k' v'] m IH]; simpl; [congruence |].
  destruct (k =? k') eqn:E.
  - intros H. congruence.
  - intros H. now rewrite IH.
Qed.

Lemma get_in_keys k m : get k m <> None <-> In k (keys m).
Proof.
  induction m as [| [k' v'] m IH]; simpl; [tauto |].
  destruct (k =? k') eqn:E.
  - apply String.eqb_eq in E. subst. split; [auto | congruence].
  - apply String.eqb_neq in E. rewrite IH. intuition congruence.
Qed.

Lemma get_Some_in_keys k v m : get k m = Some v -> In k (keys m).
Proof. intros H. apply get_in_keys. congruence. Qed.

Lemma in_keys_get k m : In k (keys m) -> exists v, get k m = Some v.
Proof.
  intros H. apply get_in_keys in H.
  destruct (get k m) as [v |]; [now exists v | congruence].
Qed.

Lemma get_Some_In k v m : get k m = Some v -> In (k, v) m.
Proof.
  induction m as [| [k' v'] m IH]; simpl; [congruence |].
  destruct (k =? k') eqn:E.
  - apply String.eqb_eq in E. intros H. left. congruence.
  - auto.
Qed.

Lemma keys_set_NoDup k v m : NoDup (keys m) -> NoDup (keys (set k v m)).
Proof.
  intros H. destruct (get k m) eqn:E.
  - rewrite keys_set_present; [assumption | congruence].
  - rewrite keys_set_absent by assumption.
    apply NoDup_app; [assumption | repeat constructor; simpl; tauto |].
    intros x Hx [<- | []]. apply get_in_keys in Hx. congruence.
Qed.

Variable W : Type.
Variable f : V -> W.

Lemma get_mapVals k m : get k (mapVals f m) = option_map f (get k m).
Proof.
  induction m as [| [k' v'] m IH]; simpl; [reflexivity |].
  destruct (k =? k'); [reflexivity | exact IH].
Qed.

Lemma mapVals_set k v m : mapVals f (set k v m) = set k (f v) (mapVals f m).
Proof.
  induction m as [| [k' v'] m IH]; simpl; [reflexivity |].
  destruct (k =? k'); simpl; [reflexivity | now rewrite IH].
Qed.

Lemma keys_mapVals m : keys (mapVals f m) = keys m.
Proof. unfold keys, mapVals. rewrite map_map. reflexivity. Qed.
End WithValue.
End JsMapFacts.
Import JsMapFacts.

(** ** Fields of a relations object *)

Lemma RelKind_eqb_eq (a b : RelKind) : RelKind_eqb a b = true <-> a = b.
Proof. destruct a, b; simpl; split; congruence. Qed.

Lemma field_set_field (k k' : RelKind) (v : list string) (rel : PageRelations) :
  field k (set_field k' v rel) = if RelKind_eqb k k' then v else field k rel.
Proof. destruct rel, k, k'; reflexivity. Qed.

Lemma pointers_set_field (k : RelKind) (v : list string) (rel : PageRelations) :
  pointers (set_field k v rel) = pointers rel.
Proof. destruct rel, k; reflexivity. Qed.

Lemma field_set_next (k : RelKind) (v : option string) (rel : PageRelations) :
  field k (set_next v rel) = field k rel.
Proof. destruct rel, k; reflexivity. Qed.

Lemma field_set_prev (k : RelKind) (v : option string) (rel : PageRelations) :
  field k (set_prev v rel) = field k rel.
Proof. destruct rel, k; reflexivity. Qed.

Lemma pointers_set_next (v : option string) (rel : PageRelations) :
  pointers (set_next v rel) = (v, Rel.prev rel).
Proof. destruct rel; reflexivity. Qed.

Lemma pointers_set_prev (v : option string) (rel : PageRelations) :
  pointers (set_prev v rel) = (Rel.next rel, v).
Proof. destruct rel; reflexivity. Qed.

(** ** The second pass, field by field

    Each step of the second pass writes one field.  Seen through
    [mapVals (field k)], a step is the identity or a [dirStep]; seen
    through [mapVals pointers], it is the identity or a [ptrStep]. *)

Section Projections.
Variable k : RelKind.

Lemma proj_pushInverse dst slug (g : RelationsGraph) t :
  mapVals (field k) (pushInverse dst slug g t) =
  if RelKind_eqb k dst then pushList slug (mapVals (field k) g) t
  else mapVals (field k) g.
Proof.
  unfold pushInverse, pushList. rewrite get_mapVals.
  destruct (JsMap.get t g) as [rel |] eqn:E; simpl.
  - rewrite mapVals_set, field_set_field.
    destruct (RelKind_eqb k dst) eqn:Ek.
    + apply RelKind_eqb_eq in Ek. now subst.
    + apply set_same. rewrite get_mapVals, E. reflexivity.
  - now destruct (RelKind_eqb k dst).
Qed.

Lemma proj_fold_pushInverse dst slug targets (g : RelationsGraph) :
  mapVals (field k) (fold_left (pushInverse dst slug) targets g) =
  if RelKind_eqb k dst
  then fold_left (pushList slug) targets (mapVals (field k) g)
  else mapVals (field k) g.
Proof.
  revert g. induction targets as [| t ts IH]; intros g; simpl.
  - now destruct (RelKind_eqb k dst).
  - rewrite IH, proj_pushInverse. now destruct (RelKind_eqb k dst).
Qed.

Lemma proj_inferKind src dst slug (g : RelationsGraph) :
  mapVals (field k) (inferKind src dst slug g) =
  if RelKind_eqb k dst
  then dirStep (mapVals (field src) g) (mapVals (field k) g) slug
  else mapVals (field k) g.
Proof.
  unfold inferKind, dirStep. rewrite get_mapVals.
  destruct (JsMap.get slug g) as [rel |]; simpl.
  - apply proj_fold_pushInverse.
  - now destruct (RelKind_eqb k dst).
Qed.

Lemma proj_inferNext slug (g : RelationsGraph) :
  mapVals (field k) (inferNext slug g) = mapVals (field k) g.
Proof.
  unfold inferNext.
  destruct (JsMap.get slug g) as [rel |]; [| reflexivity].
  destruct (Rel.next rel) as [n |]; [| reflexivity].
  destruct (truthy (Some n)); [| reflexivity].
  destruct (JsMap.get n g) as [nextRel |] eqn:E; [| reflexivity].
  destruct (negb (truthy (Rel.prev nextRel))); [| reflexivity].
  rewrite mapVals_set, field_set_prev. apply set_same.
  rewrite get_mapVals, E. reflexivity.
Qed.

Lemma proj_inferPrev slug (g : RelationsGraph) :
  mapVals (field k) (inferPrev slug g) = mapVals (field k) g.
Proof.
  unfold inferPrev.
  destruct (JsMap.get slug g) as [rel |]; [| reflexivity].
  destruct (Rel.prev rel) as [p |]; [| reflexivity].
  destruct (truthy (Some p)); [| reflexivity].
  destruct (JsMap.get p g) as [prevRel |] eqn:E; [| reflexivity].
  destruct (negb (truthy (Rel.next prevRel))); [| reflexivity].
  rewrite mapVals_set, field_set_next. apply set_same.
  rewrite get_mapVals, E. reflexivity.
Qed.
End Projections.

Lemma dirStep_same (m : JsMap.t (list string)) (slug : string) :
  dirStep m m slug = symStep m slug.
Proof. reflexivity. Qed.

Ltac proj_page :=
  unfold inferPage;
  repeat (rewrite ?proj_inferKind, ?proj_inferNext, ?proj_inferPrev; simpl);
  try reflexivity.

(** A forward field is not written. *)
Lemma proj_inferPage_forward (k : RelKind) (g : RelationsGraph) (slug : string) :
  k = NTPP \/ k = TPP \/ k = R ->
  mapVals (field k) (inferPage g slug) = mapVals (field k) g.
Proof. intros [-> | [-> | ->]]; proj_page. Qed.

(** An inverse field receives the inverses of its forward field. *)
Lemma proj_inferPage_inverse (src dst : RelKind) (g : RelationsGraph) (slug : string) :
  (src, dst) = (NTPP, NTTPI) \/ (src, dst) = (TPP, TPPI) \/ (src, dst) = (R, RI) ->
  mapVals (field dst) (inferPage g slug) =
  dirStep (mapVals (field src) g) (mapVals (field dst) g) slug.
Proof. intros [H | [H | H]]; inversion H; subst; proj_page. Qed.

(** A symmetric field receives its own inverses. *)
Lemma proj_inferPage_symmetric (k : RelKind) (g : RelationsGraph) (slug : string) :
  symmetricKind k ->
  mapVals (field k) (inferPage g slug) = symStep (mapVals (field k) g) slug.
Proof. intros [-> | [-> | [-> | ->]]]; proj_page. Qed.

Lemma ptr_pushInverse dst slug (g : RelationsGraph) t :
  mapVals pointers (pushInverse dst slug g t) = mapVals pointers g.
Proof.
  unfold pushInverse.
  destruct (JsMap.get t g) as [rel |] eqn:E; [| reflexivity].
  rewrite mapVals_set, pointers_set_field. apply set_same.
  rewrite get_mapVals, E. reflexivity.
Qed.

Lemma ptr_inferKind src dst slug (g : RelationsGraph) :
  mapVals pointers (inferKind src dst slug g) = mapVals pointers g.
Proof.
  unfold inferKind. destruct (JsMap.get slug g) as [rel |]; [| reflexivity].
  generalize (field src rel). intros targets. revert g.
  induction targets as [| t ts IH]; intros g; simpl; [reflexivity |].
  now rewrite IH, ptr_pushInverse.
Qed.

Lemma get_mapVals_pointers (g : RelationsGraph) (s : string) :
  JsMap.get s (mapVals pointers g) =
  match JsMap.get s g with
  | Some rel => Some (Rel.next rel, Rel.prev rel)
  | None => None
  end.
Proof. rewrite get_mapVals. now destruct (JsMap.get s g). Qed.

Lemma ptr_inferNext slug (g : RelationsGraph) :
  mapVals pointers (inferNext slug g) = ptrNext slug (mapVals pointers g).
Proof.
  unfold inferNext, ptrNext. rewrite get_mapVals_pointers.
  destruct (JsMap.get slug g) as [rel |]; [| reflexivity].
  destruct (Rel.next rel) as [n |]; [| reflexivity].
  destruct (truthy (Some n)); [| reflexivity].
  rewrite get_mapVals_pointers.
  destruct (JsMap.get n g) as [nextRel |]; [| reflexivity].
  destruct (negb (truthy (Rel.prev nextRel))); [| reflexivity].
  now rewrite mapVals_set, pointers_set_prev.
Qed.

Lemma ptr_inferPrev slug (g : RelationsGraph) :
  mapVals pointers (inferPrev slug g) = ptrPrev slug (mapVals pointers g).
Proof.
  unfold inferPrev, ptrPrev. rewrite get_mapVals_pointers.
  destruct (JsMap.get slug g) as [rel |]; [| reflexivity].
  destruct (Rel.prev rel) as [p |]; [| now destruct (Rel.next rel)].
  destruct (truthy (Some p)); [| now destruct (Rel.next rel)].
  rewrite get_mapVals_pointers.
  destruct (JsMap.get p g) as [prevRel |]; [| reflexivity].
  destruct (negb (truthy (Rel.next prevRel))); [| reflexivity].
  now rewrite mapVals_set, pointers_set_next.
Qed.

Lemma ptr_inferPage (g : RelationsGraph) (slug : string) :
  mapVals pointers (inferPage g slug) = ptrStep (mapVals pointers g) slug.
Proof.
  unfold inferPage, ptrStep.
  now rewrite ptr_inferKind, ptr_inferPrev, ptr_inferNext, !ptr_inferKind.
Qed.

(** The whole pass, on any list of slugs to visit. *)
Section PassProjections.
Variable ks : list string.

Lemma proj_pass_forward (k : RelKind) (g : RelationsGraph) :
  k = NTPP \/ k = TPP \/ k = R ->
  mapVals (field k) (fold_left inferPage ks g) = mapVals (field k) g.
Proof.
  intros Hk. revert g. induction ks as [| s l IH]; intros g; simpl.
  - reflexivity.
  - now rewrite IH, proj_inferPage_forward.
Qed.

Lemma proj_pass_inverse (src dst : RelKind) (g : RelationsGraph) :
  (src, dst) = (NTPP, NTTPI) \/ (src, dst) = (TPP, TPPI) \/ (src, dst) = (R, RI) ->
  mapVals (field dst) (fold_left inferPage ks g) =
  fold_left (dirStep (mapVals (field src) g)) ks (mapVals (field dst) g).
Proof.
  intros Hk. revert g. induction ks as [| s l IH]; intros g; simpl.
  - reflexivity.
  - rewrite IH, (proj_inferPage_inverse g s Hk), proj_inferPage_forward.
    + reflexivity.
    + destruct Hk as [H | [H | H]]; inversion H; auto.
Qed.

Lemma proj_pass_symmetric (k : RelKind) (g : RelationsGraph) :
  symmetricKind k ->
  mapVals (field k) (fold_left inferPage ks g) =
  fold_left symStep ks (mapVals (field k) g).
Proof.
  intros Hk. revert g. induction ks as [| s l IH]; intros g; simpl.
  - reflexivity.
  - now rewrite IH, proj_inferPage_symmetric.
Qed.

Lemma ptr_pass (g : RelationsGraph) :
  mapVals pointers (fold_left inferPage ks g) =
  fold_left ptrStep ks (mapVals pointers g).
Proof.
  revert g. induction ks as [| s l IH]; intros g; simpl.
  - reflexivity.
  - now rewrite IH, ptr_inferPage.
Qed.
End PassProjections.

Lemma keys_secondPass (g : RelationsGraph) :
  JsMap.keys (secondPass g) = JsMap.keys g.
Proof.
  rewrite <- (keys_mapVals (field NTPP) (secondPass g)).
  unfold secondPass. rewrite proj_pass_forward by auto.
  apply keys_mapVals.
Qed.

(** Reading a field of a page through the view. *)
Lemma get_field (k : RelKind) (g : RelationsGraph) (s : string) (rel : PageRelations) :
  JsMap.get s g = Some rel ->
  JsMap.get s (mapVals (field k) g) = Some (field k rel).
Proof. intros H. now rewrite get_mapVals, H. Qed.

Lemma get_pointers (g : RelationsGraph) (s : string) (rel : PageRelations) :
  JsMap.get s g = Some rel ->
  JsMap.get s (mapVals pointers g) = Some (Rel.next rel, Rel.prev rel).
Proof. intros H. now rewrite get_mapVals, H. Qed.

(** ** Pushing inverses *)

Lemma dedupAppended_refl (l : list string) : dedupAppended l l.
Proof. now exists []. Qed.

Lemma dedupAppended_trans (l1 l2 l3 : list string) :
  dedupAppended l1 l2 -> dedupAppended l2 l3 -> dedupAppended l1 l3.
Proof.
  intros [xs ->] [ys ->]. exists (xs ++ ys). now rewrite fold_left_app.
Qed.

Lemma dedupAppended_addUnique (l : list string) (x : string) :
  dedupAppended l (addUnique l x).
Proof. now exists [x]. Qed.

Lemma dedupAppended_incl (l l' : list string) :
  dedupAppended l l' -> forall x, In x l -> In x l'.
Proof.
  intros [xs ->]. revert l. induction xs as [| y ys IH]; intros l x Hx; simpl.
  - assumption.
  - apply IH. apply addUnique_In. now left.
Qed.

(** What a dedup-append can add: it keeps the array as a prefix, and the
    elements after it are new and distinct. *)
Lemma dedupAppended_prefix (l l' : list string) :
  dedupAppended l l' ->
  exists extra, l' = l ++ extra /\ NoDup extra /\ forall x, In x extra -> ~ In x l.
Proof.
  intros [xs ->]. revert l. induction xs as [| y ys IH]; intros l; simpl.
  - exists []. rewrite app_nil_r. repeat split; [constructor | intros x []].
  - destruct (IH (addUnique l y)) as [extra [E [Hnd Hnew]]]. rewrite E.
    unfold addUnique in *. destruct (includes l y) eqn:Ei.
    + exists extra. auto.
    + apply includes_false in Ei. exists (y :: extra).
      rewrite <- app_assoc. simpl. repeat split.
      * constructor; [| assumption]. intros Hy. apply (Hnew y Hy).
        apply in_or_app. right. now left.
      * intros x [<- | Hx]; [assumption |].
        intros Hl. apply (Hnew x Hx). apply in_or_app. now left.
Qed.

Lemma addUnique_idem (l : list string) (x : string) :
  addUnique (addUnique l x) x = addUnique l x.
Proof. apply addUnique_member. apply addUnique_In. now right. Qed.

Lemma get_pushList (slug : string) (m : JsMap.t (list string)) (t s : string) :
  JsMap.get s (pushList slug m t) =
  option_map (fun l => if s =? t then addUnique l slug else l) (JsMap.get s m).
Proof.
  unfold pushList. destruct (JsMap.get t m) as [lt |] eqn:Et.
  - rewrite get_set. destruct (s =? t) eqn:E.
    + apply String.eqb_eq in E. subst. now rewrite Et.
    + now destruct (JsMap.get s m).
  - destruct (s =? t) eqn:E.
    + apply String.eqb_eq in E. subst. now rewrite Et.
    + now destruct (JsMap.get s m).
Qed.

Lemma get_fold_pushList (slug : string) (ts : list string)
    (m : JsMap.t (list string)) (s : string) :
  JsMap.get s (fold_left (pushList slug) ts m) =
  option_map (fun l => if includes ts s then addUnique l slug else l)
             (JsMap.get s m).
Proof.
  revert m. induction ts as [| t ts IH]; intros m; simpl.
  - now destruct (JsMap.get s m).
  - rewrite IH, get_pushList. destruct (JsMap.get s m) as [l |]; simpl; [| reflexivity].
    f_equal. destruct (s =? t), (includes ts s); simpl;
      auto using addUnique_idem.
Qed.

Lemma get_dirStep (fwd inv : JsMap.t (list string)) (slug s : string) :
  JsMap.get s (dirStep fwd inv slug) =
  option_map (fun l => if includes (targetsOf fwd slug) s
                       then addUnique l slug else l)
             (JsMap.get s inv).
Proof.
  unfold dirStep, targetsOf. destruct (JsMap.get slug fwd) as [ts |].
  - apply get_fold_pushList.
  - simpl. now destruct (JsMap.get s inv).
Qed.

Lemma get_symStep (m : JsMap.t (list string)) (slug s : string) :
  JsMap.get s (symStep m slug) =
  option_map (fun l => if includes (targetsOf m slug) s
                       then addUnique l slug else l)
             (JsMap.get s m).
Proof. rewrite <- dirStep_same. apply get_dirStep. Qed.

(** ** Directed relations: the inverse field is complete *)

Section Directed.
Variable fwd : JsMap.t (list string).

Lemma dirStep_grows (inv : JsMap.t (list string)) (slug s : string) :
  match JsMap.get s inv, JsMap.get s (dirStep fwd inv slug) with
  | Some l, Some l' => dedupAppended l l'
  | None, None => True
  | _, _ => False
  end.
Proof.
  rewrite get_dirStep. destruct (JsMap.get s inv) as [l |]; simpl; [| exact I].
  destruct (includes _ s);
    [apply dedupAppended_addUnique | apply dedupAppended_refl].
Qed.

Lemma dirPass_grows (ks : list string) (inv : JsMap.t (list string)) (s : string) :
  match JsMap.get s inv, JsMap.get s (fold_left (dirStep fwd) ks inv) with
  | Some l, Some l' => dedupAppended l l'
  | None, None => True
  | _, _ => False
  end.
Proof.
  revert inv. induction ks as [| a ks IH]; intros inv; simpl.
  - destruct (JsMap.get s inv); [apply dedupAppended_refl | exact I].
  - specialize (IH (dirStep fwd inv a)).
    pose proof (dirStep_grows inv a s) as H1.
    destruct (JsMap.get s inv), (JsMap.get s (dirStep fwd inv a)),
      (JsMap.get s (fold_left (dirStep fwd) ks (dirStep fwd inv a)));
      try contradiction; try exact I.
    eapply dedupAppended_trans; eassumption.
Qed.

Lemma dirPass_complete (ks : list string) (inv : JsMap.t (list string))
    (a b : string) (la lb' : list string) :
  In a ks ->
  JsMap.get a fwd = Some la -> In b la ->
  JsMap.get b (fold_left (dirStep fwd) ks inv) = Some lb' ->
  In a lb'.
Proof.
  intros Ha Hla Hb. revert inv. induction ks as [| a0 ks IH]; intros inv Hlb'.
  - destruct Ha.
  - simpl in Hlb'. destruct Ha as [-> | Ha]; [| eauto].
    pose proof (dirPass_grows ks (dirStep fwd inv a) b) as Hg.
    rewrite Hlb' in Hg. rewrite get_dirStep in Hg.
    destruct (JsMap.get b inv) as [lb |]; simpl in Hg; [| contradiction].
    apply (dedupAppended_incl Hg).
    unfold targetsOf. rewrite Hla.
    apply includes_In in Hb. rewrite Hb. apply addUnique_In. now right.
Qed.
End Directed.

(** ** Symmetric relations: membership is mutual *)

Lemma symStep_grows (m : JsMap.t (list string)) (slug s : string) :
  match JsMap.get s m, JsMap.get s (symStep m slug) with
  | Some l, Some l' => dedupAppended l l'
  | None, None => True
  | _, _ => False
  end.
Proof. rewrite <- dirStep_same. apply dirStep_grows. Qed.

Lemma symPass_grows (ks : list string) (m : JsMap.t (list string)) (s : string) :
  match JsMap.get s m, JsMap.get s (fold_left symStep ks m) with
  | Some l, Some l' => dedupAppended l l'
  | None, None => True
  | _, _ => False
  end.
Proof.
  revert m. induction ks as [| a ks IH]; intros m; simpl.
  - destruct (JsMap.get s m); [apply dedupAppended_refl | exact I].
  - specialize (IH (symStep m a)).
    pose proof (symStep_grows m a s) as H1.
    destruct (JsMap.get s m), (JsMap.get s (symStep m a)),
      (JsMap.get s (fold_left symStep ks (symStep m a)));
      try contradiction; try exact I.
    eapply dedupAppended_trans; eassumption.
Qed.

(** After the pages [ks] are visited, every one of them is in the array
    of each page its own array lists. *)
Lemma symPass_mutual (ks : list string) (m : JsMap.t (list string))
    (a b : string) (la lb : list string) :
  In a ks ->
  JsMap.get a (fold_left symStep ks m) = Some la ->
  JsMap.get b (fold_left symStep ks m) = Some lb ->
  In b la -> In a lb.
Proof.
  revert a b la lb. induction ks as [| x ks IH] using rev_ind;
    intros a b la lb Ha Hla Hlb Hb; [destruct Ha |].
  rewrite fold_left_app in Hla, Hlb. simpl in Hla, Hlb.
  set (m1 := fold_left symStep ks m) in *.
  rewrite get_symStep in Hla, Hlb.
  destruct (JsMap.get a m1) as [la1 |] eqn:Ea; simpl in Hla; [| discriminate].
  destruct (JsMap.get b m1) as [lb1 |] eqn:Eb; simpl in Hlb; [| discriminate].
  injection Hla as <-. injection Hlb as <-.
  assert (Hcase : In b la1 \/ (b = x /\ includes (targetsOf m1 x) a = true)).
  { destruct (includes (targetsOf m1 x) a); [| now left].
    apply addUnique_In in Hb. destruct Hb; auto. }
  assert (Hkeep : forall l, In a l ->
            In a (if includes (targetsOf m1 x) b then addUnique l x else l)).
  { intros l Hl. destruct (includes _ b); [| assumption].
    apply addUnique_In. now left. }
  apply in_app_or in Ha. destruct Ha as [Ha | [<- | []]].
  - destruct Hcase as [Hb1 | [-> Hinc]].
    + apply Hkeep. eapply (IH a b); eauto.
    + apply Hkeep. unfold targetsOf in Hinc. rewrite Eb in Hinc.
      now apply includes_In.
  - assert (Hb1 : In b la1).
    { destruct Hcase as [H | [_ Hinc]]; [assumption |].
      unfold targetsOf in Hinc. rewrite Ea in Hinc.
      apply includes_In in Hinc. destruct (includes (targetsOf m1 x) x) eqn:E.
      - apply addUnique_In in Hb. destruct Hb as [H | ->]; assumption.
      - assumption. }
    unfold targetsOf. rewrite Ea. apply includes_In in Hb1. rewrite Hb1.
    apply addUnique_In. now right.
Qed.

(** ** The sequential pointers *)

Lemma isSet_Some (o : option string) :
  isSet o <-> exists s, o = Some s /\ s <> "".
Proof.
  unfold isSet, truthy. destruct o as [s |].
  - rewrite negb_true_iff, String.eqb_neq. split.
    + intros H. now exists s.
    + now intros [s' [[= <-] H]].
  - split; [discriminate | now intros [s [H _]]].
Qed.

Lemma pointsTo_true (o : option string) (s : string) :
  pointsTo o s = true <-> o = Some s /\ s <> "".
Proof.
  unfold pointsTo. destruct o as [b |]; [| split; [discriminate | now intros [H _]]].
  rewrite andb_true_iff, negb_true_iff, String.eqb_neq, String.eqb_eq.
  split.
  - intros [H ->]. auto.
  - intros [[= ->] H]. auto.
Qed.

Lemma get_ptrNext (slug : string) (m : Pointers) (s : string) :
  JsMap.get s (ptrNext slug m) =
  match JsMap.get s m with
  | Some (n, p) =>
      Some (n, if pointsTo (nextOf m slug) s && negb (truthy p)
               then Some slug else p)
  | None => None
  end.
Proof.
  unfold ptrNext, nextOf.
  destruct (JsMap.get slug m) as [[[b |] q] |] eqn:Eslug; simpl;
    try (now destruct (JsMap.get s m) as [[n p] |]).
  destruct (negb (b =? "")) eqn:Eb; simpl;
    [| now destruct (JsMap.get s m) as [[n p] |]].
  destruct (s =? b) eqn:Esb.
  - apply String.eqb_eq in Esb. subst b.
    destruct (JsMap.get s m) as [[nn np] |] eqn:Es; [| now rewrite Es].
    destruct (negb (truthy np)); [| now rewrite Es].
    now rewrite get_set_eq.
  - destruct (JsMap.get b m) as [[nn np] |] eqn:Ebm.
    + destruct (negb (truthy np)).
      * rewrite get_set, Esb. now destruct (JsMap.get s m) as [[n p] |].
      * now destruct (JsMap.get s m) as [[n p] |].
    + now destruct (JsMap.get s m) as [[n p] |].
Qed.

Lemma get_ptrPrev (slug : string) (m : Pointers) (s : string) :
  JsMap.get s (ptrPrev slug m) =
  match JsMap.get s m with
  | Some (n, p) =>
      Some (if pointsTo (prevOf m slug) s && negb (truthy n)
            then Some slug else n, p)
  | None => None
  end.
Proof.
  unfold ptrPrev, prevOf.
  destruct (JsMap.get slug m) as [[q [b |]] |] eqn:Eslug; simpl;
    try (now destruct (JsMap.get s m) as [[n p] |]).
  destruct (negb (b =? "")) eqn:Eb; simpl;
    [| now destruct (JsMap.get s m) as [[n p] |]].
  destruct (s =? b) eqn:Esb.
  - apply String.eqb_eq in Esb. subst b.
    destruct (JsMap.get s m) as [[nn np] |] eqn:Es; [| now rewrite Es].
    destruct (negb (truthy nn)); [| now rewrite Es].
    now rewrite get_set_eq.
  - destruct (JsMap.get b m) as [[nn np] |] eqn:Ebm.
    + destruct (negb (truthy nn)).
      * rewrite get_set, Esb. now destruct (JsMap.get s m) as [[n p] |].
      * now destruct (JsMap.get s m) as [[n p] |].
    + now destruct (JsMap.get s m) as [[n p] |].
Qed.

(** One page of the pass, on the pointers of a page [s]. *)
Lemma get_ptrStep (m : Pointers) (slug s : string) :
  JsMap.get s (ptrStep m slug) =
  match JsMap.get s m with
  | Some (n, p) =>
      let p' := if pointsTo (nextOf m slug) s && negb (truthy p)
                then Some slug else p in
      Some (if pointsTo (prevOf (ptrNext slug m) slug) s && negb (truthy n)
            then Some slug else n, p')
  | None => None
  end.
Proof.
  unfold ptrStep. rewrite get_ptrPrev, get_ptrNext.
  now destruct (JsMap.get s m) as [[n p] |].
Qed.

Lemma ptrStep_defined (m : Pointers) (slug s : string) :
  JsMap.get s (ptrStep m slug) = None <-> JsMap.get s m = None.
Proof.
  rewrite get_ptrStep. destruct (JsMap.get s m) as [[n p] |]; simpl;
    split; congruence.
Qed.

(** A pointer that is set is never assigned. *)
Lemma ptrStep_next_kept (m : Pointers) (slug s : string) :
  isSet (nextOf m s) -> nextOf (ptrStep m slug) s = nextOf m s.
Proof.
  unfold nextOf, isSet. rewrite get_ptrStep.
  destruct (JsMap.get s m) as [[n p] |]; simpl; [| reflexivity].
  intros ->. now rewrite andb_false_r.
Qed.

Lemma ptrStep_prev_kept (m : Pointers) (slug s : string) :
  isSet (prevOf m s) -> prevOf (ptrStep m slug) s = prevOf m s.
Proof.
  unfold prevOf, isSet. rewrite get_ptrStep.
  destruct (JsMap.get s m) as [[n p] |]; simpl; [| reflexivity].
  intros ->. now rewrite andb_false_r.
Qed.

(** A pointer that changes is assigned the page visited, which points
    to the page the other way. *)
Lemma ptrStep_prev_change (m : Pointers) (slug s : string) :
  prevOf (ptrStep m slug) s = prevOf m s \/
  (prevOf (ptrStep m slug) s = Some slug /\
   nextOf m slug = Some s /\ s <> "" /\ ~ isSet (prevOf m s)).
Proof.
  unfold prevOf at 1 2 3. rewrite get_ptrStep.
  destruct (JsMap.get s m) as [[n p] |] eqn:E; simpl; [| now left].
  destruct (pointsTo (nextOf m slug) s) eqn:Ep; simpl; [| now left].
  destruct (truthy p) eqn:Et; simpl; [now left |]. right.
  apply pointsTo_true in Ep. destruct Ep as [Ep Hs].
  repeat split; try assumption.
  unfold isSet, prevOf. rewrite E. congruence.
Qed.

Lemma ptrStep_next_change (m : Pointers) (slug s : string) :
  nextOf (ptrStep m slug) s = nextOf m s \/
  (nextOf (ptrStep m slug) s = Some slug /\
   prevOf (ptrStep m slug) slug = Some s /\ s <> "" /\ ~ isSet (nextOf m s)).
Proof.
  unfold nextOf at 1 2 3. rewrite get_ptrStep.
  destruct (JsMap.get s m) as [[n p] |] eqn:E; simpl; [| now left].
  destruct (pointsTo (prevOf (ptrNext slug m) slug) s) eqn:Ep; simpl; [| now left].
  destruct (truthy n) eqn:Et; simpl; [now left |]. right.
  apply pointsTo_true in Ep. destruct Ep as [Ep Hs].
  repeat split; try assumption.
  - unfold ptrStep, prevOf. rewrite get_ptrPrev.
    unfold prevOf in Ep.
    destruct (JsMap.get slug (ptrNext slug m)) as [[n' p'] |]; [assumption | discriminate].
  - unfold isSet, nextOf. rewrite E. congruence.
Qed.

(** The page a [next] names has its [prev] set once the page is visited:
    kept when it was set, assigned the visited page otherwise. *)
Lemma ptrStep_progress (m : Pointers) (slug b : string) :
  nextOf m slug = Some b -> b <> "" -> JsMap.get b m <> None ->
  (isSet (prevOf m b) /\ prevOf (ptrStep m slug) b = prevOf m b) \/
  (~ isSet (prevOf m b) /\ prevOf (ptrStep m slug) b = Some slug).
Proof.
  intros Hn Hb Hdef. unfold prevOf, isSet. rewrite get_ptrStep.
  destruct (JsMap.get b m) as [[n p] |]; [| congruence]. simpl.
  assert (Hp : pointsTo (nextOf m slug) b = true) by (apply pointsTo_true; auto).
  rewrite Hp. simpl. destruct (truthy p); simpl; [left | right]; split; congruence.
Qed.

Lemma before_app (l l' : list string) (c a : string) :
  before l c a -> before (l ++ l') c a.
Proof.
  intros [l1 [l2 [l3 ->]]]. exists l1, l2, (l3 ++ l').
  now rewrite <- !app_assoc, <- !app_comm_cons, <- app_assoc.
Qed.

Lemma before_last (l : list string) (c a : string) :
  In c l -> before (l ++ [a]) c a.
Proof.
  intros H. apply in_split in H. destruct H as [l1 [l2 ->]].
  exists l1, l2, []. now rewrite <- app_assoc.
Qed.

Lemma PtrInv_init (m0 : Pointers) : PtrInv m0 [] m0.
Proof. split; [auto | intros a b []]. Qed.

Lemma PtrInv_step (m0 : Pointers) (done : list string) (m : Pointers) (x : string) :
  x <> "" -> PtrInv m0 done m -> PtrInv m0 (done ++ [x]) (ptrStep m x).
Proof.
  intros Hx [PJ DN]. split.
  - intros s p Hp Hne.
    destruct (ptrStep_prev_change m x s) as [E | [E [Hn [Hs _]]]].
    + rewrite E in Hp. destruct (PJ s p Hp Hne) as [H | [Hin [Hn Hs]]]; [now left |].
      right. repeat split; [apply in_or_app; now left | | assumption].
      rewrite ptrStep_next_kept; [assumption |].
      apply isSet_Some. eauto.
    + rewrite E in Hp. injection Hp as <-. right.
      repeat split; [apply in_or_app; right; now left | | assumption].
      rewrite ptrStep_next_kept; [assumption |].
      apply isSet_Some. eauto.
  - intros a b Ha Hn Hb Hdef.
    assert (Hdef0 : JsMap.get b m <> None) by (now rewrite <- (ptrStep_defined m x)).
    destruct (ptrStep_next_change m x a) as [E | [E [Hp [Hane _]]]].
    + rewrite E in Hn. apply in_app_or in Ha. destruct Ha as [Ha | [<- | []]].
      * destruct (DN a b Ha Hn Hb Hdef0) as [p [Hp [Hpne Hcase]]].
        exists p. split; [| split; [assumption |]].
        { rewrite ptrStep_prev_kept; [assumption |]. apply isSet_Some. eauto. }
        destruct Hcase as [H | [H | [Hbef Hnp]]]; [now left | now right; left |].
        right; right. split; [now apply before_app |].
        rewrite ptrStep_next_kept; [assumption |]. apply isSet_Some. eauto.
      * destruct (ptrStep_progress m x Hn Hb Hdef0) as [[Hset E'] | [_ E']].
        { apply isSet_Some in Hset. destruct Hset as [p [Hp Hpne]].
          exists p. rewrite E'. split; [assumption | split; [assumption |]].
          destruct (PJ b p Hp Hpne) as [H | [Hin [Hnp _]]]; [now right; left |].
          right; right. split; [now apply before_last |].
          rewrite ptrStep_next_kept; [assumption |]. apply isSet_Some. eauto. }
        { exists x. auto. }
    + rewrite E in Hn. injection Hn as <-. exists a. auto.
Qed.

Lemma PtrInv_pass (m0 : Pointers) (ks : list string) :
  ~ In "" ks -> PtrInv m0 ks (fold_left ptrStep ks m0).
Proof.
  induction ks as [| x ks IH] using rev_ind; intros Hne.
  - apply PtrInv_init.
  - rewrite fold_left_app. simpl. apply PtrInv_step.
    + intros ->. apply Hne. apply in_or_app. right. now left.
    + apply IH. intros H. apply Hne. apply in_or_app. now left.
Qed.

Lemma ptrPass_defined (ks : list string) (m : Pointers) (s : string) :
  JsMap.get s (fold_left ptrStep ks m) = None <-> JsMap.get s m = None.
Proof.
  revert m. induction ks as [| x ks IH]; intros m; simpl; [tauto |].
  now rewrite IH, ptrStep_defined.
Qed.

Lemma ptrPass_next_kept (ks : list string) (m : Pointers) (s : string) :
  isSet (nextOf m s) -> nextOf (fold_left ptrStep ks m) s = nextOf m s.
Proof.
  revert m. induction ks as [| x ks IH]; intros m H; simpl; [reflexivity |].
  rewrite IH; rewrite ptrStep_next_kept; auto.
Qed.

Lemma ptrPass_prev_kept (ks : list string) (m : Pointers) (s : string) :
  isSet (prevOf m s) -> prevOf (fold_left ptrStep ks m) s = prevOf m s.
Proof.
  revert m. induction ks as [| x ks IH]; intros m H; simpl; [reflexivity |].
  rewrite IH; rewrite ptrStep_prev_kept; auto.
Qed.

(** ** The first pass *)

Section FirstPass.
Variable knownSlugs : JsSet.t.

Let run (ps : list Page) : RelationsGraph * PageInfoMap :=
  fold_left (firstPassStep knownSlugs) ps (JsMap.empty, JsMap.empty).

Lemma run_snoc (ps : list Page) (page : Page) :
  run (ps ++ [page]) =
  (JsMap.set (id page) (declaredRelations knownSlugs page) (fst (run ps)),
   JsMap.set (id page) (mkInfo (id page) (data_title page)) (snd (run ps))).
Proof.
  unfold run. rewrite fold_left_app. simpl.
  now destruct (fold_left (firstPassStep knownSlugs) ps (JsMap.empty, JsMap.empty)).
Qed.

(** The relations object of a slug is that of a page of the store. *)
Lemma run_graph_get (ps : list Page) (s : string) (rel : PageRelations) :
  JsMap.get s (fst (run ps)) = Some rel ->
  exists page, In page ps /\ id page = s /\
               rel = declaredRelations knownSlugs page.
Proof.
  induction ps as [| page ps IH] using rev_ind; [discriminate |].
  rewrite run_snoc. simpl. rewrite get_set.
  destruct (s =? id page) eqn:E.
  - apply String.eqb_eq in E. intros [= <-]. exists page.
    split; [apply in_or_app; right; now left | auto].
  - intros H. destruct (IH H) as [q [Hq Hrest]]. exists q.
    split; [apply in_or_app; now left | assumption].
Qed.

Lemma run_graph_defined (ps : list Page) (page : Page) :
  In page ps -> JsMap.get (id page) (fst (run ps)) <> None.
Proof.
  induction ps as [| q ps IH] using rev_ind; [intros [] |].
  rewrite run_snoc. simpl. rewrite get_set. intros H.
  destruct (id page =? id q) eqn:E; [discriminate |].
  apply in_app_or in H. destruct H as [H | [-> | []]]; [auto |].
  now rewrite String.eqb_refl in E.
Qed.

(** The page-info map has the keys of the graph, each with its slug. *)
Lemma run_pages_get (ps : list Page) (s : string) :
  match JsMap.get s (fst (run ps)), JsMap.get s (snd (run ps)) with
  | Some _, Some info => slug info = s
  | None, None => True
  | _, _ => False
  end.
Proof.
  induction ps as [| page ps IH] using rev_ind; [exact I |].
  rewrite run_snoc. simpl. rewrite !get_set.
  destruct (s =? id page) eqn:E; [| exact IH].
  apply String.eqb_eq in E. now subst.
Qed.

Lemma run_keys_NoDup (ps : list Page) : NoDup (JsMap.keys (fst (run ps))).
Proof.
  induction ps as [| page ps IH] using rev_ind; [constructor |].
  rewrite run_snoc. simpl. now apply keys_set_NoDup.
Qed.

Lemma run_keys_pages (ps : list Page) (s : string) :
  In s (JsMap.keys (fst (run ps))) <-> In s (map id ps).
Proof.
  rewrite <- get_in_keys. split.
  - destruct (JsMap.get s (fst (run ps))) as [rel |] eqn:E; [| congruence].
    intros _. destruct (run_graph_get _ _ E) as [page [Hin [<- _]]].
    now apply in_map.
  - intros H. apply in_map_iff in H. destruct H as [page [<- Hin]].
    now apply run_graph_defined.
Qed.
End FirstPass.

Lemma firstPass_graph_get (allPages : list Page) (s : string) (rel : PageRelations) :
  JsMap.get s (fst (firstPass allPages)) = Some rel ->
  exists page, In page allPages /\ id page = s /\
    rel = declaredRelations (JsSet.of_list (map id allPages)) page.
Proof. apply run_graph_get. Qed.

Lemma firstPass_keys (allPages : list Page) (s : string) :
  In s (JsMap.keys (fst (firstPass allPages))) <-> In s (map id allPages).
Proof. apply run_keys_pages. Qed.

Lemma firstPass_keys_NoDup (allPages : list Page) :
  NoDup (JsMap.keys (fst (firstPass allPages))).
Proof. apply run_keys_NoDup. Qed.

Lemma firstPass_pages_get (allPages : list Page) (s : string) :
  match JsMap.get s (fst (firstPass allPages)),
        JsMap.get s (snd (firstPass allPages)) with
  | Some _, Some info => slug info = s
  | None, None => True
  | _, _ => False
  end.
Proof. apply run_pages_get. Qed.

Lemma buildRelationsGraph_eq (allPages : list Page) :
  buildRelationsGraph allPages =
  (secondPass (fst (firstPass allPages)), snd (firstPass allPages)).
Proof. unfold buildRelationsGraph. now destruct (firstPass allPages). Qed.

Lemma declaredRelations_prev (known : JsSet.t) (page : Page) :
  Rel.prev (declaredRelations known page) = data_prev page.
Proof.
  unfold declaredRelations.
  destruct (data_ntpp page), (data_tpp page), (data_po page), (data_ec page),
    (data_eq page), (data_dc page); reflexivity.
Qed.

Lemma declaredRelations_next (known : JsSet.t) (page : Page) :
  Rel.next (declaredRelations known page) = data_next page.
Proof.
  unfold declaredRelations.
  destruct (data_ntpp page), (data_tpp page), (data_po page), (data_ec page),
    (data_eq page), (data_dc page); reflexivity.
Qed.

(** A page is in the graph after the second pass exactly when it was
    before, and the pass reaches every one of them. *)
Lemma secondPass_defined (g : RelationsGraph) (s : string) :
  JsMap.get s (secondPass g) = None <-> JsMap.get s g = None.
Proof.
  split; intros H.
  - destruct (JsMap.get s g) eqn:E; [| reflexivity].
    apply get_Some_in_keys in E. rewrite <- keys_secondPass in E.
    apply get_in_keys in E. contradiction.
  - destruct (JsMap.get s (secondPass g)) eqn:E; [| reflexivity].
    apply get_Some_in_keys in E. rewrite keys_secondPass in E.
    apply get_in_keys in E. contradiction.
Qed.

(** ** The relations graph *)

Lemma secondPass_symmetric (g : RelationsGraph) (k : RelKind)
    (A B : string) (relA relB : PageRelations) :
  symmetricKind k ->
  JsMap.get A (secondPass g) = Some relA ->
  JsMap.get B (secondPass g) = Some relB ->
  In B (field k relA) -> In A (field k relB).
Proof.
  intros Hk HA HB.
  assert (HinA : In A (JsMap.keys g)).
  { rewrite <- keys_secondPass. eapply get_Some_in_keys; eauto. }
  apply (get_field k) in HA. apply (get_field k) in HB.
  unfold secondPass in HA, HB. rewrite proj_pass_symmetric in HA, HB by assumption.
  intros Hin. eapply symPass_mutual; eauto.
Qed.

(** C1. After [buildRelationsGraph], for all pages A and B of the graph
    and every symmetric kind (po, ec, eq, dc), B is in the array of A
    exactly when A is in the array of B, whatever page declared the
    relation and whatever the order of the pages. *)
Theorem symmetry_after_build (allPages : list Page) (k : RelKind)
    (A B : string) (relA relB : PageRelations) :
  symmetricKind k ->
  JsMap.get A (fst (buildRelationsGraph allPages)) = Some relA ->
  JsMap.get B (fst (buildRelationsGraph allPages)) = Some relB ->
  (In B (field k relA) <-> In A (field k relB)).
Proof.
  rewrite buildRelationsGraph_eq. simpl. intros Hk HA HB.
  split; eapply secondPass_symmetric; eauto.
Qed.

Lemma symmetry_after_build_witness :
  let allPages := [pageDeclaring "a" EQ ["b"]; pageDeclaring "b" EQ []] in
  let relA := Rel.mk [] [] [] [] [] [] ["b"] [] None None [] [] in
  let relB := Rel.mk [] [] [] [] [] [] ["a"] [] None None [] [] in
  symmetricKind EQ /\
  JsMap.get "a" (fst (buildRelationsGraph allPages)) = Some relA /\
  JsMap.get "b" (fst (buildRelationsGraph allPages)) = Some relB /\
  (In "b" (field EQ relA) <-> In "a" (field EQ relB)).
Proof.
  intros allPages relA relB.
  assert (Hk : symmetricKind EQ) by (right; right; left; reflexivity).
  assert (HA : JsMap.get "a" (fst (buildRelationsGraph allPages)) = Some relA)
    by reflexivity.
  assert (HB : JsMap.get "b" (fst (buildRelationsGraph allPages)) = Some relB)
    by reflexivity.
  repeat split; try assumption;
    apply (@symmetry_after_build allPages EQ "a" "b" relA relB Hk HA HB).
Defined.

Lemma secondPass_inverse (g : RelationsGraph) (src dst : RelKind)
    (A B : string) (relA relB : PageRelations) :
  (src, dst) = (NTPP, NTTPI) \/ (src, dst) = (TPP, TPPI) \/ (src, dst) = (R, RI) ->
  JsMap.get A (secondPass g) = Some relA ->
  JsMap.get B (secondPass g) = Some relB ->
  In B (field src relA) -> In A (field dst relB).
Proof.
  intros Hk HA HB.
  assert (HinA : In A (JsMap.keys g)).
  { rewrite <- keys_secondPass. eapply get_Some_in_keys; eauto. }
  assert (Hsrc : src = NTPP \/ src = TPP \/ src = R)
    by (destruct Hk as [H | [H | H]]; inversion H; auto).
  apply (get_field src) in HA. apply (get_field dst) in HB.
  unfold secondPass in HA, HB.
  rewrite proj_pass_forward in HA by assumption.
  rewrite (proj_pass_inverse _ _ Hk) in HB.
  intros Hin. eapply dirPass_complete; eauto.
Qed.

(** C2. After [buildRelationsGraph], for all pages A and B of the graph:
    B in [graph[A].ntpp] gives A in [graph[B].nttpi]; B in [graph[A].tpp]
    gives A in [graph[B].tppi]; B in [graph[A].r] gives A in
    [graph[B].ri]. *)
Theorem inverse_completeness (allPages : list Page)
    (A B : string) (relA relB : PageRelations) :
  JsMap.get A (fst (buildRelationsGraph allPages)) = Some relA ->
  JsMap.get B (fst (buildRelationsGraph allPages)) = Some relB ->
  (In B (Rel.ntpp relA) -> In A (Rel.nttpi relB)) /\
  (In B (Rel.tpp relA) -> In A (Rel.tppi relB)) /\
  (In B (Rel.r relA) -> In A (Rel.ri relB)).
Proof.
  rewrite buildRelationsGraph_eq. simpl. intros HA HB.
  repeat split.
  - eapply secondPass_inverse with (src := NTPP) (dst := NTTPI); eauto.
  - eapply secondPass_inverse with (src := TPP) (dst := TPPI); eauto.
  - eapply secondPass_inverse with (src := R) (dst := RI); eauto.
Qed.

Lemma inverse_completeness_witness :
  let allPages := [pageDeclaring "leaf" NTPP ["root"];
                   mkPage "root" "Root" (Some "see [leaf](/leaf)")
                          None None None None None None None None] in
  let relA := Rel.mk ["root"] [] [] [] [] [] [] [] None None [] ["root"] in
  let relB := Rel.mk [] ["leaf"] [] [] [] [] [] [] None None ["leaf"] [] in
  JsMap.get "leaf" (fst (buildRelationsGraph allPages)) = Some relA /\
  JsMap.get "root" (fst (buildRelationsGraph allPages)) = Some relB /\
  (In "root" (Rel.ntpp relA) -> In "leaf" (Rel.nttpi relB)) /\
  (In "root" (Rel.tpp relA) -> In "leaf" (Rel.tppi relB)) /\
  (In "root" (Rel.r relA) -> In "leaf" (Rel.ri relB)).
Proof.
  intros allPages relA relB.
  assert (HA : JsMap.get "leaf" (fst (buildRelationsGraph allPages)) = Some relA)
    by reflexivity.
  assert (HB : JsMap.get "root" (fst (buildRelationsGraph allPages)) = Some relB)
    by reflexivity.
  split; [exact HA | split; [exact HB |]].
  exact (@inverse_completeness allPages "leaf" "root" relA relB HA HB).
Defined.

Lemma nextOf_pointers (g : RelationsGraph) (s : string) (rel : PageRelations) :
  JsMap.get s g = Some rel -> nextOf (mapVals pointers g) s = Rel.next rel.
Proof. intros H. unfold nextOf. now rewrite get_mapVals_pointers, H. Qed.

Lemma prevOf_pointers (g : RelationsGraph) (s : string) (rel : PageRelations) :
  JsMap.get s g = Some rel -> prevOf (mapVals pointers g) s = Rel.prev rel.
Proof. intros H. unfold prevOf. now rewrite get_mapVals_pointers, H. Qed.

Lemma nextOf_Some_get (g : RelationsGraph) (s b : string) :
  nextOf (mapVals pointers g) s = Some b ->
  exists rel, JsMap.get s g = Some rel /\ Rel.next rel = Some b.
Proof.
  unfold nextOf. rewrite get_mapVals_pointers.
  destruct (JsMap.get s g) as [rel |]; [| discriminate]. eauto.
Qed.

Lemma prevOf_Some_get (g : RelationsGraph) (s b : string) :
  prevOf (mapVals pointers g) s = Some b ->
  exists rel, JsMap.get s g = Some rel /\ Rel.prev rel = Some b.
Proof.
  unfold prevOf. rewrite get_mapVals_pointers.
  destruct (JsMap.get s g) as [rel |]; [| discriminate]. eauto.
Qed.

(** The second pass on any graph without the empty slug: the page a
    [next] names has a [prev], by first come. *)
Lemma secondPass_sequential (g : RelationsGraph)
    (A B : string) (relA relB : PageRelations) :
  ~ In "" (JsMap.keys g) ->
  JsMap.get A (secondPass g) = Some relA ->
  JsMap.get B (secondPass g) = Some relB ->
  Rel.next relA = Some B ->
  exists P, Rel.prev relB = Some P /\ P <> "" /\
    (P = A \/
     (exists rel0, JsMap.get B g = Some rel0 /\ Rel.prev rel0 = Some P) \/
     (exists relP, JsMap.get P (secondPass g) = Some relP /\
                   Rel.next relP = Some B /\
                   before (JsMap.keys (secondPass g)) P A)).
Proof.
  intros Hne HA HB Hnext.
  assert (HinA : In A (JsMap.keys g)).
  { rewrite <- keys_secondPass. eapply get_Some_in_keys; eauto. }
  assert (HinB : In B (JsMap.keys g)).
  { rewrite <- keys_secondPass. eapply get_Some_in_keys; eauto. }
  assert (HBne : B <> "") by (intros ->; contradiction).
  pose proof (PtrInv_pass (mapVals pointers g) (JsMap.keys g) Hne) as [_ DN].
  rewrite <- ptr_pass in DN. fold (secondPass g) in DN.
  destruct (DN A B HinA) as [P [HP [HPne Hcase]]].
  - rewrite (nextOf_pointers _ _ HA). assumption.
  - assumption.
  - rewrite get_mapVals, HB. discriminate.
  - rewrite (prevOf_pointers _ _ HB) in HP.
    exists P. split; [assumption | split; [assumption |]].
    destruct Hcase as [H | [H | [Hbef Hn]]]; [now left | right; left | right; right].
    + now apply prevOf_Some_get.
    + apply nextOf_Some_get in Hn. destruct Hn as [relP [H1 H2]].
      exists relP. rewrite keys_secondPass. auto.
Qed.

Lemma secondPass_field_grows (g : RelationsGraph) (k : RelKind)
    (s : string) (rel rel' : PageRelations) :
  JsMap.get s g = Some rel ->
  JsMap.get s (secondPass g) = Some rel' ->
  dedupAppended (field k rel) (field k rel').
Proof.
  intros H H'. apply (get_field k) in H. apply (get_field k) in H'.
  unfold secondPass in H'.
  assert (Hk : (k = NTPP \/ k = TPP \/ k = R) \/
               (exists src, (src, k) = (NTPP, NTTPI) \/ (src, k) = (TPP, TPPI) \/
                            (src, k) = (R, RI)) \/
               symmetricKind k).
  { unfold symmetricKind. destruct k; auto 10;
      right; left; eexists; intuition eauto. }
  destruct Hk as [Hk | [[src Hk] | Hk]].
  - rewrite proj_pass_forward in H' by assumption.
    rewrite H in H'. injection H' as <-. apply dedupAppended_refl.
  - rewrite (proj_pass_inverse _ _ Hk) in H'.
    pose proof (dirPass_grows (mapVals (field src) g) (JsMap.keys g)
                  (mapVals (field k) g) s) as Hg.
    now rewrite H, H' in Hg.
  - rewrite proj_pass_symmetric in H' by assumption.
    pose proof (symPass_grows (JsMap.keys g) (mapVals (field k) g) s) as Hg.
    now rewrite H, H' in Hg.
Qed.

Lemma secondPass_forward_kept (g : RelationsGraph) (k : RelKind)
    (s : string) (rel rel' : PageRelations) :
  k = NTPP \/ k = TPP \/ k = R ->
  JsMap.get s g = Some rel ->
  JsMap.get s (secondPass g) = Some rel' ->
  field k rel' = field k rel.
Proof.
  intros Hk H H'. apply (get_field k) in H. apply (get_field k) in H'.
  unfold secondPass in H'. rewrite proj_pass_forward in H' by assumption.
  congruence.
Qed.

(** C10. The second pass is additive.  For every page of the graph it
    leaves [ntpp], [tpp] and [r] as the first pass left them, changes
    the other arrays by calls of [addUnique] only, and leaves a [next]
    or [prev] that is set as it is; it adds and removes no page. *)
Theorem secondPass_additive (graph : RelationsGraph) (s : string)
    (rel : PageRelations) :
  JsMap.get s graph = Some rel ->
  JsMap.keys (secondPass graph) = JsMap.keys graph /\
  exists rel',
    JsMap.get s (secondPass graph) = Some rel' /\
    Rel.ntpp rel' = Rel.ntpp rel /\
    Rel.tpp rel' = Rel.tpp rel /\
    Rel.r rel' = Rel.r rel /\
    (forall k, dedupAppended (field k rel) (field k rel')) /\
    (isSet (Rel.next rel) -> Rel.next rel' = Rel.next rel) /\
    (isSet (Rel.prev rel) -> Rel.prev rel' = Rel.prev rel).
Proof.
  intros H. split; [apply keys_secondPass |].
  destruct (JsMap.get s (secondPass graph)) as [rel' |] eqn:H'.
  2:{ apply (proj1 (secondPass_defined graph s)) in H'. congruence. }
  exists rel'. split; [reflexivity |].
  split; [apply (secondPass_forward_kept (k := NTPP) graph s); auto |].
  split; [apply (secondPass_forward_kept (k := TPP) graph s); auto |].
  split; [apply (secondPass_forward_kept (k := R) graph s); auto |].
  split; [intros k; eapply secondPass_field_grows; eauto |].
  pose proof (nextOf_pointers _ _ H) as Hn.
  pose proof (prevOf_pointers _ _ H) as Hp.
  pose proof (nextOf_pointers _ _ H') as Hn'.
  pose proof (prevOf_pointers _ _ H') as Hp'.
  unfold secondPass in Hn', Hp'. rewrite ptr_pass in Hn', Hp'.
  split; intros Hset.
  - rewrite <- Hn', <- Hn. apply ptrPass_next_kept. now rewrite Hn.
  - rewrite <- Hp', <- Hp. apply ptrPass_prev_kept. now rewrite Hp.
Qed.

Lemma secondPass_additive_witness :
  let graph := fst (firstPass [pageWith "a" (Some "b") None;
                               pageDeclaring "b" PO ["a"]]) in
  let rel := Rel.mk [] [] [] [] [] [] [] [] (Some "b") None [] [] in
  JsMap.get "a" graph = Some rel /\
  JsMap.keys (secondPass graph) = JsMap.keys graph /\
  exists rel',
    JsMap.get "a" (secondPass graph) = Some rel' /\
    Rel.ntpp rel' = Rel.ntpp rel /\
    Rel.tpp rel' = Rel.tpp rel /\
    Rel.r rel' = Rel.r rel /\
    (forall k, dedupAppended (field k rel) (field k rel')) /\
    (isSet (Rel.next rel) -> Rel.next rel' = Rel.next rel) /\
    (isSet (Rel.prev rel) -> Rel.prev rel' = Rel.prev rel).
Proof.
  intros graph rel.
  assert (H : JsMap.get "a" graph = Some rel) by reflexivity.
  split; [exact H |].
  exact (@secondPass_additive graph "a" rel H).
Defined.

(** ** The link extractor *)

Lemma take_until_length (c : ascii) (s pre post : string) :
  take_until c s = Some (pre, post) ->
  String.length s = String.length pre + S (String.length post).
Proof.
  revert pre post. induction s as [| a s IH]; intros pre post; simpl; [discriminate |].
  destruct (Ascii.eqb a c).
  - intros [= <- <-]. reflexivity.
  - destruct (take_until c s) as [[pre' post'] |]; [| discriminate].
    intros [= <- <-]. simpl. now rewrite (IH pre' post' eq_refl).
Qed.

Lemma match_here_length (s href : string) (len : nat) :
  match_here s = Some (href, len) -> 4 < len /\ len <= String.length s.
Proof.
  unfold match_here. destruct s as [| c s1]; [discriminate |].
  destruct (Ascii.eqb c "[") eqn:Ec.
  2:{ destruct c as [[] [] [] [] [] [] [] []]; try discriminate. }
  apply Ascii.eqb_eq in Ec. subst c.
  destruct (take_until "]" s1) as [[label r1] |] eqn:E1; [| discriminate].
  destruct r1 as [| c2 s2]; [discriminate |].
  destruct (Ascii.eqb c2 "(") eqn:Ec2.
  2:{ destruct c2 as [[] [] [] [] [] [] [] []]; try discriminate. }
  apply Ascii.eqb_eq in Ec2. subst c2.
  destruct (take_until ")" s2) as [[h rest] |] eqn:E2; [| discriminate].
  destruct (label =? "") eqn:El; [discriminate |].
  destruct (h =? "") eqn:Eh; [discriminate |]. simpl.
  intros [= <- <-].
  apply take_until_length in E1, E2. simpl in *.
  destruct label; [discriminate |]. destruct h; [discriminate |].
  simpl in *. lia.
Qed.

Lemma search_bounds (s href : string) (pos j : nat) :
  search pos s = Some (href, j) -> pos < j /\ j <= pos + String.length s.
Proof.
  revert pos. induction s as [| c s IH]; intros pos.
  - simpl. discriminate.
  - cbn [search]. destruct (match_here (String c s)) as [[h len] |] eqn:E.
    + intros [= <- <-]. apply match_here_length in E. lia.
    + intros H. apply IH in H. simpl. lia.
Qed.

Lemma drop_length (n : nat) (s : string) :
  String.length (drop n s) = String.length s - n.
Proof.
  revert s. induction n as [| n IH]; intros s; simpl.
  - lia.
  - destruct s; simpl; [reflexivity | apply IH].
Qed.

Lemma regex_exec_bounds (body href : string) (i j : nat) :
  regex_exec body i = Some (href, j) -> i < j /\ j <= String.length body.
Proof.
  unfold regex_exec. destruct (Nat.ltb (String.length body) i) eqn:E; [discriminate |].
  apply Nat.ltb_ge in E. intros H. apply search_bounds in H.
  rewrite drop_length in H. lia.
Qed.

(** The loop ends: [lastIndex] grows with every match. *)
Lemma targetsFrom_terminates (body : string) (fuel i : nat) :
  String.length body - i < fuel ->
  exists hrefs, targetsFrom fuel body i = Some hrefs.
Proof.
  revert i. induction fuel as [| fuel IH]; intros i Hlt; [lia |].
  simpl. destruct (regex_exec body i) as [[href j] |] eqn:E.
  - apply regex_exec_bounds in E.
    destruct (IH j) as [hrefs ->]; [lia |]. now exists (href :: hrefs).
  - now exists [].
Qed.

(** The loop is a fold of its body over the targets. *)
Lemma execLoop_fold (A : Type) (step : A -> string -> A)
    (fuel : nat) (body : string) (i : nat) (acc : A) :
  execLoop step fuel body i acc =
  option_map (fun hrefs => fold_left step hrefs acc) (targetsFrom fuel body i).
Proof.
  revert i acc. induction fuel as [| fuel IH]; intros i acc; simpl; [reflexivity |].
  destruct (regex_exec body i) as [[href j] |]; [| reflexivity].
  rewrite IH. now destruct (targetsFrom fuel body j).
Qed.

Lemma execLoop_terminates (A : Type) (step : A -> string -> A)
    (body : string) (acc : A) :
  execLoop step (S (String.length body)) body 0 acc =
  Some (fold_left step (linkTargets body) acc).
Proof.
  rewrite execLoop_fold. unfold linkTargets.
  destruct (@targetsFrom_terminates body (S (String.length body)) 0) as [hrefs ->];
    [lia | reflexivity].
Qed.

Lemma extractLinkSlugs_fold (body sourceSlug : string) (knownSlugs : JsSet.t) :
  extractLinkSlugs body sourceSlug knownSlugs =
  fold_left (extractStep sourceSlug knownSlugs) (linkTargets body) [].
Proof. unfold extractLinkSlugs. now rewrite execLoop_terminates. Qed.

Section ExtractFold.
Variable sourceSlug : string.
Variable knownSlugs : JsSet.t.



(** Where a returned slug comes from. *)
Lemma extract_fold_origin (hrefs : list string) (slugs : list string) (s : string) :
  In s (fold_left (extractStep sourceSlug knownSlugs) hrefs slugs) ->
  In s slugs \/
  exists href, In href hrefs /\ skipped href = false /\
               s = pathToSlug (normalizePath href) /\
               JsSet.has knownSlugs s = true /\ s <> sourceSlug.
Proof.
  revert slugs. induction hrefs as [| h hs IH]; intros slugs; simpl; [now left |].
  intros H. apply IH in H. destruct H as [H | [href [Hin Hrest]]].
  - unfold extractStep in H. destruct (skipped h) eqn:Es; [now left |].
    destruct (JsSet.has knownSlugs (pathToSlug (normalizePath h))) eqn:Ek;
      simpl in H; [| now left].
    destruct (pathToSlug (normalizePath h) =? sourceSlug) eqn:Eself;
      simpl in H; [now left |].
    destruct (includes slugs (pathToSlug (normalizePath h))); simpl in H; [now left |].
    apply in_app_or in H. destruct H as [H | [<- | []]]; [now left |].
    right. exists h. apply String.eqb_neq in Eself. auto 6.
  - right. exists href. split; [now right | assumption].
Qed.

(** The slugs returned are distinct. *)
Lemma extract_fold_NoDup (hrefs : list string) (slugs : list string) :
  NoDup slugs -> NoDup (fold_left (extractStep sourceSlug knownSlugs) hrefs slugs).
Proof.
  revert slugs. induction hrefs as [| h hs IH]; intros slugs Hnd; simpl; [assumption |].
  apply IH. unfold extractStep. destruct (skipped h); [assumption |].
  destruct (JsSet.has knownSlugs _ && _ && negb (includes slugs _)) eqn:E; [| assumption].
  apply andb_true_iff in E. destruct E as [_ E].
  apply negb_true_iff, includes_false in E.
  apply NoDup_app; [assumption | repeat constructor; simpl; tauto |].
  intros x Hx [<- | []]. contradiction.
Qed.
End ExtractFold.





(** ** Breadcrumbs *)

Lemma JsSet_has_In (s : JsSet.t) (x : string) : JsSet.has s x = true <-> In x s.
Proof. apply includes_In. Qed.

Lemma JsSet_add_In (s : JsSet.t) (x y : string) :
  In y (JsSet.add s x) <-> In y s \/ y = x.
Proof. apply addUnique_In. Qed.

Lemma JsSet_add_new (s : JsSet.t) (x : string) :
  ~ In x s -> JsSet.add s x = s ++ [x].
Proof.
  intros H. unfold JsSet.add. apply includes_false in H.
  unfold JsSet.has. now rewrite H.
Qed.

Lemma JsSet_add_NoDup (s : JsSet.t) (x : string) :
  NoDup s -> NoDup (JsSet.add s x).
Proof. apply addUnique_NoDup. Qed.

Lemma buildRelationsGraph_completed (allPages : list Page) :
  completed (fst (buildRelationsGraph allPages))
            (snd (buildRelationsGraph allPages)).
Proof.
  rewrite buildRelationsGraph_eq. simpl. intros s.
  pose proof (firstPass_pages_get allPages s) as H.
  pose proof (secondPass_defined (fst (firstPass allPages)) s) as Hd.
  destruct (JsMap.get s (secondPass (fst (firstPass allPages)))),
    (JsMap.get s (fst (firstPass allPages))),
    (JsMap.get s (snd (firstPass allPages)));
    try assumption; try exact I;
    destruct Hd as [H1 H2]; try (specialize (H1 eq_refl)); try (specialize (H2 eq_refl));
    discriminate.
Qed.

(** Fewer pages are visited than the graph has while one is left. *)
Lemma visited_room (graph : RelationsGraph) (visited : JsSet.t) (cur : string) :
  NoDup visited -> incl visited (JsMap.keys graph) ->
  JsMap.get cur graph <> None -> ~ In cur visited ->
  List.length visited < List.length graph.
Proof.
  intros Hnd Hincl Hcur Hnew.
  assert (H : List.length (cur :: visited) <= List.length (JsMap.keys graph)).
  { apply NoDup_incl_length; [now constructor |].
    intros x [<- | Hx]; [now apply get_in_keys | now apply Hincl]. }
  unfold JsMap.keys in H. rewrite length_map in H. simpl in H. lia.
Qed.

(** The loop ends on every graph, page-info map and start. *)
Lemma breadcrumbLoop_terminates (graph : RelationsGraph) (pages : PageInfoMap)
    (fuel : nat) (current : option string) (visited : JsSet.t)
    (breadcrumbs : list PageInfo) :
  NoDup visited -> incl visited (JsMap.keys graph) ->
  List.length graph - List.length visited < fuel ->
  exists result,
    breadcrumbLoop fuel graph pages current visited breadcrumbs = Some result.
Proof.
  revert current visited breadcrumbs.
  induction fuel as [| fuel IH]; intros current visited acc Hnd Hincl Hfuel; [lia |].
  simpl. destruct current as [cur |]; [| eauto].
  destruct (truthy (Some cur) && negb (JsSet.has visited cur)) eqn:E; [| eauto].
  apply andb_true_iff in E. destruct E as [_ E].
  apply negb_true_iff, includes_false in E.
  destruct (JsMap.get cur graph) as [rel |] eqn:Eg; [| eauto].
  assert (Hroom : List.length visited < List.length graph)
    by (apply visited_room with (cur := cur); auto; congruence).
  apply IH.
  - now apply JsSet_add_NoDup.
  - intros x Hx. apply JsSet_add_In in Hx. destruct Hx as [Hx | ->]; [auto |].
    eapply get_Some_in_keys; eauto.
  - rewrite JsSet_add_new by assumption. rewrite length_app. simpl. lia.
Qed.

Lemma getBreadcrumbs_terminates (slug : string) (graph : RelationsGraph)
    (pages : PageInfoMap) :
  exists result, getBreadcrumbs slug graph pages = Some result.
Proof.
  apply breadcrumbLoop_terminates; [constructor | intros x [] | simpl; lia].
Qed.

(** The parent the code takes is the one the claim names. *)
Lemma claimedParent_parentOf (rel : PageRelations) :
  claimedParent rel (parentOf rel).
Proof.
  unfold parentOf, claimedParent.
  destruct (Rel.ntpp rel) as [| p ps]; [| left; eauto].
  destruct (Rel.tpp rel) as [| q qs]; simpl; [auto | right; eauto].
Qed.

Lemma claimedParent_fun (rel : PageRelations) (o : option string) :
  claimedParent rel o -> o = parentOf rel.
Proof.
  unfold parentOf, claimedParent.
  destruct o as [p |].
  - intros [[rest ->] | [-> [rest ->]]]; reflexivity.
  - intros [-> ->]. reflexivity.
Qed.

Section Walk.
Variable graph : RelationsGraph.
Variable pages : PageInfoMap.
Hypothesis Hcompleted : completed graph pages.
Hypothesis Hnonempty : JsMap.get "" graph = None.

Lemma completed_info (s : string) (rel : PageRelations) :
  JsMap.get s graph = Some rel ->
  exists info, JsMap.get s pages = Some info /\ slug info = s.
Proof.
  intros H. pose proof (Hcompleted s) as Hc. rewrite H in Hc.
  destruct (JsMap.get s pages) as [info |]; [eauto | contradiction].
Qed.

Lemma completed_no_info (s : string) :
  JsMap.get s graph = None -> JsMap.get s pages = None.
Proof.
  intros H. pose proof (Hcompleted s) as Hc. rewrite H in Hc.
  destruct (JsMap.get s pages); [contradiction | reflexivity].
Qed.

(** The loop returns the pages of the walk, in its order. *)
Lemma breadcrumbLoop_walk (fuel : nat) (cur : string) (visited : JsSet.t)
    (acc : list PageInfo) :
  NoDup visited -> incl visited (JsMap.keys graph) ->
  List.length graph - List.length visited < fuel ->
  JsMap.get cur graph <> None -> ~ In cur visited ->
  exists infos,
    breadcrumbLoop fuel graph pages (Some cur) visited acc = Some (infos ++ acc) /\
    walk graph visited cur (map slug infos) /\
    Forall (fun info => JsMap.get (slug info) pages = Some info) infos.
Proof.
  revert cur visited acc.
  induction fuel as [| fuel IH]; intros cur visited acc Hnd Hincl Hfuel Hcur Hnew; [lia |].
  assert (Hroom : List.length visited < List.length graph)
    by (apply visited_room with (cur := cur); auto).
  destruct (JsMap.get cur graph) as [rel |] eqn:Eg; [| congruence].
  destruct (completed_info _ Eg) as [info [Ei Hslug]].
  assert (Hne : cur <> "") by (intros ->; congruence).
  assert (Hfuel1 : exists f, fuel = S f) by (destruct fuel; [lia | eauto]).
  assert (Hone : Forall (fun i => JsMap.get (slug i) pages = Some i) [info]).
  { constructor; [now rewrite Hslug | constructor]. }
  cbn [breadcrumbLoop].
  assert (Ht : truthy (Some cur) && negb (JsSet.has visited cur) = true).
  { apply andb_true_iff. split.
    - simpl. now apply negb_true_iff, String.eqb_neq.
    - apply negb_true_iff. now apply includes_false. }
  rewrite Ht, Ei, Eg.
  destruct (parentOf rel) as [p |] eqn:Ep.
  2:{ destruct Hfuel1 as [f ->]. exists [info]. simpl. rewrite Hslug.
      split; [reflexivity | split; [| assumption]].
      apply walk_stop with (rel := rel) (o := None);
        [exact Eg | rewrite <- Ep; apply claimedParent_parentOf | now left]. }
  destruct (truthy (Some p) && negb (JsSet.has (JsSet.add visited cur) p)) eqn:Etp.
  - pose proof Etp as Etp0.
    apply andb_true_iff in Etp. destruct Etp as [_ Etp].
    apply negb_true_iff, includes_false in Etp.
    destruct (JsMap.get p graph) as [relp |] eqn:Egp.
    + destruct (IH p (JsSet.add visited cur) (info :: acc)) as [infos [Hloop [Hwalk Hall]]].
      * now apply JsSet_add_NoDup.
      * intros x Hx. apply JsSet_add_In in Hx. destruct Hx as [Hx | ->]; [auto |].
        eapply get_Some_in_keys; eauto.
      * rewrite JsSet_add_new by assumption. rewrite length_app. simpl. lia.
      * congruence.
      * assumption.
      * exists (infos ++ [info]). rewrite <- app_assoc. simpl.
        split; [exact Hloop | split].
        { rewrite map_app. simpl. rewrite Hslug.
          apply walk_step with (rel := rel) (p := p);
            [exact Eg | rewrite <- Ep; apply claimedParent_parentOf
            | assumption | congruence | exact Hwalk]. }
        { apply Forall_app. auto. }
    + destruct Hfuel1 as [f ->]. cbn [breadcrumbLoop].
      rewrite Etp0, Egp, (@completed_no_info p Egp).
      exists [info]. simpl. rewrite Hslug.
      split; [reflexivity | split; [| assumption]].
      apply walk_stop with (rel := rel) (o := Some p);
        [exact Eg | rewrite <- Ep; apply claimedParent_parentOf |].
      right. exists p. auto.
  - destruct Hfuel1 as [f ->]. cbn [breadcrumbLoop]. rewrite Etp.
    exists [info]. simpl. rewrite Hslug.
    split; [reflexivity | split; [| assumption]].
    apply walk_stop with (rel := rel) (o := Some p);
      [exact Eg | rewrite <- Ep; apply claimedParent_parentOf |].
    right. exists p. split; [reflexivity |].
    apply andb_false_iff in Etp. destruct Etp as [Etp | Etp].
    + right. simpl in Etp. apply negb_false_iff, String.eqb_eq in Etp. now subst.
    + left. apply negb_false_iff in Etp. now apply includes_In.
Qed.
End Walk.

(** The walk ends at the page it starts from. *)
Lemma walk_last (graph : RelationsGraph) (visited : JsSet.t) (cur : string)
    (chain : list string) :
  walk graph visited cur chain -> exists front, chain = front ++ [cur].
Proof. intros H. destruct H; [now exists [] | eauto]. Qed.

(** In the chain every page follows its parent. *)
Lemma walk_parents (graph : RelationsGraph) (visited : JsSet.t) (cur : string)
    (chain : list string) :
  walk graph visited cur chain ->
  forall l1 x y l2, chain = l1 ++ x :: y :: l2 ->
    exists rel, JsMap.get y graph = Some rel /\ parentOf rel = Some x.
Proof.
  induction 1 as [visited cur rel o Hg Hc Hh | visited cur rel p chain Hg Hp Hnew Hdef Hw IH];
    intros l1 x y l2 E.
  - destruct l1 as [| a [| b l1]]; discriminate.
  - apply claimedParent_fun in Hp. symmetry in Hp.
    destruct (walk_last Hw) as [front Hfront].
    destruct l2 as [| z l2] using rev_ind.
    + assert (E' : chain ++ [cur] = (l1 ++ [x]) ++ [y])
        by (rewrite E, <- app_assoc; reflexivity).
      apply app_inj_tail in E'. destruct E' as [E1 <-].
      rewrite Hfront in E1. apply app_inj_tail in E1. destruct E1 as [_ <-].
      eauto.
    + clear IHl2.
      assert (E' : chain ++ [cur] = (l1 ++ x :: y :: l2) ++ [z]).
      { rewrite E, <- app_assoc. reflexivity. }
      apply app_inj_tail in E'. destruct E' as [E1 _]. eauto.
Qed.

(** The walk from a page is one chain. *)
Lemma walk_unique (graph : RelationsGraph) (visited : JsSet.t) (cur : string)
    (c1 c2 : list string) :
  walk graph visited cur c1 -> walk graph visited cur c2 -> c1 = c2.
Proof.
  intros H1. revert c2.
  induction H1 as [visited cur rel o Hg Hc Hh | visited cur rel p chain Hg Hp Hnew Hdef Hw IH];
    intros c2 H2;
    inversion H2 as [? ? rel' o' Hg' Hc' Hh' | ? ? rel' p' chain' Hg' Hp' Hnew' Hdef' Hw'];
    subst;
    repeat match goal with
    | H : claimedParent _ _ |- _ => apply claimedParent_fun in H; symmetry in H
    end;
    subst.
  - reflexivity.
  - exfalso. rewrite Hg in Hg'. injection Hg' as <-.
    destruct Hh as [Hh | [q [Hq Hh]]]; [congruence |].
    rewrite Hp' in Hq. injection Hq as <-. tauto.
  - exfalso. rewrite Hg in Hg'. injection Hg' as <-.
    destruct Hh' as [Hh | [q [Hq Hh]]]; [congruence |].
    rewrite Hp in Hq. injection Hq as <-. tauto.
  - rewrite Hg in Hg'. injection Hg' as <-.
    rewrite Hp in Hp'. injection Hp' as <-.
    f_equal. now apply IH.
Qed.

Lemma breadcrumbs_off_graph (graph : RelationsGraph) (pages : PageInfoMap)
    (start : string) :
  completed graph pages -> JsMap.get start graph = None ->
  getBreadcrumbs start graph pages = Some [].
Proof.
  intros Hc H. pose proof (Hc start) as Hs. rewrite H in Hs.
  unfold getBreadcrumbs. cbn [breadcrumbLoop truthy JsSet.has JsSet.empty
    includes existsb negb andb].
  destruct (start =? ""); cbn [negb andb]; [reflexivity |].
  rewrite H. destruct (JsMap.get start pages); [contradiction | reflexivity].
Qed.

(** C7. [getBreadcrumbs] returns on every graph.  On a completed graph
    whose pages have non-empty slugs: from a page of the graph it
    returns the infos of the walk, which steps to [ntpp[0]] if present,
    otherwise to [tpp[0]], and stops when there is no such parent page
    or it was visited; the chain is root first, ends at the start, and
    is the only chain of that walk; from a slug that is no page of the
    graph it returns the empty list.  In the example (mid in root, leaf
    in mid) the breadcrumbs of leaf are root, mid, leaf; where the two
    containments differ, [ntpp[0]] is taken before [tpp[0]] and
    [tpp[0]] when [ntpp] is empty. *)
Theorem breadcrumbs_chain (graph : RelationsGraph) (pages : PageInfoMap)
    (start : string) :
  (exists result, getBreadcrumbs start graph pages = Some result) /\
  (completed graph pages ->
   JsMap.get "" graph = None ->
   (JsMap.get start graph <> None ->
    exists infos front,
      getBreadcrumbs start graph pages = Some infos /\
      walk graph JsSet.empty start (map slug infos) /\
      (forall chain, walk graph JsSet.empty start chain ->
                     chain = map slug infos) /\
      map slug infos = front ++ [start] /\
      Forall (fun info => JsMap.get (slug info) pages = Some info) infos) /\
   (JsMap.get start graph = None ->
    getBreadcrumbs start graph pages = Some [])) /\
  getBreadcrumbs "leaf" (fst (buildRelationsGraph breadcrumbExample))
                 (snd (buildRelationsGraph breadcrumbExample)) =
    Some [mkInfo "root" "root"; mkInfo "mid" "mid"; mkInfo "leaf" "leaf"] /\
  getBreadcrumbs "leaf" (fst (buildRelationsGraph parentChoiceExample))
                 (snd (buildRelationsGraph parentChoiceExample)) =
    Some [mkInfo "root" "root"; mkInfo "mid" "mid"; mkInfo "leaf" "leaf"].
Proof.
  split; [apply getBreadcrumbs_terminates |].
  split; [| split; vm_compute; reflexivity].
  intros Hc Hne. split; [| now apply breadcrumbs_off_graph].
  intros Hstart.
  destruct (@breadcrumbLoop_walk graph pages Hc Hne (S (List.length graph))
              start JsSet.empty [])
    as [infos [Hloop [Hwalk Hall]]];
    [constructor | intros x [] | simpl; lia | assumption | intros [] |].
  rewrite app_nil_r in Hloop.
  destruct (walk_last Hwalk) as [front Hfront].
  exists infos, front. repeat split; auto.
  intros chain Hchain. exact (walk_unique Hchain Hwalk).
Qed.

Lemma breadcrumbs_chain_witness :
  let graph := fst (buildRelationsGraph parentChoiceExample) in
  let pages := snd (buildRelationsGraph parentChoiceExample) in
  completed graph pages /\
  JsMap.get "" graph = None /\
  JsMap.get "leaf" graph <> None /\
  JsMap.get "ghost" graph = None /\
  (exists infos front,
     getBreadcrumbs "leaf" graph pages = Some infos /\
     walk graph JsSet.empty "leaf" (map slug infos) /\
     (forall chain, walk graph JsSet.empty "leaf" chain ->
                    chain = map slug infos) /\
     map slug infos = front ++ ["leaf"] /\
     Forall (fun info => JsMap.get (slug info) pages = Some info) infos) /\
  getBreadcrumbs "ghost" graph pages = Some [].
Proof.
  intros graph pages.
  assert (Hc : completed graph pages) by apply buildRelationsGraph_completed.
  assert (Hne : JsMap.get "" graph = None) by (vm_compute; reflexivity).
  assert (Hs : JsMap.get "leaf" graph <> None) by (vm_compute; discriminate).
  assert (Hg : JsMap.get "ghost" graph = None) by (vm_compute; reflexivity).
  split; [exact Hc | split; [exact Hne | split; [exact Hs | split; [exact Hg |]]]].
  split.
  - exact (proj1 (proj1 (proj2 (@breadcrumbs_chain graph pages "leaf")) Hc Hne) Hs).
  - exact (proj2 (proj1 (proj2 (@breadcrumbs_chain graph pages "ghost")) Hc Hne) Hg).
Defined.

(** C7 as the claim states it fails, in two ways.  From a slug that is
    no page of the graph the breadcrumbs are empty, so they do not end
    at the starting slug.  And the page whose slug is empty, a page of
    a completed graph, has empty breadcrumbs too: the loop tests
    [current] before anything else. *)
Lemma endsAtStart_counterexample :
  (let graph := fst (buildRelationsGraph breadcrumbExample) in
   let pages := snd (buildRelationsGraph breadcrumbExample) in
   completed graph pages /\ ~ endsAtStart graph pages "ghost") /\
  (let store := [pageDeclaring "" NTPP []] in
   let graph := fst (buildRelationsGraph store) in
   let pages := snd (buildRelationsGraph store) in
   completed graph pages /\ JsMap.get "" graph <> None /\
   ~ endsAtStart graph pages "").
Proof.
  split.
  - split; [apply buildRelationsGraph_completed |].
    intros (infos & front & H & E). vm_compute in H. injection H as <-.
    destruct front; discriminate E.
  - split; [apply buildRelationsGraph_completed |].
    split; [vm_compute; discriminate |].
    intros (infos & front & H & E). vm_compute in H. injection H as <-.
    destruct front; discriminate E.
Qed.

(** On a cycle the walk stops at the page met again. *)
Example breadcrumbs_cycle :
  let store := [pageDeclaring "a" NTPP ["b"]; pageDeclaring "b" NTPP ["a"]] in
  getBreadcrumbs "a" (fst (buildRelationsGraph store))
                 (snd (buildRelationsGraph store)) =
    Some [mkInfo "b" "b"; mkInfo "a" "a"].
Proof. vm_compute. reflexivity. Qed.

(** ** The subgraph view *)

Lemma fold_add_In (frontier included : JsSet.t) (v : string) :
  In v (fold_left JsSet.add frontier included) <-> In v included \/ In v frontier.
Proof.
  revert included. induction frontier as [| x xs IH]; intros included; simpl.
  - tauto.
  - rewrite IH, JsSet_add_In. intuition.
Qed.

Section Traversal.
Variable E : list GraphEdge.
Variable root : string.

Lemma visitEdge_In (included : JsSet.t) (slug : string) (nf : JsSet.t)
    (edge : GraphEdge) (v : string) :
  In v (visitEdge included slug nf edge) <->
  In v nf \/
  (~ In v included /\
   ((Edge.source edge = slug /\ Edge.target edge = v) \/
    (Edge.target edge = slug /\ Edge.source edge = v))).
Proof.
  unfold visitEdge.
  destruct (Edge.source edge =? slug) eqn:Es;
    destruct (Edge.target edge =? slug) eqn:Et;
    destruct (JsSet.has included (Edge.target edge)) eqn:Ht;
    destruct (JsSet.has included (Edge.source edge)) eqn:Hs;
    simpl; rewrite ?JsSet_add_In;
    repeat match goal with
    | H : JsSet.has _ _ = true |- _ => apply JsSet_has_In in H
    | H : JsSet.has _ _ = false |- _ => apply (proj1 (includes_false _ _)) in H
    | H : (_ =? _) = true |- _ => apply String.eqb_eq in H
    | H : (_ =? _) = false |- _ => apply String.eqb_neq in H
    end;
    split; intros H; intuition (subst; try congruence; auto).
Qed.

Lemma fold_visitEdge_In (included : JsSet.t) (slug : string) (edges : list GraphEdge)
    (nf : JsSet.t) (v : string) :
  In v (fold_left (visitEdge included slug) edges nf) <->
  In v nf \/
  (~ In v included /\
   exists e, In e edges /\
     ((Edge.source e = slug /\ Edge.target e = v) \/
      (Edge.target e = slug /\ Edge.source e = v))).
Proof.
  revert nf. induction edges as [| e es IH]; intros nf; simpl.
  - split; [tauto | intros [H | [_ [e [[] _]]]]; assumption].
  - rewrite IH, visitEdge_In. split.
    + intros [[H | [Hn H]] | [Hn [e' [Hin H]]]]; eauto 8.
    + intros [H | [Hn [e' [[<- | Hin] H]]]]; eauto 8.
Qed.

Lemma expandFrontier_In (included frontier : JsSet.t) (v : string) :
  In v (expandFrontier E included frontier) <->
  ~ In v included /\ exists u, In u frontier /\ adjacent E u v.
Proof.
  unfold expandFrontier.
  assert (H : forall nf,
    In v (fold_left (fun nextFrontier slug =>
            fold_left (visitEdge included slug) E nextFrontier) frontier nf) <->
    In v nf \/ (~ In v included /\ exists u, In u frontier /\ adjacent E u v)).
  { induction frontier as [| x xs IH]; intros nf; simpl.
    - split; [tauto | intros [H | [_ [u [[] _]]]]; assumption].
    - rewrite IH, fold_visitEdge_In. unfold adjacent. split.
      + intros [[H | [Hn [e [Hin H]]]] | [Hn [u [Hu H]]]]; eauto 10.
        right. split; [assumption |]. exists x. split; [now left |].
        exists e. intuition.
      + intros [H | [Hn [u [[<- | Hu] [e [Hin H]]]]]]; eauto 10.
        left. right. split; [assumption |]. exists e. intuition. }
  rewrite H. simpl. tauto.
Qed.

Lemma within_zero (v : string) : within E root 0 v <-> v = root.
Proof.
  split.
  - intros [n [Hn H]]. assert (n = 0) by lia. subst. now inversion H.
  - intros ->. exists 0. split; [lia | constructor].
Qed.

Lemma within_succ (d : nat) (v : string) :
  within E root (S d) v <->
  within E root d v \/ exists u, within E root d u /\ adjacent E u v.
Proof.
  split.
  - intros [n [Hn H]]. destruct (Nat.eq_dec n (S d)) as [-> | Hne].
    + inversion H as [| n' u v' Hu Hadj]; subst.
      right. exists u. split; [exists d; auto | assumption].
    + left. exists n. split; [lia | assumption].
  - intros [[n [Hn H]] | [u [[n [Hn H]] Hadj]]].
    + exists n. split; [lia | assumption].
    + exists (S n). split; [lia | econstructor; eauto].
Qed.

(** The traversal with [left] hops to go, entered with the pages within
    [d - 1] hops included and those at [d] hops in the frontier, returns
    the pages within [d + left] hops. *)
Lemma bfsLoop_within (left d : nat) (included frontier : JsSet.t) :
  (forall v, In v included \/ In v frontier <-> within E root d v) ->
  (forall u v, In u included -> adjacent E u v -> In v included \/ In v frontier) ->
  forall v, In v (bfsLoop E left included frontier) <-> within E root (d + left) v.
Proof.
  revert d included frontier.
  induction left as [| left IH]; intros d included frontier Hball Hclosed v.
  - simpl. rewrite fold_add_In, Nat.add_0_r. apply Hball.
  - cbn [bfsLoop]. replace (d + S left) with (S d + left) by lia.
    apply IH.
    + intros w. rewrite fold_add_In, expandFrontier_In, fold_add_In, within_succ.
      split.
      * intros [H | [Hn [u [Hu Hadj]]]].
        { left. now apply Hball. }
        { right. exists u. split; [apply Hball; now right | assumption]. }
      * intros [H | [u [Hu Hadj]]].
        { left. now apply Hball. }
        { apply Hball in Hu.
          destruct (in_dec string_dec w included) as [Hw | Hw]; [now left; left |].
          destruct (in_dec string_dec w frontier) as [Hf | Hf]; [now left; right |].
          destruct Hu as [Hu | Hu].
          - destruct (Hclosed u w Hu Hadj); [now left; left | now left; right].
          - right. split; [tauto | eauto]. }
    + intros u w Hu Hadj. rewrite fold_add_In in Hu.
      rewrite fold_add_In, expandFrontier_In, fold_add_In.
      destruct (in_dec string_dec w included) as [Hw | Hw]; [now left; left |].
      destruct (in_dec string_dec w frontier) as [Hf | Hf]; [now left; right |].
      destruct Hu as [Hu | Hu].
      * destruct (Hclosed u w Hu Hadj); [now left; left | now left; right].
      * right. split; [tauto | eauto].
Qed.
End Traversal.

Lemma includedSlugs_within (full : GraphData) (rootSlug : string)
    (opts : SubgraphOptions) (v : string) :
  In v (includedSlugsOf full rootSlug opts) <->
  within (relevantEdgesOf full opts) rootSlug (depth opts) v.
Proof.
  unfold includedSlugsOf.
  apply (bfsLoop_within (E := relevantEdgesOf full opts) (root := rootSlug)
           (depth opts) (d := 0)).
  - intros w. rewrite within_zero. simpl. intuition.
  - intros u w [].
Qed.

Lemma EdgeType_eqb_eq (a b : EdgeType) : EdgeType_eqb a b = true <-> a = b.
Proof. destruct a, b; split; intros H; try reflexivity; discriminate. Qed.

Lemma relevantEdges_In (full : GraphData) (opts : SubgraphOptions) (e : GraphEdge) :
  In e (relevantEdgesOf full opts) <->
  In e (edges full) /\ In (Edge.type e) (relationTypes opts).
Proof.
  unfold relevantEdgesOf. rewrite filter_In, existsb_exists. split.
  - intros [H [ty [Hty Heq]]]. apply EdgeType_eqb_eq in Heq. now subst.
  - intros [H Hty]. split; [assumption |]. exists (Edge.type e).
    split; [assumption | now apply EdgeType_eqb_eq].
Qed.

(** C4. For every graph, root, kinds and depth N, [buildSubgraphData]
    returns the nodes of the full view within N hops of the root over
    the edges of the kinds asked for, taken both ways, and the edges of
    those kinds with both ends within N hops.  With depth 0 that is the
    root node alone, and the only edges are loops on the root. *)
Theorem subgraph_within_depth (graph : RelationsGraph) (pages : PageInfoMap)
    (rootSlug : string) (opts : SubgraphOptions) :
  let full := buildGraphData graph pages in
  let relevant := relevantEdgesOf full opts in
  let sub := buildSubgraphData graph pages rootSlug opts in
  (forall e, In e relevant <->
             In e (edges full) /\ In (Edge.type e) (relationTypes opts)) /\
  (forall n, In n (nodes sub) <->
             In n (nodes full) /\
             within relevant rootSlug (depth opts) (Node.id n)) /\
  (forall e, In e (edges sub) <->
             In e relevant /\
             within relevant rootSlug (depth opts) (Edge.source e) /\
             within relevant rootSlug (depth opts) (Edge.target e)) /\
  (depth opts = 0 ->
   (forall n, In n (nodes sub) -> Node.id n = rootSlug) /\
   (forall e, In e (edges sub) ->
              Edge.source e = rootSlug /\ Edge.target e = rootSlug)).
Proof.
  intros full relevant sub.
  assert (Hn : forall n, In n (nodes sub) <->
             In n (nodes full) /\
             within relevant rootSlug (depth opts) (Node.id n)).
  { intros n. unfold sub, buildSubgraphData. simpl.
    rewrite filter_In, JsSet_has_In, includedSlugs_within. reflexivity. }
  assert (He : forall e, In e (edges sub) <->
             In e relevant /\
             within relevant rootSlug (depth opts) (Edge.source e) /\
             within relevant rootSlug (depth opts) (Edge.target e)).
  { intros e. unfold sub, buildSubgraphData. simpl.
    rewrite filter_In, andb_true_iff, !JsSet_has_In, !includedSlugs_within.
    reflexivity. }
  split; [intros e; apply relevantEdges_In |].
  split; [exact Hn |]. split; [exact He |].
  intros H0. split.
  - intros n Hin. apply Hn in Hin. rewrite H0 in Hin.
    destruct Hin as [_ Hin]. now apply within_zero in Hin.
  - intros e Hin. apply He in Hin. rewrite H0 in Hin.
    destruct Hin as [_ [H1 H2]].
    apply within_zero in H1. apply within_zero in H2. auto.
Qed.

(** C4 as the claim states it fails, in two ways.  At depth 0 a page
    that lists itself has a loop edge, whose two ends are the root.
    And an edge can end outside the nodes returned: the page A lists
    [zz], which is no page, so at depth 1 the edge from A to [zz] is
    returned, [zz] being one hop away, while A is the only node. *)
Lemma subgraphClaim_counterexample :
  (let store := [pageDeclaring "a" NTPP ["a"]] in
   ~ depthZeroClaim (fst (buildRelationsGraph store))
                    (snd (buildRelationsGraph store)) "a" [E_ntpp]) /\
  (let store := [pageDeclaring "A" NTPP ["zz"]] in
   buildSubgraphData (fst (buildRelationsGraph store))
                     (snd (buildRelationsGraph store)) "A" (mkOpts [E_ntpp] 1) =
     mkGraphData [Node.mk "A" "A" 1] [Edge.mk "A" "zz" E_ntpp] /\
   ~ endpointsClaim (fst (buildRelationsGraph store))
                    (snd (buildRelationsGraph store)) "A" (mkOpts [E_ntpp] 1)).
Proof.
  split.
  - intros store [_ H]. vm_compute in H. discriminate.
  - intros store. split; [vm_compute; reflexivity |].
    intros H. destruct (H (Edge.mk "A" "zz" E_ntpp)) as [_ Hzz].
    + vm_compute. auto.
    + vm_compute in Hzz. destruct Hzz as [Hzz | []]. discriminate.
Qed.

(** The example of the bound: R - A - B, each an [eq] edge, depth 1. *)
Example subgraph_bound_example :
  let store := [pageDeclaring "R" EQ ["A"]; pageDeclaring "A" EQ ["B"];
                pageDeclaring "B" EQ []] in
  buildSubgraphData (fst (buildRelationsGraph store))
                    (snd (buildRelationsGraph store)) "R" (mkOpts [E_eq] 1) =
  mkGraphData [Node.mk "R" "R" 1; Node.mk "A" "A" 2] [Edge.mk "R" "A" E_eq].
Proof. vm_compute. reflexivity. Qed.

(** ** The full view: keys of symmetric edges *)

(** C5, at the store where it fails.  The pages a and b::c are equal,
    and so are a::b and c.  Both pairs get the key [a::b::c::eq], so the
    view has one [eq] edge for the first pair and none for the second,
    where the claim, and the comment of [buildGraphData], say one per
    pair. *)
Theorem edge_key_collision :
  let graph := fst (buildRelationsGraph collidingStore) in
  let pages := snd (buildRelationsGraph collidingStore) in
  (exists relC, JsMap.get "c" graph = Some relC /\ In "a::b" (Rel.eq relC)) /\
  edgeKey "a" "b::c" E_eq = edgeKey "c" "a::b" E_eq /\
  edges (buildGraphData graph pages) = [Edge.mk "a" "b::c" E_eq] /\
  edgesBetween E_eq "a" "b::c" (buildGraphData graph pages) = 1 /\
  edgesBetween E_eq "c" "a::b" (buildGraphData graph pages) = 0.
Proof.
  intros graph pages. split.
  - eexists. split; [vm_compute; reflexivity | simpl; auto].
  - repeat split; vm_compute; reflexivity.
Qed.

(** The example of the spec: A and B each declare the other equal, and
    the view has one [eq] edge. *)
Example edge_dedup_example :
  let store := [pageDeclaring "A" EQ ["B"]; pageDeclaring "B" EQ ["A"]] in
  edges (buildGraphData (fst (buildRelationsGraph store))
                        (snd (buildRelationsGraph store))) =
  [Edge.mk "A" "B" E_eq].
Proof. vm_compute. reflexivity. Qed.

(** ** The backlinks endpoint *)

(** The endpoint writes the rejection and the normalisation of a target
    as the extractor does. *)
Lemma linkStep_normalizePath (sourcePath sourceTitle : string)
    (backlinks : Backlinks.t) (href : string) :
  Backlinks.linkStep sourcePath sourceTitle backlinks href =
  if skipped href then backlinks
  else
    match JsMap.get (normalizePath href) backlinks with
    | Some arr =>
        if (normalizePath href =? sourcePath)
           || existsb (fun bl => Backlinks.path bl =? sourcePath) arr
        then backlinks
        else JsMap.set (normalizePath href)
               (arr ++ [Backlinks.mk sourcePath sourceTitle]) backlinks
    | None => backlinks
    end.
Proof.
  unfold Backlinks.linkStep, skipped, normalizePath.
  destruct (startsWith href "http" || startsWith href "#" || startsWith href "mailto:");
    [reflexivity |].
  set (p1 := if startsWith href "./" then slice1 href else href).
  destruct (startsWith p1 "/"); simpl;
    match goal with
    | |- context [JsMap.get ?k backlinks] =>
        destruct (JsMap.get k backlinks) as [arr |]; [| reflexivity];
        destruct (k =? sourcePath); simpl; [reflexivity |];
        now destruct (existsb _ arr)
    end.
Qed.

(** C8, at the store where it fails.  The page a links to [/index].  The
    extractor maps that path to the slug [index], so [a] refers to the
    home page; the endpoint looks the path up among the page paths,
    where the home page is [/], and records no backlink. *)
Theorem backlinks_index_divergence :
  let graph := fst (buildRelationsGraph indexLinkStore) in
  (exists relA, JsMap.get "a" graph = Some relA /\ Rel.r relA = ["index"]) /\
  backlinksFromExtractor indexLinkStore (pageBody "index" "Home") =
    [Backlinks.mk "/a" "a"] /\
  Backlinks.GET indexLinkStore = [("/", []); ("/a", [])] /\
  ~ backlinksAgree indexLinkStore.
Proof.
  intros graph. split; [eexists; split; vm_compute; reflexivity |].
  split; [vm_compute; reflexivity |]. split; [vm_compute; reflexivity |].
  intros H. specialize (H (pageBody "index" "Home") (or_introl eq_refl)).
  vm_compute in H. discriminate.
Qed.

(** A link to [/] is a backlink of the home page for both. *)
Example backlinks_root_example :
  let store := [pageBody "index" "Home"; pageBody "a" "Back [home](/)."] in
  Backlinks.GET store = [("/", [Backlinks.mk "/a" "a"]); ("/a", [])] /\
  backlinksFromExtractor store (pageBody "index" "Home") = [Backlinks.mk "/a" "a"].
Proof. split; vm_compute; reflexivity. Qed.

(** ** Arrays by reference: the heap *)

Lemma read_write_eq (h : Heap.t) (l : Heap.loc) (v : list string) :
  l < List.length h -> Heap.read (Heap.write h l v) l = v.
Proof.
  unfold Heap.read. revert l. induction h as [| a h IH]; intros l Hl; simpl in *.
  - lia.
  - destruct l; simpl; [reflexivity | apply IH; lia].
Qed.

Lemma read_write_ne (h : Heap.t) (l l' : Heap.loc) (v : list string) :
  l <> l' -> Heap.read (Heap.write h l v) l' = Heap.read h l'.
Proof.
  unfold Heap.read. revert l l'. induction h as [| a h IH]; intros l l' Hne; simpl.
  - reflexivity.
  - destruct l, l'; simpl; try reflexivity; try congruence.
    apply IH. congruence.
Qed.

Lemma length_write (h : Heap.t) (l : Heap.loc) (v : list string) :
  List.length (Heap.write h l v) = List.length h.
Proof.
  revert l. induction h as [| a h IH]; intros l; simpl; [reflexivity |].
  destruct l; simpl; [reflexivity | now rewrite IH].
Qed.

Lemma read_app_old (h ext : Heap.t) (l : Heap.loc) :
  l < List.length h -> Heap.read (h ++ ext) l = Heap.read h l.
Proof. intros H. unfold Heap.read. now apply app_nth1. Qed.

Lemma read_app_new (h : Heap.t) (v : list string) (ext : Heap.t) :
  Heap.read (h ++ v :: ext) (List.length h) = v.
Proof.
  unfold Heap.read. rewrite app_nth2 by lia. now rewrite Nat.sub_diag.
Qed.

(** ** Arrays by reference: relations objects *)

Lemma fieldRef_set_fieldRef (k k' : RelKind) (l : Heap.loc) (rel : RelRef.t) :
  fieldRef k (set_fieldRef k' l rel) = if RelKind_eqb k k' then l else fieldRef k rel.
Proof. destruct rel, k, k'; reflexivity. Qed.

Lemma fieldRef_set_nextRef (k : RelKind) (v : option string) (rel : RelRef.t) :
  fieldRef k (set_nextRef v rel) = fieldRef k rel.
Proof. destruct rel, k; reflexivity. Qed.

Lemma fieldRef_set_prevRef (k : RelKind) (v : option string) (rel : RelRef.t) :
  fieldRef k (set_prevRef v rel) = fieldRef k rel.
Proof. destruct rel, k; reflexivity. Qed.

Lemma field_readRel (k : RelKind) (h : Heap.t) (rel : RelRef.t) :
  field k (readRel h rel) = Heap.read h (fieldRef k rel).
Proof. destruct k; reflexivity. Qed.

Lemma rel_ext (r1 r2 : PageRelations) :
  (forall k, field k r1 = field k r2) ->
  Rel.next r1 = Rel.next r2 -> Rel.prev r1 = Rel.prev r2 -> r1 = r2.
Proof.
  intros H Hn Hp. destruct r1, r2. simpl in *.
  pose proof (H NTPP). pose proof (H NTTPI). pose proof (H TPP).
  pose proof (H TPPI). pose proof (H PO). pose proof (H EC).
  pose proof (H EQ). pose proof (H DC). pose proof (H R). pose proof (H RI).
  simpl in *. congruence.
Qed.

Lemma readRel_ext (h h' : Heap.t) (rel : RelRef.t) :
  (forall k, Heap.read h' (fieldRef k rel) = Heap.read h (fieldRef k rel)) ->
  readRel h' rel = readRel h rel.
Proof.
  intros H. apply rel_ext; try reflexivity.
  intros k. rewrite !field_readRel. apply H.
Qed.

Lemma readRel_set_fieldRef (h h' : Heap.t) (k : RelKind) (l : Heap.loc)
    (v : list string) (rel : RelRef.t) :
  Heap.read h' l = v ->
  (forall k', k' <> k -> Heap.read h' (fieldRef k' rel) = Heap.read h (fieldRef k' rel)) ->
  readRel h' (set_fieldRef k l rel) = set_field k v (readRel h rel).
Proof.
  intros Hl Hother. apply rel_ext.
  - intros k'. rewrite field_set_field, !field_readRel, fieldRef_set_fieldRef.
    destruct (RelKind_eqb k' k) eqn:E; [assumption |].
    apply Hother. intros ->. destruct k; discriminate.
  - destruct rel, k; reflexivity.
  - destruct rel, k; reflexivity.
Qed.

Lemma readRel_set_nextRef (h : Heap.t) (v : option string) (rel : RelRef.t) :
  readRel h (set_nextRef v rel) = set_next v (readRel h rel).
Proof. destruct rel; reflexivity. Qed.

Lemma readRel_set_prevRef (h : Heap.t) (v : option string) (rel : RelRef.t) :
  readRel h (set_prevRef v rel) = set_prev v (readRel h rel).
Proof. destruct rel; reflexivity. Qed.

Lemma get_readGraph (h : Heap.t) (g : GraphRef) (s : string) :
  JsMap.get s (readGraph h g) = option_map (readRel h) (JsMap.get s g).
Proof. apply get_mapVals. Qed.

Lemma In_set (V : Type) (k : string) (v : V) (m : JsMap.t V) (s : string) (x : V) :
  In (s, x) (JsMap.set k v m) -> (s = k /\ x = v) \/ In (s, x) m.
Proof.
  induction m as [| [k' v'] m IH]; simpl.
  - intros [[= <- <-] | []]. now left.
  - destruct (k =? k') eqn:E.
    + apply String.eqb_eq in E. subst k'.
      intros [[= <- <-] | H]; [now left | right; now right].
    + intros [H | H]; [right; now left |].
      destruct (IH H); [now left | right; now right].
Qed.

(** ** Arrays by reference: the second pass *)

Section WriteOne.
Variable h : Heap.t.
Variable l : Heap.loc.
Variable v : list string.
Variable dst : RelKind.
Variable target : string.
Hypothesis Hl : l < List.length h.

Lemma readGraph_write_others (g : GraphRef) :
  (forall s rel k, In (s, rel) g -> fieldRef k rel <> l) ->
  readGraph (Heap.write h l v) g = readGraph h g.
Proof.
  induction g as [| [s rel] g IH]; intros H; simpl; [reflexivity |].
  f_equal.
  - f_equal. apply readRel_ext. intros k. apply read_write_ne.
    intros E. apply (H s rel k); [now left | now symmetry].
  - apply IH. intros s' rel' k Hin. apply (H s' rel' k). now right.
Qed.

(** Writing the array of one field of one page is setting that field. *)
Lemma readGraph_write (g : GraphRef) :
  NoDup (JsMap.keys g) ->
  (forall s rel k, In (s, rel) g -> fieldRef k rel = l -> s = target /\ k = dst) ->
  (forall rel, JsMap.get target g = Some rel -> fieldRef dst rel = l) ->
  readGraph (Heap.write h l v) g =
  match JsMap.get target g with
  | Some rel => JsMap.set target (set_field dst v (readRel h rel)) (readGraph h g)
  | None => readGraph h g
  end.
Proof.
  induction g as [| [s rel] g IH]; intros Hnd Hsep Hget; [reflexivity |].
  simpl in Hnd. inversion Hnd as [| ? ? Hnotin Hnd']; subst.
  cbn [JsMap.get] in *. destruct (target =? s) eqn:E.
  - apply String.eqb_eq in E. subst s.
    unfold readGraph. cbn [mapVals map fst snd JsMap.set].
    rewrite String.eqb_refl. fold (mapVals (readRel (Heap.write h l v)) g).
    fold (mapVals (readRel h) g). fold (readGraph (Heap.write h l v) g).
    fold (readGraph h g).
    f_equal.
    + f_equal. apply rel_ext; try (destruct rel, dst; reflexivity).
      intros k. rewrite field_set_field, !field_readRel.
      destruct (RelKind_eqb k dst) eqn:Ek.
      * apply RelKind_eqb_eq in Ek. subst k.
        rewrite (Hget rel eq_refl). now apply read_write_eq.
      * apply read_write_ne. intros El.
        destruct (Hsep target rel k (or_introl eq_refl) (eq_sym El)) as [_ ->].
        destruct dst; discriminate.
    + apply readGraph_write_others. intros s' rel' k Hin El.
      destruct (Hsep s' rel' k (or_intror Hin) El) as [-> _].
      apply Hnotin. apply in_map_iff. now exists (target, rel').
  - assert (Hhead : readRel (Heap.write h l v) rel = readRel h rel).
    { apply readRel_ext. intros k. apply read_write_ne. intros El.
      destruct (Hsep s rel k (or_introl eq_refl) (eq_sym El)) as [-> _].
      now rewrite String.eqb_refl in E. }
    unfold readGraph. cbn [mapVals map fst snd].
    fold (mapVals (readRel (Heap.write h l v)) g).
    fold (mapVals (readRel h) g). fold (readGraph (Heap.write h l v) g).
    fold (readGraph h g).
    rewrite Hhead, IH; auto.
    + destruct (JsMap.get target g); [| reflexivity].
      cbn [JsMap.set]. now rewrite E.
    + intros s' rel' k Hin. apply Hsep. now right.
Qed.
End WriteOne.

Lemma GraphWf_write (base : nat) (g : GraphRef) (h : Heap.t)
    (l : Heap.loc) (v : list string) :
  GraphWf base g h -> GraphWf base g (Heap.write h l v).
Proof.
  intros [Hk Hb Hs]. split; [assumption | | assumption].
  intros s rel k Hin. rewrite length_write. eauto.
Qed.

Section PassRef.
Variable base : nat.

(** The heap below [base] is not written, and keeps its length. *)
Definition frames (h h' : Heap.t) : Prop :=
  List.length h' = List.length h /\
  forall l, l < base -> Heap.read h' l = Heap.read h l.

Lemma frames_refl (h : Heap.t) : frames h h.
Proof. split; auto. Qed.

Lemma frames_trans (h1 h2 h3 : Heap.t) :
  frames h1 h2 -> frames h2 h3 -> frames h1 h3.
Proof.
  intros [L1 F1] [L2 F2]. split; [congruence |].
  intros l Hl. rewrite F2, F1; auto.
Qed.

Lemma pushInverseRef_refines (dst : RelKind) (slug : string) (g : GraphRef)
    (h : Heap.t) (target : string) :
  GraphWf base g h ->
  readGraph (pushInverseRef dst slug g h target) g =
    pushInverse dst slug (readGraph h g) target /\
  GraphWf base g (pushInverseRef dst slug g h target) /\
  frames h (pushInverseRef dst slug g h target).
Proof.
  intros Hwf. pose proof Hwf as [Hk Hb Hs].
  unfold pushInverseRef, pushInverse. rewrite get_readGraph.
  destruct (JsMap.get target g) as [trel |] eqn:E; simpl.
  2:{ auto using frames_refl. }
  pose proof (get_Some_In _ _ E) as Hin.
  split; [| split].
  - rewrite (@readGraph_write h (fieldRef dst trel) _ dst target).
    + rewrite E, field_readRel. reflexivity.
    + apply (Hb target trel dst Hin).
    + assumption.
    + intros s rel k Hin' El. apply (Hs s rel k target trel dst); auto.
    + intros rel Hrel. congruence.
  - now apply GraphWf_write.
  - split; [apply length_write |].
    intros l Hl. apply read_write_ne.
    pose proof (Hb target trel dst Hin). lia.
Qed.

Lemma fold_pushInverseRef_refines (dst : RelKind) (slug : string) (g : GraphRef)
    (targets : list string) (h : Heap.t) :
  GraphWf base g h ->
  readGraph (fold_left (pushInverseRef dst slug g) targets h) g =
    fold_left (pushInverse dst slug) targets (readGraph h g) /\
  GraphWf base g (fold_left (pushInverseRef dst slug g) targets h) /\
  frames h (fold_left (pushInverseRef dst slug g) targets h).
Proof.
  revert h. induction targets as [| t ts IH]; intros h Hwf; simpl.
  - auto using frames_refl.
  - destruct (@pushInverseRef_refines dst slug g h t Hwf) as [E [Hwf' Hf]].
    destruct (IH _ Hwf') as [E' [Hwf'' Hf']].
    rewrite E', E. eauto using frames_trans.
Qed.

Lemma inferKindRef_refines (src dst : RelKind) (slug : string) (g : GraphRef)
    (h : Heap.t) :
  GraphWf base g h ->
  readGraph (inferKindRef src dst slug g h) g =
    inferKind src dst slug (readGraph h g) /\
  GraphWf base g (inferKindRef src dst slug g h) /\
  frames h (inferKindRef src dst slug g h).
Proof.
  intros Hwf. unfold inferKindRef, inferKind. rewrite get_readGraph.
  destruct (JsMap.get slug g) as [rel |]; simpl.
  - rewrite field_readRel. now apply fold_pushInverseRef_refines.
  - auto using frames_refl.
Qed.
End PassRef.

Lemma GraphWf_set_same_refs (base : nat) (g : GraphRef) (h : Heap.t)
    (n : string) (rel rel' : RelRef.t) :
  GraphWf base g h ->
  JsMap.get n g = Some rel ->
  (forall k, fieldRef k rel' = fieldRef k rel) ->
  GraphWf base (JsMap.set n rel' g) h.
Proof.
  intros [Hk Hb Hs] Hget Hsame.
  pose proof (get_Some_In _ _ Hget) as Hin.
  assert (Hback : forall s x, In (s, x) (JsMap.set n rel' g) ->
            exists y, In (s, y) g /\ forall k, fieldRef k x = fieldRef k y).
  { intros s x H. apply In_set in H. destruct H as [[-> ->] | H]; eauto. }
  split.
  - rewrite keys_set_present; [assumption | congruence].
  - intros s x k H. destruct (Hback s x H) as [y [Hy E]]. rewrite E. eauto.
  - intros s1 x1 k1 s2 x2 k2 H1 H2 E.
    destruct (Hback s1 x1 H1) as [y1 [Hy1 E1]].
    destruct (Hback s2 x2 H2) as [y2 [Hy2 E2]].
    rewrite E1, E2 in E. eauto.
Qed.

Lemma inferNextRef_refines (base : nat) (slug : string) (g : GraphRef) (h : Heap.t) :
  GraphWf base g h ->
  readGraph h (inferNextRef slug g) = inferNext slug (readGraph h g) /\
  GraphWf base (inferNextRef slug g) h.
Proof.
  intros Hwf. unfold inferNextRef, inferNext. rewrite get_readGraph.
  destruct (JsMap.get slug g) as [rel |]; [| auto].
  cbn [option_map]. replace (Rel.next (readRel h rel)) with (RelRef.next rel)
    by (destruct rel; reflexivity).
  destruct (RelRef.next rel) as [n |]; [| auto].
  destruct (truthy (Some n)); [| auto].
  rewrite get_readGraph.
  destruct (JsMap.get n g) as [nextRel |] eqn:E; [| auto].
  cbn [option_map]. replace (Rel.prev (readRel h nextRel)) with (RelRef.prev nextRel)
    by (destruct nextRel; reflexivity).
  destruct (negb (truthy (RelRef.prev nextRel))); [| auto].
  split.
  - unfold readGraph. now rewrite mapVals_set, readRel_set_prevRef.
  - eapply GraphWf_set_same_refs; eauto. intros k. apply fieldRef_set_prevRef.
Qed.

Lemma inferPrevRef_refines (base : nat) (slug : string) (g : GraphRef) (h : Heap.t) :
  GraphWf base g h ->
  readGraph h (inferPrevRef slug g) = inferPrev slug (readGraph h g) /\
  GraphWf base (inferPrevRef slug g) h.
Proof.
  intros Hwf. unfold inferPrevRef, inferPrev. rewrite get_readGraph.
  destruct (JsMap.get slug g) as [rel |]; [| auto].
  cbn [option_map]. replace (Rel.prev (readRel h rel)) with (RelRef.prev rel)
    by (destruct rel; reflexivity).
  destruct (RelRef.prev rel) as [p |]; [| auto].
  destruct (truthy (Some p)); [| auto].
  rewrite get_readGraph.
  destruct (JsMap.get p g) as [prevRel |] eqn:E; [| auto].
  cbn [option_map]. replace (Rel.next (readRel h prevRel)) with (RelRef.next prevRel)
    by (destruct prevRel; reflexivity).
  destruct (negb (truthy (RelRef.next prevRel))); [| auto].
  split.
  - unfold readGraph. now rewrite mapVals_set, readRel_set_nextRef.
  - eapply GraphWf_set_same_refs; eauto. intros k. apply fieldRef_set_nextRef.
Qed.

Lemma keys_inferNextRef (slug : string) (g : GraphRef) :
  JsMap.keys (inferNextRef slug g) = JsMap.keys g.
Proof.
  unfold inferNextRef.
  destruct (JsMap.get slug g) as [rel |]; [| reflexivity].
  destruct (RelRef.next rel) as [n |]; [| reflexivity].
  destruct (truthy (Some n)); [| reflexivity].
  destruct (JsMap.get n g) as [nextRel |] eqn:E; [| reflexivity].
  destruct (negb (truthy (RelRef.prev nextRel))); [| reflexivity].
  apply keys_set_present. congruence.
Qed.

Lemma keys_inferPrevRef (slug : string) (g : GraphRef) :
  JsMap.keys (inferPrevRef slug g) = JsMap.keys g.
Proof.
  unfold inferPrevRef.
  destruct (JsMap.get slug g) as [rel |]; [| reflexivity].
  destruct (RelRef.prev rel) as [p |]; [| reflexivity].
  destruct (truthy (Some p)); [| reflexivity].
  destruct (JsMap.get p g) as [prevRel |] eqn:E; [| reflexivity].
  destruct (negb (truthy (RelRef.next prevRel))); [| reflexivity].
  apply keys_set_present. congruence.
Qed.

(** One page of the second pass on the heap is that page of the second
    pass on the arrays read from it. *)
Lemma inferPageRef_refines (base : nat) (g : GraphRef) (h : Heap.t) (slug : string) :
  GraphWf base g h ->
  let '(g', h') := inferPageRef (g, h) slug in
  readGraph h' g' = inferPage (readGraph h g) slug /\
  GraphWf base g' h' /\ frames base h h' /\
  JsMap.keys g' = JsMap.keys g.
Proof.
  intros W0. unfold inferPageRef, inferPage.
  destruct (inferKindRef_refines NTPP NTTPI slug W0) as [E1 [W1 F1]].
  destruct (inferKindRef_refines TPP TPPI slug W1) as [E2 [W2 F2]].
  destruct (inferKindRef_refines PO PO slug W2) as [E3 [W3 F3]].
  destruct (inferKindRef_refines EC EC slug W3) as [E4 [W4 F4]].
  destruct (inferKindRef_refines EQ EQ slug W4) as [E5 [W5 F5]].
  destruct (inferKindRef_refines DC DC slug W5) as [E6 [W6 F6]].
  destruct (inferNextRef_refines slug W6) as [E7 W7].
  destruct (inferPrevRef_refines slug W7) as [E8 W8].
  destruct (inferKindRef_refines R RI slug W8) as [E9 [W9 F9]].
  split; [| split; [exact W9 | split]].
  - rewrite E9, E8, E7, E6, E5, E4, E3, E2, E1. reflexivity.
  - eauto 10 using frames_trans.
  - now rewrite keys_inferPrevRef, keys_inferNextRef.
Qed.

Lemma fold_inferPageRef_refines (base : nat) (ks : list string)
    (g : GraphRef) (h : Heap.t) :
  GraphWf base g h ->
  let '(g', h') := fold_left inferPageRef ks (g, h) in
  readGraph h' g' = fold_left inferPage ks (readGraph h g) /\
  GraphWf base g' h' /\ frames base h h'.
Proof.
  revert g h. induction ks as [| s ks IH]; intros g h W; cbn [fold_left].
  - auto using frames_refl.
  - pose proof (@inferPageRef_refines base g h s W) as H1.
    destruct (inferPageRef (g, h) s) as [g1 h1].
    cbv beta iota in H1. destruct H1 as [E1 [W1 [F1 _]]].
    specialize (IH g1 h1 W1).
    destruct (fold_left inferPageRef ks (g1, h1)) as [g' h'].
    cbv beta iota in IH |- *.
    destruct IH as [E [W' F]]. rewrite <- E1.
    split; [exact E | split; [exact W' | eapply frames_trans; eauto]].
Qed.

Lemma secondPassRef_refines (base : nat) (g : GraphRef) (h : Heap.t) :
  GraphWf base g h ->
  let '(g', h') := secondPassRef g h in
  readGraph h' g' = secondPass (readGraph h g) /\
  GraphWf base g' h' /\ frames base h h'.
Proof.
  intros W. unfold secondPassRef, secondPass.
  unfold readGraph at 2. rewrite keys_mapVals.
  now apply fold_inferPageRef_refines.
Qed.

(** ** Arrays by reference: the first pass *)

Lemma read_app_ext (h ext : Heap.t) (n : nat) :
  Heap.read (h ++ ext) (n + List.length h) = nth n ext [].
Proof.
  unfold Heap.read. rewrite app_nth2 by lia. f_equal. lia.
Qed.

Lemma emptyRelationsRef_building (h : Heap.t) :
  Building h (emptyRelationsRef h) emptyRelations.
Proof.
  unfold Building, emptyRelationsRef. cbn [fst snd]. split; [eauto | split].
  - split.
    + intros k. rewrite length_app. destruct k; simpl; lia.
    + intros k1 k2. destruct k1, k2; simpl; intros E; try reflexivity; lia.
  - unfold readRel, emptyRelations. cbn [RelRef.ntpp RelRef.nttpi RelRef.tpp
      RelRef.tppi RelRef.po RelRef.ec RelRef.eq RelRef.dc RelRef.r RelRef.ri
      RelRef.next RelRef.prev].
    replace (List.length h) with (0 + List.length h) at 1 by reflexivity.
    rewrite !read_app_ext. reflexivity.
Qed.

Lemma assignNew_building (h0 : Heap.t) (k : RelKind) (v : list string)
    (st : RelRef.t * Heap.t) (p : PageRelations) :
  Building h0 st p -> Building h0 (assignNew k v st) (set_field k v p).
Proof.
  destruct st as [rel h]. unfold Building, assignNew, Heap.alloc. cbn [fst snd].
  intros [[ext ->] [[Hb Hinj] <-]].
  assert (Hlen : List.length h0 <= List.length (h0 ++ ext))
    by (rewrite length_app; lia).
  split; [exists (ext ++ [v]); now rewrite app_assoc | split; [split |]].
  - intros k'. rewrite fieldRef_set_fieldRef, (length_app (h0 ++ ext)). simpl.
    destruct (RelKind_eqb k' k); [lia |]. specialize (Hb k'). lia.
  - intros k1 k2. rewrite !fieldRef_set_fieldRef.
    destruct (RelKind_eqb k1 k) eqn:E1, (RelKind_eqb k2 k) eqn:E2.
    + apply RelKind_eqb_eq in E1, E2. congruence.
    + intros E. specialize (Hb k2). lia.
    + intros E. specialize (Hb k1). lia.
    + apply Hinj.
  - apply readRel_set_fieldRef.
    + apply read_app_new.
    + intros k' _. apply read_app_old. apply Hb.
Qed.

Lemma spreadInto_building (h0 : Heap.t) (k : RelKind) (declared : option Heap.loc)
    (st : RelRef.t * Heap.t) (p : PageRelations) :
  (forall src, declared = Some src -> src < List.length h0) ->
  Building h0 st p ->
  Building h0 (spreadInto k declared st)
    (match option_map (Heap.read h0) declared with
     | Some l => set_field k l p
     | None => p
     end).
Proof.
  intros Halloc HB. unfold spreadInto. destruct declared as [src |]; [| exact HB].
  cbn [option_map].
  assert (E : Heap.read (snd st) src = Heap.read h0 src).
  { destruct HB as [[ext ->] _]. apply read_app_old. now apply Halloc. }
  rewrite E. now apply assignNew_building.
Qed.

Lemma pointer_building (h0 : Heap.t) (st : RelRef.t * Heap.t) (p : PageRelations)
    (v : option string) :
  Building h0 st p ->
  Building h0 (set_nextRef v (fst st), snd st) (set_next v p) /\
  Building h0 (set_prevRef v (fst st), snd st) (set_prev v p).
Proof.
  intros [Hext [[Hb Hinj] <-]]. unfold Building. cbn [fst snd].
  split; (split; [assumption | split; [split |]]).
  - intros k. rewrite fieldRef_set_nextRef. apply Hb.
  - intros k1 k2. rewrite !fieldRef_set_nextRef. apply Hinj.
  - apply readRel_set_nextRef.
  - intros k. rewrite fieldRef_set_prevRef. apply Hb.
  - intros k1 k2. rewrite !fieldRef_set_prevRef. apply Hinj.
  - apply readRel_set_prevRef.
Qed.

Lemma declaredRelationsRef_building (knownSlugs : JsSet.t) (page : PageRef)
    (h : Heap.t) :
  (forall l, In (Some l) (pageRefs page) -> l < List.length h) ->
  Building h (declaredRelationsRef knownSlugs page h)
             (declaredRelations knownSlugs (readPage h page)).
Proof.
  intros Halloc. unfold declaredRelationsRef, declaredRelations.
  apply assignNew_building.
  apply pointer_building. apply pointer_building.
  cbn [data_ntpp data_tpp data_po data_ec data_eq data_dc readPage].
  repeat (apply spreadInto_building;
          [intros src E; apply Halloc; rewrite <- E; unfold pageRefs; simpl; tauto |]).
  apply emptyRelationsRef_building.
Qed.

Lemma readGraph_app_old (base : nat) (g : GraphRef) (h ext : Heap.t) :
  GraphWf base g h -> readGraph (h ++ ext) g = readGraph h g.
Proof.
  intros [_ Hb _]. unfold readGraph, mapVals.
  apply map_ext_in. intros [s rel] Hin. simpl. f_equal.
  apply readRel_ext. intros k. apply read_app_old. apply (Hb s rel k Hin).
Qed.

(** Setting a page to a relations object built after the graph keeps
    the arrays of the graph apart. *)
Lemma GraphWf_set_new (base : nat) (g : GraphRef) (h ext : Heap.t)
    (slug : string) (rel : RelRef.t) :
  base <= List.length h ->
  GraphWf base g h ->
  RelWf (List.length h) rel (h ++ ext) ->
  GraphWf base (JsMap.set slug rel g) (h ++ ext).
Proof.
  intros Hbase [Hk Hb Hs] [Hrb Hrinj].
  assert (Hcase : forall s x, In (s, x) (JsMap.set slug rel g) ->
            (s = slug /\ x = rel) \/ In (s, x) g) by (intros; now apply In_set).
  split.
  - now apply keys_set_NoDup.
  - intros s x k H. destruct (Hcase s x H) as [[-> ->] | Hin].
    + specialize (Hrb k). lia.
    + specialize (Hb s x k Hin). rewrite length_app. lia.
  - intros s1 x1 k1 s2 x2 k2 H1 H2 E.
    destruct (Hcase s1 x1 H1) as [[-> ->] | Hin1];
      destruct (Hcase s2 x2 H2) as [[-> ->] | Hin2].
    + split; [reflexivity | now apply Hrinj].
    + specialize (Hrb k1). specialize (Hb s2 x2 k2 Hin2). lia.
    + specialize (Hrb k2). specialize (Hb s1 x1 k1 Hin1). lia.
    + eauto.
Qed.

Lemma readPage_app_old (h ext : Heap.t) (page : PageRef) :
  (forall l, In (Some l) (pageRefs page) -> l < List.length h) ->
  readPage (h ++ ext) page = readPage h page.
Proof.
  intros Halloc. unfold readPage.
  assert (E : forall o, In o (pageRefs page) ->
            option_map (Heap.read (h ++ ext)) o = option_map (Heap.read h) o).
  { intros [l |] Hin; [| reflexivity]. simpl. f_equal.
    apply read_app_old. now apply Halloc. }
  rewrite !E by (unfold pageRefs; simpl; tauto). reflexivity.
Qed.

Lemma firstPassStepRef_refines (knownSlugs : JsSet.t) (h0 : Heap.t)
    (st : BuildState) (g : RelationsGraph) (p : PageInfoMap) (page : PageRef) :
  (forall l, In (Some l) (pageRefs page) -> l < List.length h0) ->
  FirstPassInv h0 st g p ->
  FirstPassInv h0 (firstPassStepRef knownSlugs st page)
    (fst (firstPassStep knownSlugs (g, p) (readPage h0 page)))
    (snd (firstPassStep knownSlugs (g, p) (readPage h0 page))).
Proof.
  intros Halloc [[ext Hext] [Hwf [<- <-]]].
  assert (Hlen : List.length h0 <= List.length (bs_heap st))
    by (rewrite Hext, length_app; lia).
  assert (Halloc' : forall l, In (Some l) (pageRefs page) ->
                      l < List.length (bs_heap st))
    by (intros l Hl; specialize (Halloc l Hl); lia).
  pose proof (@declaredRelationsRef_building knownSlugs page (bs_heap st) Halloc') as HB.
  unfold firstPassStepRef, firstPassStep.
  destruct (declaredRelationsRef knownSlugs page (bs_heap st)) as [rel h'].
  destruct HB as [[ext' Hh'] [Hrel Hread]]. cbn [fst snd] in *. subst h'.
  assert (Hpage : readPage (bs_heap st) page = readPage h0 page)
    by (rewrite Hext; now apply readPage_app_old).
  rewrite Hpage in Hread.
  unfold FirstPassInv. cbn [bs_heap bs_graph bs_pages fst snd id data_title readPage].
  split; [exists (ext ++ ext'); now rewrite Hext, app_assoc | split; [| split]].
  - now apply GraphWf_set_new.
  - unfold readGraph at 1. rewrite mapVals_set.
    fold (readGraph (bs_heap st ++ ext') (bs_graph st)).
    rewrite (@readGraph_app_old _ _ _ ext' Hwf), Hread. reflexivity.
  - reflexivity.
Qed.

Lemma fold_firstPassStepRef_refines (knownSlugs : JsSet.t) (h0 : Heap.t)
    (ps : list PageRef) (st : BuildState) (g : RelationsGraph) (p : PageInfoMap) :
  (forall page l, In page ps -> In (Some l) (pageRefs page) -> l < List.length h0) ->
  FirstPassInv h0 st g p ->
  FirstPassInv h0 (fold_left (firstPassStepRef knownSlugs) ps st)
    (fst (fold_left (firstPassStep knownSlugs) (readStore h0 ps) (g, p)))
    (snd (fold_left (firstPassStep knownSlugs) (readStore h0 ps) (g, p))).
Proof.
  revert st g p. induction ps as [| page ps IH]; intros st g p Halloc Hinv.
  - exact Hinv.
  - cbn [fold_left readStore map].
    pose proof (@firstPassStepRef_refines knownSlugs h0 st g p page
                  (fun l => Halloc page l (or_introl eq_refl)) Hinv) as Hstep.
    destruct (firstPassStep knownSlugs (g, p) (readPage h0 page)) as [g1 p1].
    apply IH; [| exact Hstep].
    intros q l Hq. apply Halloc. now right.
Qed.

Lemma firstPassRef_refines (allPages : list PageRef) (h0 : Heap.t) :
  storeAllocated allPages h0 ->
  FirstPassInv h0 (firstPassRef allPages h0)
    (fst (firstPass (readStore h0 allPages)))
    (snd (firstPass (readStore h0 allPages))).
Proof.
  intros Halloc. unfold firstPassRef, firstPass.
  replace (map id (readStore h0 allPages)) with (map ref_id allPages)
    by (unfold readStore; rewrite map_map; reflexivity).
  apply fold_firstPassStepRef_refines; [exact Halloc |].
  unfold FirstPassInv. cbn [bs_heap bs_graph bs_pages].
  split; [exists []; now rewrite app_nil_r | split; [| split; reflexivity]].
  split; [constructor | intros s rel k [] | intros s1 rel1 k1 s2 rel2 k2 []].
Qed.

(** ** Arrays by reference: the whole construction *)

Lemma buildRef_spec (allPages : list PageRef) (h0 : Heap.t) :
  storeAllocated allPages h0 ->
  let st := buildRelationsGraphRef allPages h0 in
  (readGraph (bs_heap st) (bs_graph st), bs_pages st) =
    buildRelationsGraph (readStore h0 allPages) /\
  List.length h0 <= List.length (bs_heap st) /\
  (forall l, l < List.length h0 -> Heap.read (bs_heap st) l = Heap.read h0 l) /\
  GraphWf (List.length h0) (bs_graph st) (bs_heap st).
Proof.
  intros Halloc. cbv zeta. unfold buildRelationsGraphRef.
  destruct (firstPassRef_refines Halloc) as [[ext Hext] [Hwf [Hg Hp]]].
  pose proof (secondPassRef_refines Hwf) as H2.
  destruct (secondPassRef (bs_graph (firstPassRef allPages h0))
                          (bs_heap (firstPassRef allPages h0))) as [g' h'].
  destruct H2 as [E [Hwf' [Hlen Hframe]]].
  cbn [bs_heap bs_graph bs_pages].
  rewrite buildRelationsGraph_eq, E, Hg, Hp.
  split; [reflexivity | split; [| split; [| exact Hwf']]].
  - rewrite Hlen, Hext, length_app. lia.
  - intros l Hl. rewrite (Hframe l Hl), Hext. now apply read_app_old.
Qed.

Lemma readStore_frame (allPages : list PageRef) (h h' : Heap.t) :
  storeAllocated allPages h ->
  (forall l, l < List.length h -> Heap.read h' l = Heap.read h l) ->
  readStore h' allPages = readStore h allPages.
Proof.
  intros Halloc Hframe. unfold readStore. apply map_ext_in. intros page Hin.
  unfold readPage.
  assert (E : forall o, In o (pageRefs page) ->
            option_map (Heap.read h') o = option_map (Heap.read h) o).
  { intros [l |] Ho; [| reflexivity]. simpl. f_equal.
    apply Hframe. eapply Halloc; eauto. }
  rewrite !E by (unfold pageRefs; simpl; tauto). reflexivity.
Qed.

(** X25. With every array an object in a heap, [buildRelationsGraph]
    computes the graph and the page infos of the construction on
    values: what the graph reads in the final heap is
    [buildRelationsGraph] of what the store read in the initial one. *)
Theorem buildRef_refines (allPages : list PageRef) (h0 : Heap.t) :
  storeAllocated allPages h0 ->
  let st := buildRelationsGraphRef allPages h0 in
  (readGraph (bs_heap st) (bs_graph st), bs_pages st) =
    buildRelationsGraph (readStore h0 allPages).
Proof. intros H. apply (buildRef_spec H). Qed.

Lemma buildRef_refines_witness :
  storeAllocated sharedStore sharedHeap /\
  let st := buildRelationsGraphRef sharedStore sharedHeap in
  (readGraph (bs_heap st) (bs_graph st), bs_pages st) =
    buildRelationsGraph (readStore sharedHeap sharedStore).
Proof.
  assert (H : storeAllocated sharedStore sharedHeap).
  { intros page l Hin Hl. simpl in Hin.
    destruct Hin as [<- | [<- | []]]; simpl in Hl;
      repeat (destruct Hl as [Hl | Hl]; [inversion Hl; subst; simpl; lia |]);
      destruct Hl. }
  split; [exact H | exact (@buildRef_refines sharedStore sharedHeap H)].
Defined.

(** X26. [buildRelationsGraph] writes no array of the page store: the
    second pass pushes to the arrays of the graph only, which the first pass
    made by spreading the declared ones.  After the construction the
    store reads as before, even when pages share a declared array. *)
Theorem build_leaves_store (allPages : list PageRef) (h0 : Heap.t) :
  storeAllocated allPages h0 ->
  let st := buildRelationsGraphRef allPages h0 in
  (forall l, l < List.length h0 -> Heap.read (bs_heap st) l = Heap.read h0 l) /\
  readStore (bs_heap st) allPages = readStore h0 allPages /\
  (forall s rel k, JsMap.get s (bs_graph st) = Some rel ->
     List.length h0 <= fieldRef k rel).
Proof.
  intros H. destruct (buildRef_spec H) as [_ [_ [Hframe Hwf]]]. cbv zeta.
  split; [exact Hframe | split].
  - now apply (@readStore_frame allPages h0).
  - intros s rel k Hget. apply get_Some_In in Hget.
    apply (wf_bounds Hwf s rel k Hget).
Qed.

Lemma build_leaves_store_witness :
  storeAllocated sharedStore sharedHeap /\
  let st := buildRelationsGraphRef sharedStore sharedHeap in
  (forall l, l < List.length sharedHeap ->
     Heap.read (bs_heap st) l = Heap.read sharedHeap l) /\
  readStore (bs_heap st) sharedStore = readStore sharedHeap sharedStore /\
  (forall s rel k, JsMap.get s (bs_graph st) = Some rel ->
     List.length sharedHeap <= fieldRef k rel).
Proof.
  assert (H : storeAllocated sharedStore sharedHeap).
  { intros page l Hin Hl. simpl in Hin.
    destruct Hin as [<- | [<- | []]]; simpl in Hl;
      repeat (destruct Hl as [Hl | Hl]; [inversion Hl; subst; simpl; lia |]);
      destruct Hl. }
  split; [exact H | exact (@build_leaves_store sharedStore sharedHeap H)].
Defined.

(** X27. A second construction, run on the heap the first one left,
    reads the same graph and page infos as the first. *)
Theorem build_twice_same (allPages : list PageRef) (h0 : Heap.t) :
  storeAllocated allPages h0 ->
  let st1 := buildRelationsGraphRef allPages h0 in
  let st2 := buildRelationsGraphRef allPages (bs_heap st1) in
  readGraph (bs_heap st2) (bs_graph st2) = readGraph (bs_heap st1) (bs_graph st1) /\
  bs_pages st2 = bs_pages st1 /\
  readGraph (bs_heap st2) (bs_graph st1) = readGraph (bs_heap st1) (bs_graph st1).
Proof.
  intros H. cbv zeta.
  destruct (buildRef_spec H) as [E1 [Hlen1 [Hframe1 Hwf1]]].
  assert (H' : storeAllocated allPages
                 (bs_heap (buildRelationsGraphRef allPages h0))).
  { intros page l Hin Hl. specialize (H page l Hin Hl). lia. }
  destruct (buildRef_spec H') as [E2 [Hlen2 [Hframe2 Hwf2]]].
  rewrite (@readStore_frame allPages h0 _ H Hframe1) in E2. rewrite <- E1 in E2.
  injection E2 as Eg Ep. split; [exact Eg | split; [exact Ep |]].
  unfold readGraph, mapVals. apply map_ext_in. intros [s rel] Hin.
  simpl. f_equal. apply readRel_ext. intros k. apply Hframe2.
  apply (wf_bounds Hwf1 s rel k Hin).
Qed.

Lemma build_twice_same_witness :
  storeAllocated sharedStore sharedHeap /\
  let st1 := buildRelationsGraphRef sharedStore sharedHeap in
  let st2 := buildRelationsGraphRef sharedStore (bs_heap st1) in
  readGraph (bs_heap st2) (bs_graph st2) = readGraph (bs_heap st1) (bs_graph st1) /\
  bs_pages st2 = bs_pages st1 /\
  readGraph (bs_heap st2) (bs_graph st1) = readGraph (bs_heap st1) (bs_graph st1).
Proof.
  assert (H : storeAllocated sharedStore sharedHeap).
  { intros page l Hin Hl. simpl in Hin.
    destruct Hin as [<- | [<- | []]]; simpl in Hl;
      repeat (destruct Hl as [Hl | Hl]; [inversion Hl; subst; simpl; lia |]);
      destruct Hl. }
  split; [exact H | exact (@build_twice_same sharedStore sharedHeap H)].
Defined.

(** The shared array of the example: both pages declare the array at
    reference 0; the graph holds two copies, and the inverse pushed to
    the copy of a does not reach the store. *)
Example shared_array_example :
  let st := buildRelationsGraphRef sharedStore sharedHeap in
  Heap.read (bs_heap st) 0 = ["b"; "a"] /\
  option_map (fun rel => Heap.read (bs_heap st) (RelRef.po rel))
             (JsMap.get "a" (bs_graph st)) = Some ["b"; "a"] /\
  option_map (fun rel => Heap.read (bs_heap st) (RelRef.ri rel))
             (JsMap.get "a" (bs_graph st)) = Some ["b"].
Proof. vm_compute. auto. Qed.

(** ** Paths and slugs *)

Lemma startsWith_slash (s : string) : startsWith (String "/" s) "/" = true.
Proof. unfold startsWith. simpl. now destruct s. Qed.

Lemma startsWith_slash_app (s : string) : startsWith ("/" ++ s) "/" = true.
Proof. apply startsWith_slash. Qed.

Lemma prefix_cons_head (a b : ascii) (p s : string) :
  String.prefix (String a p) (String b s) = true -> a = b.
Proof. simpl. destruct (ascii_dec a b); [auto | discriminate]. Qed.

Lemma startsWith_dotslash (s : string) : startsWith ("./" ++ s) "./" = true.
Proof. unfold startsWith. simpl. now destruct s. Qed.

Lemma normalizePath_dotslash (x : string) :
  normalizePath ("./" ++ x) = normalizePath ("/" ++ x).
Proof.
  unfold normalizePath. rewrite startsWith_dotslash.
  change (startsWith ("/" ++ x) "./") with false. reflexivity.
Qed.

Lemma endsWithSlash_cons (c : ascii) (s : string) :
  s <> "" -> endsWithSlash (String c s) = endsWithSlash s.
Proof. destruct s; [congruence | reflexivity]. Qed.

Lemma endsWithSlash_snoc (s : string) : endsWithSlash (s ++ "/") = true.
Proof.
  induction s as [| c s IH]; [reflexivity |].
  cbn [append]. rewrite endsWithSlash_cons; [exact IH |].
  destruct s; discriminate.
Qed.

Lemma sliceInit_snoc (s : string) : sliceInit (s ++ "/") = s.
Proof.
  induction s as [| c s IH]; [reflexivity |].
  cbn [append]. cbn [sliceInit]. destruct (s ++ "/")%string eqn:E.
  - destruct s; discriminate.
  - now rewrite IH.
Qed.

(** X1. [pathToSlug] undoes [slugToPath] on every slug but the empty
    one, whose path [/] is that of [index]; [slugToPath] undoes
    [pathToSlug] on every path that starts with a slash but [/index],
    which is read as [index] and written back as [/]. *)
Theorem slug_path_round_trip (s p : string) :
  pathToSlug (slugToPath s) = (if s =? "" then "index" else s) /\
  (startsWith p "/" = true ->
   slugToPath (pathToSlug p) = (if p =? "/index" then "/" else p)).
Proof.
  split.
  - unfold slugToPath. destruct (s =? "index") eqn:E.
    + apply String.eqb_eq in E. subst. reflexivity.
    + unfold pathToSlug. destruct s as [| c s]; [reflexivity |].
      reflexivity.
  - intros Hp. destruct p as [| c p]; [discriminate |].
    assert ("/"%char = c) by (eapply prefix_cons_head; exact Hp).
    subst c. unfold pathToSlug. destruct p as [| d p]; [reflexivity |].
    change (String "/" (String d p) =? "/") with false.
    rewrite startsWith_slash. cbn [slice1]. unfold slugToPath.
    destruct (String d p =? "index") eqn:E.
    + apply String.eqb_eq in E. rewrite E. reflexivity.
    + replace (String "/" (String d p) =? "/index") with (String d p =? "index")
        by reflexivity.
      rewrite E. reflexivity.
Qed.

Lemma slug_path_round_trip_witness :
  startsWith "/notes/a" "/" = true /\
  pathToSlug (slugToPath "notes/a") = "notes/a" /\
  slugToPath (pathToSlug "/notes/a") = "/notes/a".
Proof.
  assert (H : startsWith "/notes/a" "/" = true) by reflexivity.
  split; [exact H | split].
  - exact (proj1 (slug_path_round_trip "notes/a" "/notes/a")).
  - exact (proj2 (slug_path_round_trip "notes/a" "/notes/a") H).
Defined.

(** X2. The forms [x], [./x], [/x] and [/x/] of a target normalise to
    the one path [/x], for a non-empty [x] that starts with neither [/]
    nor [./] and does not end with [/]. *)
Theorem normalizePath_forms (x : string) :
  x <> "" ->
  startsWith x "/" = false -> startsWith x "./" = false ->
  endsWithSlash x = false ->
  normalizePath x = ("/" ++ x)%string /\
  normalizePath ("./" ++ x) = ("/" ++ x)%string /\
  normalizePath ("/" ++ x) = ("/" ++ x)%string /\
  normalizePath ("/" ++ x ++ "/") = ("/" ++ x)%string.
Proof.
  intros Hne Hs Hd He.
  assert (E1 : endsWithSlash ("/" ++ x) = false).
  { cbn [append]. now rewrite endsWithSlash_cons. }
  assert (Hmain : normalizePath ("/" ++ x) = ("/" ++ x)%string).
  { unfold normalizePath. change (startsWith ("/" ++ x) "./") with false.
    cbv iota. rewrite startsWith_slash_app.
    now rewrite E1. }
  repeat split.
  - unfold normalizePath. rewrite Hd, Hs. now rewrite E1.
  - now rewrite normalizePath_dotslash.
  - exact Hmain.
  - unfold normalizePath.
    change (startsWith ("/" ++ x ++ "/") "./") with false. cbv iota.
    rewrite startsWith_slash_app.
    change ("/" ++ x ++ "/")%string with (("/" ++ x) ++ "/")%string.
    rewrite endsWithSlash_snoc, sliceInit_snoc.
    destruct x; [congruence |]. reflexivity.
Qed.

Lemma normalizePath_forms_witness :
  "notes" <> "" /\ startsWith "notes" "/" = false /\
  startsWith "notes" "./" = false /\ endsWithSlash "notes" = false /\
  normalizePath "notes" = "/notes" /\
  normalizePath "./notes" = "/notes" /\
  normalizePath "/notes" = "/notes" /\
  normalizePath "/notes/" = "/notes".
Proof.
  assert (H1 : "notes" <> "") by discriminate.
  assert (H2 : startsWith "notes" "/" = false) by reflexivity.
  assert (H3 : startsWith "notes" "./" = false) by reflexivity.
  assert (H4 : endsWithSlash "notes" = false) by reflexivity.
  split; [exact H1 | split; [exact H2 | split; [exact H3 | split; [exact H4 |]]]].
  exact (@normalizePath_forms "notes" H1 H2 H3 H4).
Defined.

(** X3. The address the graph view opens for a page is one the link
    extractor reads back as that page: it is not skipped, and its
    normalised path gives the slug, for every slug but the empty one. *)
Theorem slugToHref_resolves (s : string) :
  s <> "" ->
  skipped (slugToHref s) = false /\
  normalizePath (slugToHref s) = slugToPath s /\
  pathToSlug (normalizePath (slugToHref s)) = s.
Proof.
  intros Hne.
  assert (Hn : normalizePath (slugToHref s) = slugToPath s).
  { unfold slugToHref, slugToPath. destruct (s =? "index"); [reflexivity |].
    unfold normalizePath.
    change (startsWith ("/" ++ s ++ "/") "./") with false. cbv iota.
    rewrite startsWith_slash_app.
    change ("/" ++ s ++ "/")%string with (("/" ++ s) ++ "/")%string.
    rewrite endsWithSlash_snoc, sliceInit_snoc.
    destruct s; [congruence |]. reflexivity. }
  split; [| split; [exact Hn |]].
  - unfold slugToHref. destruct (s =? "index"); reflexivity.
  - rewrite Hn. unfold slugToPath. destruct (s =? "index") eqn:E.
    + apply String.eqb_eq in E. now subst.
    + destruct s; [congruence | reflexivity].
Qed.

Lemma slugToHref_resolves_witness :
  "notes/a" <> "" /\
  skipped (slugToHref "notes/a") = false /\
  normalizePath (slugToHref "notes/a") = slugToPath "notes/a" /\
  pathToSlug (normalizePath (slugToHref "notes/a")) = "notes/a".
Proof.
  assert (H : "notes/a" <> "") by discriminate.
  split; [exact H | exact (@slugToHref_resolves "notes/a" H)].
Defined.

(** ** The link extractor: what it returns *)

(** X4. [extractLinkSlugs] returns known slugs only, never the slug of
    the source page, and no slug twice. *)
Theorem extractLinkSlugs_output (body sourceSlug : string) (knownSlugs : JsSet.t) :
  NoDup (extractLinkSlugs body sourceSlug knownSlugs) /\
  forall s, In s (extractLinkSlugs body sourceSlug knownSlugs) ->
    JsSet.has knownSlugs s = true /\ s <> sourceSlug.
Proof.
  rewrite extractLinkSlugs_fold. split.
  - apply extract_fold_NoDup. constructor.
  - intros s H. apply extract_fold_origin in H.
    destruct H as [[] | [href [_ [_ [_ H]]]]]. exact H.
Qed.

(** ** The link pattern *)

Lemma contains_app (c : ascii) (a b : string) :
  contains c (a ++ b) = contains c a || contains c b.
Proof.
  induction a as [| x a IH]; [reflexivity |].
  cbn [append contains]. rewrite IH. now rewrite orb_assoc.
Qed.

Lemma take_until_spec (c : ascii) (s pre post : string) :
  take_until c s = Some (pre, post) ->
  s = (pre ++ String c post)%string /\ contains c pre = false.
Proof.
  revert pre post. induction s as [| a s IH]; intros pre post; simpl; [discriminate |].
  destruct (Ascii.eqb a c) eqn:E.
  - apply Ascii.eqb_eq in E. subst a. intros [= <- <-]. auto.
  - destruct (take_until c s) as [[pre' post'] |]; [| discriminate].
    intros [= <- <-]. destruct (IH pre' post' eq_refl) as [-> H].
    split; [reflexivity |]. cbn [contains]. now rewrite E, H.
Qed.

Lemma take_until_app (c : ascii) (pre post : string) :
  contains c pre = false ->
  take_until c (pre ++ String c post) = Some (pre, post).
Proof.
  induction pre as [| a pre IH]; intros H.
  - cbn [append take_until]. now rewrite Ascii.eqb_refl.
  - cbn [contains] in H. apply orb_false_iff in H. destruct H as [Ha H].
    cbn [append take_until]. now rewrite Ha, IH.
Qed.

(** A well-formed link: [[label](href)] with a non-empty label without
    [']'] and a non-empty target without [')']. *)
Lemma match_here_spec (s href : string) (len : nat) :
  match_here s = Some (href, len) <->
  exists label rest,
    s = ("[" ++ label ++ "](" ++ href ++ ")" ++ rest)%string /\
    label <> "" /\ href <> "" /\
    contains "]" label = false /\ contains ")" href = false /\
    len = 4 + String.length label + String.length href.
Proof.
  split.
  - unfold match_here. destruct s as [| c s1]; [discriminate |].
    destruct (Ascii.eqb c "[") eqn:Ec.
    2:{ destruct c as [[] [] [] [] [] [] [] []]; try discriminate. }
    apply Ascii.eqb_eq in Ec. subst c.
    destruct (take_until "]" s1) as [[label r1] |] eqn:E1; [| discriminate].
    destruct r1 as [| c2 s2]; [discriminate |].
    destruct (Ascii.eqb c2 "(") eqn:Ec2.
    2:{ destruct c2 as [[] [] [] [] [] [] [] []]; try discriminate. }
    apply Ascii.eqb_eq in Ec2. subst c2.
    destruct (take_until ")" s2) as [[h rest] |] eqn:E2; [| discriminate].
    destruct (label =? "") eqn:El; [discriminate |].
    destruct (h =? "") eqn:Eh; [discriminate |]. simpl.
    intros [= <- <-].
    apply take_until_spec in E1, E2. destruct E1 as [-> H1], E2 as [-> H2].
    apply String.eqb_neq in El, Eh.
    exists label, rest. repeat split; auto.
  - intros [label [rest [-> [Hl [Hh [Cl [Ch ->]]]]]]].
    cbn [append]. unfold match_here.
    replace (label ++ "](" ++ href ++ ")" ++ rest)%string
      with (label ++ String "]" (String "(" (href ++ String ")" rest)))%string
      by reflexivity.
    rewrite (@take_until_app _ label _ Cl), (@take_until_app _ href _ Ch).
    apply String.eqb_neq in Hl, Hh. now rewrite Hl, Hh.
Qed.

Lemma drop_drop (n m : nat) (s : string) : drop n (drop m s) = drop (m + n) s.
Proof.
  revert s. induction m as [| m IH]; intros s; [reflexivity |].
  destruct s as [| c s]; simpl; [now destruct n | apply IH].
Qed.

Lemma search_origin (pos : nat) (s href : string) (j : nat) :
  search pos s = Some (href, j) ->
  exists n len, match_here (drop n s) = Some (href, len).
Proof.
  revert pos. induction s as [| c s IH]; intros pos.
  - simpl. discriminate.
  - cbn [search]. destruct (match_here (String c s)) as [[h len] |] eqn:E.
    + intros [= <- <-]. now exists 0, len.
    + intros H. destruct (IH _ H) as [n [len Hm]]. now exists (S n), len.
Qed.

Lemma regex_exec_origin (body href : string) (i j : nat) :
  regex_exec body i = Some (href, j) ->
  exists n len, match_here (drop n body) = Some (href, len).
Proof.
  unfold regex_exec. destruct (Nat.ltb (String.length body) i); [discriminate |].
  intros H. apply search_origin in H. destruct H as [n [len H]].
  rewrite drop_drop in H. eauto.
Qed.

Lemma targetsFrom_origin (fuel : nat) (body : string) (i : nat)
    (hrefs : list string) (href : string) :
  targetsFrom fuel body i = Some hrefs -> In href hrefs ->
  exists n len, match_here (drop n body) = Some (href, len).
Proof.
  revert i hrefs. induction fuel as [| fuel IH]; intros i hrefs; simpl; [discriminate |].
  destruct (regex_exec body i) as [[h j] |] eqn:E.
  - destruct (targetsFrom fuel body j) as [hs |] eqn:Et; [| discriminate].
    intros [= <-] [<- | Hin]; [eapply regex_exec_origin; eauto | eauto].
  - intros [= <-] [].
Qed.

Lemma linkTargets_origin (body href : string) :
  In href (linkTargets body) ->
  exists n len, match_here (drop n body) = Some (href, len).
Proof.
  unfold linkTargets.
  destruct (targetsFrom (S (String.length body)) body 0) as [hs |] eqn:E;
    [| intros []].
  eapply targetsFrom_origin; eauto.
Qed.

Lemma contains_drop (c : ascii) (n : nat) (s : string) :
  contains c (drop n s) = true -> contains c s = true.
Proof.
  revert s. induction n as [| n IH]; intros s; [auto |].
  destruct s as [| a s]; simpl; [auto |].
  intros H. rewrite (IH _ H). apply orb_true_r.
Qed.

(** X5. Every target the pattern yields is non-empty and has no closing
    parenthesis, and a body that lacks one of the four characters of
    the pattern yields none: a link without its closing parenthesis is
    no link. *)
Theorem link_targets_shape (body : string) :
  (forall href, In href (linkTargets body) ->
     href <> "" /\ contains ")" href = false) /\
  (contains "[" body = false \/ contains "]" body = false \/
   contains "(" body = false \/ contains ")" body = false ->
   linkTargets body = []).
Proof.
  split.
  - intros href H. apply linkTargets_origin in H.
    destruct H as [n [len H]]. apply match_here_spec in H.
    destruct H as [label [rest [_ [_ [Hh [_ [Ch _]]]]]]]. auto.
  - intros Hlack. destruct (linkTargets body) as [| href hs] eqn:E; [reflexivity |].
    exfalso.
    assert (Hin : In href (linkTargets body)) by (rewrite E; now left).
    apply linkTargets_origin in Hin. destruct Hin as [n [len H]].
    apply match_here_spec in H.
    destruct H as [label [rest [Hs _]]].
    assert (Hall : forall c, In c ["["; "]"; "("; ")"]%char ->
                     contains c body = true).
    { intros c Hc. apply contains_drop with (n := n). rewrite Hs.
      rewrite !contains_app.
      simpl in Hc. destruct Hc as [<- | [<- | [<- | [<- | []]]]];
        simpl; rewrite ?orb_true_r; reflexivity. }
    destruct Hlack as [H | [H | [H | H]]];
      rewrite Hall in H; try discriminate; simpl; auto.
Qed.

Lemma link_targets_shape_witness :
  (contains "[" "see [a](/b" = false \/ contains "]" "see [a](/b" = false \/
   contains "(" "see [a](/b" = false \/ contains ")" "see [a](/b" = false) /\
  linkTargets "see [a](/b" = [].
Proof.
  assert (H : contains "[" "see [a](/b" = false \/ contains "]" "see [a](/b" = false \/
              contains "(" "see [a](/b" = false \/ contains ")" "see [a](/b" = false)
    by (right; right; right; reflexivity).
  split; [exact H | exact (proj2 (link_targets_shape "see [a](/b") H)].
Defined.

Lemma search_shift (k pos : nat) (s : string) :
  search (k + pos) s =
  option_map (fun r => (fst r, k + snd r)) (search pos s).
Proof.
  revert pos. induction s as [| c s IH]; intros pos.
  - reflexivity.
  - cbn [search]. destruct (match_here (String c s)) as [[h len] |].
    + simpl. f_equal. f_equal. lia.
    + replace (S (k + pos)) with (k + S pos) by lia. apply IH.
Qed.

Lemma drop_app_length (pre rest : string) (i : nat) :
  drop (String.length pre + i) (pre ++ rest) = drop i rest.
Proof. induction pre as [| c pre IH]; [reflexivity | exact IH]. Qed.

Lemma append_assoc (a b c : string) :
  ((a ++ b) ++ c)%string = (a ++ (b ++ c))%string.
Proof. induction a as [| x a IH]; simpl; [reflexivity | now rewrite IH]. Qed.

Lemma length_append (a b : string) :
  String.length (a ++ b) = String.length a + String.length b.
Proof. induction a as [| c a IH]; simpl; [reflexivity | now rewrite IH]. Qed.

Lemma regex_exec_shift (pre rest : string) (i : nat) :
  regex_exec (pre ++ rest) (String.length pre + i) =
  option_map (fun r => (fst r, String.length pre + snd r)) (regex_exec rest i).
Proof.
  unfold regex_exec. rewrite length_append, drop_app_length.
  destruct (Nat.ltb (String.length rest) i) eqn:E.
  - apply Nat.ltb_lt in E.
    replace (Nat.ltb (String.length pre + String.length rest)
                     (String.length pre + i)) with true
      by (symmetry; apply Nat.ltb_lt; lia).
    reflexivity.
  - apply Nat.ltb_ge in E.
    replace (Nat.ltb (String.length pre + String.length rest)
                     (String.length pre + i)) with false
      by (symmetry; apply Nat.ltb_ge; lia).
    apply search_shift.
Qed.

(** The matches after a prefix are those of what follows it. *)
Lemma targetsFrom_shift (fuel : nat) (pre rest : string) (i : nat) :
  targetsFrom fuel (pre ++ rest) (String.length pre + i) =
  targetsFrom fuel rest i.
Proof.
  revert i. induction fuel as [| fuel IH]; intros i; [reflexivity |].
  cbn [targetsFrom]. rewrite regex_exec_shift.
  destruct (regex_exec rest i) as [[h j] |]; [| reflexivity].
  cbn [option_map fst snd]. now rewrite IH.
Qed.

(** Fuel beyond what the loop needs changes nothing. *)
Lemma targetsFrom_fuel (body : string) (fuel1 fuel2 i : nat) :
  String.length body - i < fuel1 -> String.length body - i < fuel2 ->
  targetsFrom fuel1 body i = targetsFrom fuel2 body i.
Proof.
  revert fuel2 i. induction fuel1 as [| fuel1 IH]; intros fuel2 i H1 H2; [lia |].
  destruct fuel2 as [| fuel2]; [lia |].
  cbn [targetsFrom]. destruct (regex_exec body i) as [[h j] |] eqn:E; [| reflexivity].
  apply regex_exec_bounds in E. rewrite (IH fuel2 j); [reflexivity | lia | lia].
Qed.

(** X6. A body that begins with a well-formed link yields the target of
    that link, then the targets of what follows the link. *)
Theorem link_then_rest (label href rest : string) :
  label <> "" -> href <> "" ->
  contains "]" label = false -> contains ")" href = false ->
  linkTargets ("[" ++ label ++ "](" ++ href ++ ")" ++ rest) =
  href :: linkTargets rest.
Proof.
  intros Hl Hh Cl Ch.
  set (link := ("[" ++ label ++ "](" ++ href ++ ")")%string).
  assert (Hbody : ("[" ++ label ++ "](" ++ href ++ ")" ++ rest)%string
                  = (link ++ rest)%string).
  { unfold link. now rewrite !append_assoc. }
  assert (Hlen : String.length link = 4 + String.length label + String.length href).
  { unfold link. cbn [append String.length]. rewrite !length_append.
    cbn [String.length]. rewrite length_append. simpl. lia. }
  assert (Hm : match_here (link ++ rest) = Some (href, String.length link)).
  { rewrite Hlen. apply match_here_spec. exists label, rest.
    rewrite <- Hbody. auto 10. }
  rewrite Hbody. unfold linkTargets at 1.
  cbn [targetsFrom]. unfold regex_exec at 1. cbn [drop Nat.ltb Nat.leb].
  assert (Hs : search 0 (link ++ rest) = Some (href, String.length link)).
  { destruct (link ++ rest)%string eqn:E; cbn [search]; rewrite Hm; reflexivity. }
  rewrite Hs. cbn [option_map].
  pose proof (targetsFrom_shift (String.length (link ++ rest)) link rest 0) as Hsh.
  rewrite Nat.add_0_r in Hsh. rewrite Hsh.
  rewrite (@targetsFrom_fuel rest _ (S (String.length rest)) 0);
    [| rewrite length_append; lia | lia].
  unfold linkTargets.
  destruct (@targetsFrom_terminates rest (S (String.length rest)) 0) as [hs ->];
    [lia | reflexivity].
Qed.

Lemma link_then_rest_witness :
  "home" <> "" /\ "/index" <> "" /\
  contains "]" "home" = false /\ contains ")" "/index" = false /\
  linkTargets "[home](/index) and [b](/b)" = "/index" :: linkTargets " and [b](/b)".
Proof.
  assert (H1 : "home" <> "") by discriminate.
  assert (H2 : "/index" <> "") by discriminate.
  assert (H3 : contains "]" "home" = false) by reflexivity.
  assert (H4 : contains ")" "/index" = false) by reflexivity.
  split; [exact H1 | split; [exact H2 | split; [exact H3 | split; [exact H4 |]]]].
  exact (@link_then_rest "home" "/index" " and [b](/b)" H1 H2 H3 H4).
Defined.

(** ** The graph and the store *)

Lemma keys_set_add (V : Type) (k : string) (v : V) (m : JsMap.t V) :
  JsMap.keys (JsMap.set k v m) = JsSet.add (JsMap.keys m) k.
Proof.
  unfold JsSet.add, JsSet.has. destruct (JsMap.get k m) as [x |] eqn:E.
  - rewrite keys_set_present by congruence.
    apply get_Some_in_keys in E. apply includes_In in E. now rewrite E.
  - rewrite keys_set_absent by assumption.
    assert (H : ~ In k (JsMap.keys m)) by (rewrite <- get_in_keys; congruence).
    apply includes_false in H. now rewrite H.
Qed.

Lemma of_list_snoc (l : list string) (x : string) :
  JsSet.of_list (l ++ [x]) = JsSet.add (JsSet.of_list l) x.
Proof. unfold JsSet.of_list. now rewrite fold_left_app. Qed.

Lemma firstPass_keys_order (allPages : list Page) :
  JsMap.keys (fst (firstPass allPages)) = JsSet.of_list (map id allPages) /\
  JsMap.keys (snd (firstPass allPages)) = JsSet.of_list (map id allPages).
Proof.
  unfold firstPass. generalize (JsSet.of_list (map id allPages)) at 1 3.
  intros known. induction allPages as [| page ps IH] using rev_ind.
  - split; reflexivity.
  - rewrite run_snoc. cbn [fst snd]. rewrite !keys_set_add, map_app.
    cbn [map]. rewrite of_list_snoc.
    destruct IH as [-> ->]. split; reflexivity.
Qed.

(** X7. The graph and the page-info map have one entry for each page id
    of the store, in the order the ids first occur; a declared target
    or a link that names no page adds no entry. *)
Theorem graph_keys_are_page_ids (allPages : list Page) :
  JsMap.keys (fst (buildRelationsGraph allPages)) = JsSet.of_list (map id allPages) /\
  JsMap.keys (snd (buildRelationsGraph allPages)) = JsSet.of_list (map id allPages) /\
  NoDup (JsMap.keys (fst (buildRelationsGraph allPages))) /\
  forall s, In s (JsMap.keys (fst (buildRelationsGraph allPages))) <->
            In s (map id allPages).
Proof.
  rewrite buildRelationsGraph_eq. cbn [fst snd]. rewrite keys_secondPass.
  destruct (firstPass_keys_order allPages) as [E1 E2].
  split; [exact E1 | split; [exact E2 | split]].
  - apply firstPass_keys_NoDup.
  - apply firstPass_keys.
Qed.

Lemma NoDup_map_inj (A B : Type) (f : A -> B) (l : list A) (a b : A) :
  NoDup (map f l) -> In a l -> In b l -> f a = f b -> a = b.
Proof.
  induction l as [| x l IH]; intros Hnd Ha Hb E; [destruct Ha |].
  simpl in Hnd. inversion Hnd as [| ? ? Hnot Hnd']; subst.
  destruct Ha as [-> | Ha], Hb as [-> | Hb]; auto.
  - exfalso. apply Hnot. rewrite E. now apply in_map.
  - exfalso. apply Hnot. rewrite <- E. now apply in_map.
Qed.

Lemma declaredRelations_fields (known : JsSet.t) (page : Page) :
  declaredRelations known page =
  Rel.mk (orEmpty (data_ntpp page)) [] (orEmpty (data_tpp page)) []
         (orEmpty (data_po page)) (orEmpty (data_ec page))
         (orEmpty (data_eq page)) (orEmpty (data_dc page))
         (data_next page) (data_prev page)
         (extractLinkSlugs (match body page with Some b => b | None => "" end)
                           (id page) known)
         [].
Proof.
  unfold declaredRelations.
  destruct (data_ntpp page), (data_tpp page), (data_po page), (data_ec page),
    (data_eq page), (data_dc page); reflexivity.
Qed.

Lemma firstPass_unique_get (allPages : list Page) (page : Page) :
  NoDup (map id allPages) -> In page allPages ->
  JsMap.get (id page) (fst (firstPass allPages)) =
    Some (declaredRelations (JsSet.of_list (map id allPages)) page) /\
  JsMap.get (id page) (snd (firstPass allPages)) =
    Some (mkInfo (id page) (data_title page)).
Proof.
  intros Hnd Hin. unfold firstPass.
  generalize (JsSet.of_list (map id allPages)). intros known.
  induction allPages as [| q ps IH] using rev_ind; [destruct Hin |].
  rewrite run_snoc. cbn [fst snd]. rewrite !get_set.
  rewrite map_app in Hnd. apply NoDup_remove in Hnd. simpl in Hnd.
  rewrite app_nil_r in Hnd. destruct Hnd as [Hnd Hq].
  apply in_app_or in Hin. destruct Hin as [Hin | [-> | []]].
  - destruct (id page =? id q) eqn:E.
    + apply String.eqb_eq in E. exfalso. apply Hq. rewrite <- E. now apply in_map.
    + now apply IH.
  - now rewrite String.eqb_refl.
Qed.

(** ** Inferred arrays hold inverses only *)

Lemma dirPass_sound (fwd : JsMap.t (list string)) (ks : list string)
    (inv : JsMap.t (list string)) (s x : string) (l' : list string) :
  JsMap.get s (fold_left (dirStep fwd) ks inv) = Some l' -> In x l' ->
  (exists l, JsMap.get s inv = Some l /\ In x l) \/
  (exists lx, JsMap.get x fwd = Some lx /\ In s lx).
Proof.
  revert inv l'. induction ks as [| a ks IH]; intros inv l' Hget Hin.
  - left. eauto.
  - simpl in Hget. destruct (IH _ _ Hget Hin) as [[l [Hl Hx]] | H]; [| now right].
    rewrite get_dirStep in Hl.
    destruct (JsMap.get s inv) as [l0 |]; [| discriminate].
    simpl in Hl. injection Hl as <-.
    destruct (includes (targetsOf fwd a) s) eqn:E; [| left; eauto].
    apply addUnique_In in Hx. destruct Hx as [Hx | ->]; [left; eauto |].
    right. apply includes_In in E. unfold targetsOf in E.
    destruct (JsMap.get a fwd) as [la |]; [eauto | destruct E].
Qed.

Lemma secondPass_inverse_sound (g : RelationsGraph) (src dst : RelKind)
    (A B : string) (relB : PageRelations) :
  (src, dst) = (NTPP, NTTPI) \/ (src, dst) = (TPP, TPPI) \/ (src, dst) = (R, RI) ->
  JsMap.get B (secondPass g) = Some relB ->
  In A (field dst relB) ->
  (exists rel0, JsMap.get B g = Some rel0 /\ In A (field dst rel0)) \/
  (exists relA, JsMap.get A (secondPass g) = Some relA /\ In B (field src relA)).
Proof.
  intros Hk HB Hin.
  assert (Hsrc : src = NTPP \/ src = TPP \/ src = R)
    by (destruct Hk as [H | [H | H]]; inversion H; auto).
  pose proof (get_field dst _ _ HB) as HB'.
  unfold secondPass in HB'. rewrite (proj_pass_inverse _ _ Hk) in HB'.
  destruct (dirPass_sound _ _ _ _ _ HB' Hin) as [[l [Hl Hx]] | [lx [Hlx Hx]]].
  - left. rewrite get_mapVals in Hl.
    destruct (JsMap.get B g) as [rel0 |]; [| discriminate].
    injection Hl as <-. eauto.
  - right. rewrite get_mapVals in Hlx.
    destruct (JsMap.get A g) as [relA0 |] eqn:EA; [| discriminate].
    injection Hlx as <-.
    destruct (JsMap.get A (secondPass g)) as [relA |] eqn:EA'.
    2:{ apply (proj1 (secondPass_defined g A)) in EA'. congruence. }
    exists relA. split; [reflexivity |].
    now rewrite (@secondPass_forward_kept g src A relA0 relA Hsrc EA EA').
Qed.

Lemma firstPass_inferred_empty (allPages : list Page) (s : string)
    (rel0 : PageRelations) :
  JsMap.get s (fst (firstPass allPages)) = Some rel0 ->
  Rel.nttpi rel0 = [] /\ Rel.tppi rel0 = [] /\ Rel.ri rel0 = [].
Proof.
  intros H. destruct (firstPass_graph_get _ _ H) as [page [_ [_ ->]]].
  rewrite declaredRelations_fields. auto.
Qed.

(** X9. The inferred arrays hold inverses only: after
    [buildRelationsGraph], A in [graph[B].nttpi] means that A is a page
    with B in [graph[A].ntpp]; likewise for [tppi] and [tpp], and for
    [ri] and [r]. *)
Theorem inverse_soundness (allPages : list Page) (A B : string)
    (relB : PageRelations) :
  JsMap.get B (fst (buildRelationsGraph allPages)) = Some relB ->
  (In A (Rel.nttpi relB) ->
   exists relA, JsMap.get A (fst (buildRelationsGraph allPages)) = Some relA /\
                In B (Rel.ntpp relA)) /\
  (In A (Rel.tppi relB) ->
   exists relA, JsMap.get A (fst (buildRelationsGraph allPages)) = Some relA /\
                In B (Rel.tpp relA)) /\
  (In A (Rel.ri relB) ->
   exists relA, JsMap.get A (fst (buildRelationsGraph allPages)) = Some relA /\
                In B (Rel.r relA)).
Proof.
  rewrite buildRelationsGraph_eq. cbn [fst]. intros HB.
  assert (Hgen : forall src dst,
    (src, dst) = (NTPP, NTTPI) \/ (src, dst) = (TPP, TPPI) \/ (src, dst) = (R, RI) ->
    In A (field dst relB) ->
    exists relA, JsMap.get A (secondPass (fst (firstPass allPages))) = Some relA /\
                 In B (field src relA)).
  { intros src dst Hk Hin.
    destruct (@secondPass_inverse_sound _ src dst A B relB Hk HB Hin)
      as [[rel0 [H0 Hin0]] | H]; [| exact H].
    exfalso. destruct (firstPass_inferred_empty _ _ H0) as [E1 [E2 E3]].
    destruct Hk as [Hk | [Hk | Hk]]; inversion Hk; subst; simpl in Hin0;
      rewrite ?E1, ?E2, ?E3 in Hin0; destruct Hin0. }
  repeat split.
  - apply (Hgen NTPP NTTPI); auto.
  - apply (Hgen TPP TPPI); auto.
  - apply (Hgen R RI); auto.
Qed.

Lemma inverse_soundness_witness :
  let allPages := [pageDeclaring "leaf" NTPP ["root"]; pageDeclaring "root" NTPP []] in
  let relB := Rel.mk [] ["leaf"] [] [] [] [] [] [] None None [] [] in
  JsMap.get "root" (fst (buildRelationsGraph allPages)) = Some relB /\
  In "leaf" (Rel.nttpi relB) /\
  exists relA, JsMap.get "leaf" (fst (buildRelationsGraph allPages)) = Some relA /\
               In "root" (Rel.ntpp relA).
Proof.
  intros allPages relB.
  assert (HB : JsMap.get "root" (fst (buildRelationsGraph allPages)) = Some relB)
    by (vm_compute; reflexivity).
  assert (Hin : In "leaf" (Rel.nttpi relB)) by (left; reflexivity).
  split; [exact HB | split; [exact Hin |]].
  exact (proj1 (@inverse_soundness allPages "leaf" "root" relB HB) Hin).
Defined.

Lemma dedupAppended_NoDup (l l' : list string) :
  dedupAppended l l' -> NoDup l -> NoDup l'.
Proof.
  intros [xs ->]. revert l. induction xs as [| x xs IH]; intros l Hnd; simpl.
  - assumption.
  - apply IH. now apply addUnique_NoDup.
Qed.

(** X10. The second pass adds no duplicate: an array without duplicates
    before it has none after it.  After [buildRelationsGraph] the
    arrays [nttpi], [tppi], [ri] and [r] of every page have none. *)
Theorem no_duplicates_added (allPages : list Page) (g : RelationsGraph)
    (s : string) (rel rel' relB : PageRelations) (k : RelKind) :
  (JsMap.get s g = Some rel -> JsMap.get s (secondPass g) = Some rel' ->
   NoDup (field k rel) -> NoDup (field k rel')) /\
  (JsMap.get s (fst (buildRelationsGraph allPages)) = Some relB ->
   NoDup (Rel.nttpi relB) /\ NoDup (Rel.tppi relB) /\
   NoDup (Rel.ri relB) /\ NoDup (Rel.r relB)).
Proof.
  split.
  - intros H H'. apply dedupAppended_NoDup.
    now apply (@secondPass_field_grows g k s rel rel').
  - rewrite buildRelationsGraph_eq. cbn [fst]. intros HB.
    destruct (JsMap.get s (fst (firstPass allPages))) as [rel0 |] eqn:H0.
    2:{ apply (proj2 (secondPass_defined _ s)) in H0. congruence. }
    destruct (firstPass_inferred_empty _ _ H0) as [E1 [E2 E3]].
    pose proof (fun k => @secondPass_field_grows _ k s rel0 relB H0 HB) as Hgrow.
    pose proof (Hgrow NTTPI) as G1. pose proof (Hgrow TPPI) as G2.
    pose proof (Hgrow RI) as G3. pose proof (Hgrow R) as G4.
    simpl in G1, G2, G3, G4. rewrite E1 in G1. rewrite E2 in G2. rewrite E3 in G3.
    repeat split; try (eapply dedupAppended_NoDup; [eassumption | constructor]).
    eapply dedupAppended_NoDup; [exact G4 |].
    destruct (firstPass_graph_get _ _ H0) as [page [_ [_ ->]]].
    rewrite declaredRelations_fields. cbn [Rel.r].
    rewrite extractLinkSlugs_fold. apply extract_fold_NoDup. constructor.
Qed.

Lemma no_duplicates_added_witness :
  let allPages := [pageDeclaring "a" PO ["b"]; pageDeclaring "b" PO []] in
  let g := fst (firstPass allPages) in
  let relBefore := Rel.mk [] [] [] [] [] [] [] [] None None [] [] in
  let relAfter := Rel.mk [] [] [] [] ["a"] [] [] [] None None [] [] in
  JsMap.get "b" g = Some relBefore /\
  JsMap.get "b" (secondPass g) = Some relAfter /\
  NoDup (field PO relBefore) /\
  JsMap.get "b" (fst (buildRelationsGraph allPages)) = Some relAfter /\
  NoDup (field PO relAfter) /\
  NoDup (Rel.nttpi relAfter) /\ NoDup (Rel.tppi relAfter) /\
  NoDup (Rel.ri relAfter) /\ NoDup (Rel.r relAfter).
Proof.
  intros allPages g relBefore relAfter.
  assert (H1 : JsMap.get "b" g = Some relBefore) by (vm_compute; reflexivity).
  assert (H2 : JsMap.get "b" (secondPass g) = Some relAfter) by (vm_compute; reflexivity).
  assert (H3 : NoDup (field PO relBefore)) by constructor.
  assert (H4 : JsMap.get "b" (fst (buildRelationsGraph allPages)) = Some relAfter)
    by (vm_compute; reflexivity).
  split; [exact H1 | split; [exact H2 | split; [exact H3 | split; [exact H4 |]]]].
  split.
  - exact (proj1 (@no_duplicates_added allPages g "b" relBefore relAfter relAfter PO) H1 H2 H3).
  - exact (proj2 (@no_duplicates_added allPages g "b" relBefore relAfter relAfter PO) H4).
Defined.

(** X11. No page refers to itself: after [buildRelationsGraph] a page is
    neither in its own [r] nor in its own [ri], whatever its body
    links to. *)
Theorem no_self_reference (allPages : list Page) (A : string)
    (rel : PageRelations) :
  JsMap.get A (fst (buildRelationsGraph allPages)) = Some rel ->
  ~ In A (Rel.r rel) /\ ~ In A (Rel.ri rel).
Proof.
  rewrite buildRelationsGraph_eq. cbn [fst]. intros HA.
  set (g := fst (firstPass allPages)) in *.
  assert (Hr : forall relA, JsMap.get A (secondPass g) = Some relA ->
                 ~ In A (Rel.r relA)).
  { intros relA HrelA Hin.
    destruct (JsMap.get A g) as [rel0 |] eqn:H0.
    2:{ apply (proj2 (secondPass_defined g A)) in H0. congruence. }
    pose proof (@secondPass_forward_kept g R A rel0 relA
                  (or_intror (or_intror eq_refl)) H0 HrelA) as E.
    simpl in E. rewrite E in Hin.
    destruct (firstPass_graph_get _ _ H0) as [page [_ [Hid ->]]].
    rewrite declaredRelations_fields in Hin. cbn [Rel.r] in Hin.
    rewrite extractLinkSlugs_fold in Hin. apply extract_fold_origin in Hin.
    destruct Hin as [[] | [href [_ [_ [_ [_ Hne]]]]]]. congruence. }
  split; [now apply Hr |].
  intros Hin.
  destruct (@secondPass_inverse_sound g R RI A A rel
              (or_intror (or_intror eq_refl)) HA Hin)
    as [[rel0 [H0 Hin0]] | [relA [HrelA HinA]]].
  - destruct (firstPass_inferred_empty _ _ H0) as [_ [_ E]].
    simpl in Hin0. rewrite E in Hin0. destruct Hin0.
  - exact (Hr relA HrelA HinA).
Qed.

Lemma no_self_reference_witness :
  let allPages := [pageBody "a" "me [a](/a) and [b](/b)"; pageBody "b" "[a](/a)"] in
  let rel := Rel.mk [] [] [] [] [] [] [] [] None None ["b"] ["b"] in
  JsMap.get "a" (fst (buildRelationsGraph allPages)) = Some rel /\
  ~ In "a" (Rel.r rel) /\ ~ In "a" (Rel.ri rel).
Proof.
  intros allPages rel.
  assert (H : JsMap.get "a" (fst (buildRelationsGraph allPages)) = Some rel)
    by (vm_compute; reflexivity).
  split; [exact H | exact (@no_self_reference allPages "a" rel H)].
Defined.

(** ** The sequential pointers, the other way *)

Lemma ptrStep_progress_prev (m : Pointers) (slug b : string) :
  prevOf m slug = Some b -> b <> "" -> JsMap.get b m <> None ->
  (isSet (nextOf m b) /\ nextOf (ptrStep m slug) b = nextOf m b) \/
  (~ isSet (nextOf m b) /\ nextOf (ptrStep m slug) b = Some slug).
Proof.
  intros Hp Hb Hdef.
  assert (Hkept : prevOf (ptrNext slug m) slug = Some b).
  { unfold prevOf in *. rewrite get_ptrNext.
    destruct (JsMap.get slug m) as [[n p] |]; [| discriminate]. subst p.
    assert (Ht : truthy (Some b) = true)
      by (simpl; now apply negb_true_iff, String.eqb_neq).
    now rewrite Ht, andb_false_r. }
  unfold nextOf, isSet. rewrite get_ptrStep.
  destruct (JsMap.get b m) as [[n p] |]; [| congruence]. cbv zeta.
  assert (Hpt : pointsTo (prevOf (ptrNext slug m) slug) b = true)
    by (apply pointsTo_true; auto).
  rewrite Hpt. simpl. destruct (truthy n); simpl; [left | right]; split; congruence.
Qed.

Lemma PtrInvPrev_init (m0 : Pointers) : PtrInvPrev m0 [] m0.
Proof. split; [auto | intros a b []]. Qed.

Lemma PtrInvPrev_step (m0 : Pointers) (done : list string) (m : Pointers) (x : string) :
  x <> "" -> PtrInvPrev m0 done m -> PtrInvPrev m0 (done ++ [x]) (ptrStep m x).
Proof.
  intros Hx [NJ DN]. split.
  - intros s n Hn Hne.
    destruct (ptrStep_next_change m x s) as [E | [E [Hp [Hs _]]]].
    + rewrite E in Hn. destruct (NJ s n Hn Hne) as [H | [Hin [Hp Hs]]]; [now left |].
      right. repeat split; [apply in_or_app; now left | | assumption].
      rewrite ptrStep_prev_kept; [assumption |]. apply isSet_Some. eauto.
    + rewrite E in Hn. injection Hn as <-. right.
      repeat split; [apply in_or_app; right; now left | assumption | assumption].
  - intros a b Ha Hp Hb Hdef.
    assert (Hdef0 : JsMap.get b m <> None) by (now rewrite <- (ptrStep_defined m x)).
    destruct (ptrStep_prev_change m x a) as [E | [E [Hn [Hane _]]]].
    + rewrite E in Hp. apply in_app_or in Ha. destruct Ha as [Ha | [<- | []]].
      * destruct (DN a b Ha Hp Hb Hdef0) as [n [Hn [Hnne Hcase]]].
        exists n. split; [| split; [assumption |]].
        { rewrite ptrStep_next_kept; [assumption |]. apply isSet_Some. eauto. }
        destruct Hcase as [H | [H | [Hbef Hpn]]]; [now left | now right; left |].
        right; right. split; [now apply before_app |].
        rewrite ptrStep_prev_kept; [assumption |]. apply isSet_Some. eauto.
      * destruct (ptrStep_progress_prev m x Hp Hb Hdef0) as [[Hset E'] | [_ E']].
        { apply isSet_Some in Hset. destruct Hset as [n [Hn Hnne]].
          exists n. rewrite E'. split; [assumption | split; [assumption |]].
          destruct (NJ b n Hn Hnne) as [H | [Hin [Hpn _]]]; [now right; left |].
          right; right. split; [now apply before_last |].
          rewrite ptrStep_prev_kept; [assumption |]. apply isSet_Some. eauto. }
        { exists x. auto. }
    + rewrite E in Hp. injection Hp as <-. exists a.
      split; [| auto].
      rewrite ptrStep_next_kept; [assumption |]. apply isSet_Some. eauto.
Qed.

Lemma PtrInvPrev_pass (m0 : Pointers) (ks : list string) :
  ~ In "" ks -> PtrInvPrev m0 ks (fold_left ptrStep ks m0).
Proof.
  induction ks as [| x ks IH] using rev_ind; intros Hne.
  - apply PtrInvPrev_init.
  - rewrite fold_left_app. simpl. apply PtrInvPrev_step.
    + intros ->. apply Hne. apply in_or_app. right. now left.
    + apply IH. intros H. apply Hne. apply in_or_app. now left.
Qed.

Lemma secondPass_sequential_prev (g : RelationsGraph)
    (A B : string) (relA relB : PageRelations) :
  ~ In "" (JsMap.keys g) ->
  JsMap.get A (secondPass g) = Some relA ->
  JsMap.get B (secondPass g) = Some relB ->
  Rel.prev relA = Some B ->
  exists N, Rel.next relB = Some N /\ N <> "" /\
    (N = A \/
     (exists rel0, JsMap.get B g = Some rel0 /\ Rel.next rel0 = Some N) \/
     (exists relN, JsMap.get N (secondPass g) = Some relN /\
                   Rel.prev relN = Some B /\
                   before (JsMap.keys (secondPass g)) N A)).
Proof.
  intros Hne HA HB Hprev.
  assert (HinA : In A (JsMap.keys g)).
  { rewrite <- keys_secondPass. eapply get_Some_in_keys; eauto. }
  assert (HinB : In B (JsMap.keys g)).
  { rewrite <- keys_secondPass. eapply get_Some_in_keys; eauto. }
  assert (HBne : B <> "") by (intros ->; contradiction).
  pose proof (PtrInvPrev_pass (mapVals pointers g) (JsMap.keys g) Hne) as [_ DN].
  rewrite <- ptr_pass in DN. fold (secondPass g) in DN.
  destruct (DN A B HinA) as [N [HN [HNne Hcase]]].
  - rewrite (prevOf_pointers _ _ HA). assumption.
  - assumption.
  - rewrite get_mapVals, HB. discriminate.
  - rewrite (nextOf_pointers _ _ HB) in HN.
    exists N. split; [assumption | split; [assumption |]].
    destruct Hcase as [H | [H | [Hbef Hp]]]; [now left | right; left | right; right].
    + now apply nextOf_Some_get.
    + apply prevOf_Some_get in Hp. destruct Hp as [relN [H1 H2]].
      exists relN. rewrite keys_secondPass. auto.
Qed.

(** X12. The other way round: after [buildRelationsGraph] over pages
    with non-empty slugs, if [graph[A].prev = B] and B is a page, then
    [graph[B].next] is set: to A, or to the [next] B declared, or to a
    page visited before A whose [prev] is B as well. *)
Theorem sequential_prev_first_come (allPages : list Page)
    (A B : string) (relA relB : PageRelations) :
  ~ In "" (map id allPages) ->
  JsMap.get A (fst (buildRelationsGraph allPages)) = Some relA ->
  JsMap.get B (fst (buildRelationsGraph allPages)) = Some relB ->
  Rel.prev relA = Some B ->
  exists N, Rel.next relB = Some N /\ N <> "" /\
    (N = A \/
     declaresNext allPages B N \/
     (exists relN,
        JsMap.get N (fst (buildRelationsGraph allPages)) = Some relN /\
        Rel.prev relN = Some B /\
        before (JsMap.keys (fst (buildRelationsGraph allPages))) N A)).
Proof.
  rewrite buildRelationsGraph_eq. simpl. intros Hne HA HB Hprev.
  assert (Hne' : ~ In "" (JsMap.keys (fst (firstPass allPages))))
    by (now rewrite firstPass_keys).
  destruct (secondPass_sequential_prev _ _ Hne' HA HB Hprev) as [N [HN [HNne Hcase]]].
  exists N. split; [assumption | split; [assumption |]].
  destruct Hcase as [H | [[rel0 [H0 Hnext]] | H]]; [now left | right; left | now right; right].
  destruct (firstPass_graph_get _ _ H0) as [page [Hin [Hid ->]]].
  exists page. rewrite declaredRelations_next in Hnext. auto.
Qed.

Lemma sequential_prev_first_come_witness :
  let allPages := [pageWith "a" None (Some "b");
                   pageWith "c" None (Some "b");
                   pageWith "b" None None] in
  let graph := fst (buildRelationsGraph allPages) in
  let relC := Rel.mk [] [] [] [] [] [] [] [] None (Some "b") [] [] in
  let relB := Rel.mk [] [] [] [] [] [] [] [] (Some "a") None [] [] in
  ~ In "" (map id allPages) /\
  JsMap.get "c" graph = Some relC /\
  JsMap.get "b" graph = Some relB /\
  Rel.prev relC = Some "b" /\
  exists N, Rel.next relB = Some N /\ N <> "" /\
    (N = "c" \/
     declaresNext allPages "b" N \/
     (exists relN, JsMap.get N graph = Some relN /\
                   Rel.prev relN = Some "b" /\
                   before (JsMap.keys graph) N "c")).
Proof.
  intros allPages graph relC relB.
  assert (Hne : ~ In "" (map id allPages))
    by (simpl; intros [H | [H | [H | []]]]; discriminate).
  assert (HC : JsMap.get "c" graph = Some relC) by (vm_compute; reflexivity).
  assert (HB : JsMap.get "b" graph = Some relB) by (vm_compute; reflexivity).
  assert (Hp : Rel.prev relC = Some "b") by reflexivity.
  split; [exact Hne | split; [exact HC | split; [exact HB | split; [exact Hp |]]]].
  exact (@sequential_prev_first_come allPages "c" "b" relC relB Hne HC HB Hp).
Defined.

(** ** The second pass, run again *)

Lemma set_field_same (k : RelKind) (rel : PageRelations) :
  set_field k (field k rel) rel = rel.
Proof. destruct rel, k; reflexivity. Qed.

Lemma pushInverse_id (dst : RelKind) (slug : string) (g : RelationsGraph)
    (target : string) :
  (forall rel, JsMap.get target g = Some rel -> In slug (field dst rel)) ->
  pushInverse dst slug g target = g.
Proof.
  intros H. unfold pushInverse.
  destruct (JsMap.get target g) as [rel |] eqn:E; [| reflexivity].
  rewrite addUnique_member by auto. rewrite set_field_same.
  now apply set_same.
Qed.

Lemma inferKind_id (src dst : RelKind) (slug : string) (g : RelationsGraph) :
  (forall rel target relT,
     JsMap.get slug g = Some rel -> In target (field src rel) ->
     JsMap.get target g = Some relT -> In slug (field dst relT)) ->
  inferKind src dst slug g = g.
Proof.
  intros H. unfold inferKind.
  destruct (JsMap.get slug g) as [rel |] eqn:E; [| reflexivity].
  assert (Hall : forall target, In target (field src rel) ->
            pushInverse dst slug g target = g).
  { intros target Hin. apply pushInverse_id. intros relT HT. eauto. }
  induction (field src rel) as [| t ts IH]; [reflexivity |].
  simpl. rewrite Hall by (now left). apply IH.
  intros target Hin. apply Hall. now right.
Qed.

Lemma inferNext_id (slug : string) (g : RelationsGraph) :
  (forall rel n relN,
     JsMap.get slug g = Some rel -> Rel.next rel = Some n -> n <> "" ->
     JsMap.get n g = Some relN -> isSet (Rel.prev relN)) ->
  inferNext slug g = g.
Proof.
  intros H. unfold inferNext.
  destruct (JsMap.get slug g) as [rel |] eqn:E; [| reflexivity].
  destruct (Rel.next rel) as [n |] eqn:En; [| reflexivity].
  destruct (truthy (Some n)) eqn:Et; [| reflexivity].
  destruct (JsMap.get n g) as [relN |] eqn:EN; [| reflexivity].
  assert (Hn : n <> "").
  { simpl in Et. now apply negb_true_iff, String.eqb_neq in Et. }
  pose proof (H rel n relN eq_refl En Hn EN) as Hset. unfold isSet in Hset.
  now rewrite Hset.
Qed.

Lemma inferPrev_id (slug : string) (g : RelationsGraph) :
  (forall rel p relP,
     JsMap.get slug g = Some rel -> Rel.prev rel = Some p -> p <> "" ->
     JsMap.get p g = Some relP -> isSet (Rel.next relP)) ->
  inferPrev slug g = g.
Proof.
  intros H. unfold inferPrev.
  destruct (JsMap.get slug g) as [rel |] eqn:E; [| reflexivity].
  destruct (Rel.prev rel) as [p |] eqn:Ep; [| reflexivity].
  destruct (truthy (Some p)) eqn:Et; [| reflexivity].
  destruct (JsMap.get p g) as [relP |] eqn:EP; [| reflexivity].
  assert (Hp : p <> "").
  { simpl in Et. now apply negb_true_iff, String.eqb_neq in Et. }
  pose proof (H rel p relP eq_refl Ep Hp EP) as Hset. unfold isSet in Hset.
  now rewrite Hset.
Qed.

Lemma inferPage_settled (g : RelationsGraph) (slug : string) :
  ~ In "" (JsMap.keys g) ->
  inferPage (secondPass g) slug = secondPass g.
Proof.
  intros Hne. unfold inferPage.
  rewrite (@inferKind_id NTPP NTTPI).
  2:{ intros rel t relT H1 H2 H3.
      eapply secondPass_inverse with (src := NTPP) (dst := NTTPI); eauto. }
  rewrite (@inferKind_id TPP TPPI).
  2:{ intros rel t relT H1 H2 H3.
      eapply secondPass_inverse with (src := TPP) (dst := TPPI); eauto. }
  rewrite (@inferKind_id PO PO).
  2:{ intros rel t relT H1 H2 H3.
      eapply secondPass_symmetric with (k := PO); eauto. now left. }
  rewrite (@inferKind_id EC EC).
  2:{ intros rel t relT H1 H2 H3.
      eapply secondPass_symmetric with (k := EC); eauto. right; now left. }
  rewrite (@inferKind_id EQ EQ).
  2:{ intros rel t relT H1 H2 H3.
      eapply secondPass_symmetric with (k := EQ); eauto. right; right; now left. }
  rewrite (@inferKind_id DC DC).
  2:{ intros rel t relT H1 H2 H3.
      eapply secondPass_symmetric with (k := DC); eauto. right; right; now right. }
  rewrite inferNext_id.
  2:{ intros rel n relN H1 H2 Hn H3.
      destruct (@secondPass_sequential g slug n rel relN Hne H1 H3 H2)
        as [P [HP [HPne _]]].
      apply isSet_Some. eauto. }
  rewrite inferPrev_id.
  2:{ intros rel p relP H1 H2 Hp H3.
      destruct (@secondPass_sequential_prev g slug p rel relP Hne H1 H3 H2)
        as [N [HN [HNne _]]].
      apply isSet_Some. eauto. }
  rewrite (@inferKind_id R RI).
  2:{ intros rel t relT H1 H2 H3.
      eapply secondPass_inverse with (src := R) (dst := RI); eauto. }
  reflexivity.
Qed.

(** X13. The second pass is idempotent: on a graph without the empty
    slug, running it again on its result changes nothing. *)
Theorem secondPass_idempotent (g : RelationsGraph) :
  ~ In "" (JsMap.keys g) ->
  secondPass (secondPass g) = secondPass g.
Proof.
  intros Hne.
  assert (Hall : forall s, inferPage (secondPass g) s = secondPass g)
    by (intros s; now apply inferPage_settled).
  unfold secondPass at 1. rewrite keys_secondPass.
  generalize (JsMap.keys g). intros ks.
  induction ks as [| s ks IH]; [reflexivity |].
  simpl. rewrite Hall. exact IH.
Qed.

Lemma secondPass_idempotent_witness :
  let g := fst (firstPass [pageWith "a" (Some "b") None;
                           pageDeclaring "b" PO ["a"]]) in
  ~ In "" (JsMap.keys g) /\ secondPass (secondPass g) = secondPass g.
Proof.
  intros g.
  assert (H : ~ In "" (JsMap.keys g)).
  { vm_compute. intros [H | [H | []]]; discriminate. }
  split; [exact H | exact (@secondPass_idempotent g H)].
Defined.

(** ** The full view: one edge for a pair *)

Lemma sortPair_sym (a b : string) : sortPair a b = sortPair b a.
Proof.
  unfold sortPair. destruct (String.leb a b) eqn:E1, (String.leb b a) eqn:E2.
  - now rewrite (String.leb_antisym _ _ E1 E2).
  - reflexivity.
  - reflexivity.
  - destruct (String.leb_total a b); congruence.
Qed.

Lemma edgeKey_sym (a b : string) (ty : EdgeType) : edgeKey a b ty = edgeKey b a ty.
Proof. unfold edgeKey. now rewrite sortPair_sym. Qed.

Lemma filter_snoc (A : Type) (f : A -> bool) (l : list A) (x : A) :
  filter f (l ++ [x]) = filter f l ++ (if f x then [x] else []).
Proof. rewrite filter_app. reflexivity. Qed.

Lemma pushEdge_inv (slug target : string) (ty : EdgeType) (st : ViewState) :
  onceType ty = false -> ViewInv st -> ViewInv (pushEdge slug target ty st).
Proof.
  intros Hty [E Hnd]. unfold ViewInv, pushEdge. cbn [vs_edges vs_seen].
  rewrite filter_snoc. cbn [Edge.type]. rewrite Hty, app_nil_r. auto.
Qed.

Lemma pushEdgeOnce_inv (slug : string) (ty : EdgeType) (st : ViewState)
    (target : string) :
  onceType ty = true -> ViewInv st -> ViewInv (pushEdgeOnce slug ty st target).
Proof.
  intros Hty [E Hnd]. unfold pushEdgeOnce.
  destruct (JsSet.has (vs_seen st) (edgeKey slug target ty)) eqn:Hseen;
    [split; assumption |].
  unfold ViewInv. cbn [vs_edges vs_seen].
  apply includes_false in Hseen.
  rewrite filter_snoc. cbn [Edge.type]. rewrite Hty, map_app, E.
  rewrite JsSet_add_new by assumption. split; [reflexivity |].
  apply NoDup_app; [assumption | repeat constructor; simpl; tauto |].
  intros x Hx [<- | []]. contradiction.
Qed.

Lemma fold_pushEdge_inv (slug : string) (ty : EdgeType) (targets : list string)
    (st : ViewState) :
  onceType ty = false -> ViewInv st ->
  ViewInv (fold_left (fun st target => pushEdge slug target ty st) targets st).
Proof.
  intros Hty. revert st. induction targets as [| t ts IH]; intros st H; simpl.
  - assumption.
  - apply IH. now apply pushEdge_inv.
Qed.

Lemma fold_pushEdgeOnce_inv (slug : string) (ty : EdgeType) (targets : list string)
    (st : ViewState) :
  onceType ty = true -> ViewInv st ->
  ViewInv (fold_left (pushEdgeOnce slug ty) targets st).
Proof.
  intros Hty. revert st. induction targets as [| t ts IH]; intros st H; simpl.
  - assumption.
  - apply IH. now apply pushEdgeOnce_inv.
Qed.

Lemma viewStep_inv (pages : PageInfoMap) (st : ViewState)
    (entry : string * PageRelations) :
  ViewInv st -> ViewInv (viewStep pages st entry).
Proof.
  intros H. destruct entry as [slug rel]. unfold viewStep.
  destruct (JsMap.get slug pages) as [info |]; [| assumption].
  apply fold_pushEdge_inv; [reflexivity |].
  assert (Hsym : ViewInv
    (fold_left (fun st ty => fold_left (pushEdgeOnce slug ty) (fieldOfType ty rel) st)
       [E_po; E_ec; E_eq; E_dc]
       (fold_left (fun st target => pushEdge slug target E_tpp st) (Rel.tpp rel)
          (fold_left (fun st target => pushEdge slug target E_ntpp st) (Rel.ntpp rel)
             (mkView (vs_nodes st ++ [Node.mk slug (title info) (countConnections rel)])
                     (vs_edges st) (vs_seen st)))))).
  { cbn [fold_left].
    repeat (apply fold_pushEdgeOnce_inv; [reflexivity |]).
    repeat (apply fold_pushEdge_inv; [reflexivity |]).
    exact H. }
  destruct (Rel.next rel) as [n |]; [| exact Hsym].
  destruct (truthy (Some n)); [| exact Hsym].
  now apply pushEdgeOnce_inv.
Qed.

Lemma buildGraphState_inv (graph : RelationsGraph) (pages : PageInfoMap) :
  ViewInv (buildGraphState graph pages).
Proof.
  unfold buildGraphState.
  assert (H : forall st, ViewInv st -> ViewInv (fold_left (viewStep pages) graph st)).
  { induction graph as [| entry g IH]; intros st Hst; simpl; [assumption |].
    apply IH. now apply viewStep_inv. }
  apply H. split; [reflexivity | constructor].
Qed.

Lemma at_most_one (A : Type) (f : A -> string) (P : A -> bool) (k : string)
    (l : list A) :
  NoDup (map f l) ->
  (forall x, In x l -> P x = true -> f x = k) ->
  List.length (filter P l) <= 1.
Proof.
  induction l as [| x l IH]; intros Hnd Hk; simpl; [lia |].
  simpl in Hnd. inversion Hnd as [| ? ? Hnot Hnd']; subst.
  destruct (P x) eqn:Px.
  - assert (Hnone : filter P l = []).
    { destruct (filter P l) as [| y ys] eqn:E; [reflexivity |]. exfalso.
      assert (Hy : In y (filter P l)) by (rewrite E; now left).
      apply filter_In in Hy. destruct Hy as [Hy Py].
      apply Hnot. rewrite (Hk x (or_introl eq_refl) Px).
      rewrite <- (Hk y (or_intror Hy) Py). now apply in_map. }
    rewrite Hnone. simpl. lia.
  - apply IH; [assumption |]. intros y Hy. apply Hk. now right.
Qed.

Lemma joins_key (ty : EdgeType) (a b : string) (e : GraphEdge) :
  joins ty a b e = true -> Edge.type e = ty /\ keyOf e = edgeKey a b ty.
Proof.
  unfold joins, keyOf. rewrite andb_true_iff, orb_true_iff, !andb_true_iff.
  rewrite EdgeType_eqb_eq, !String.eqb_eq.
  intros [-> [[-> ->] | [-> ->]]]; auto using edgeKey_sym.
Qed.

Lemma filter_joins_once (ty : EdgeType) (a b : string) (l : list GraphEdge) :
  onceType ty = true ->
  filter (joins ty a b) (filter (fun e => onceType (Edge.type e)) l) =
  filter (joins ty a b) l.
Proof.
  intros Hty. induction l as [| e l IH]; [reflexivity |]. simpl.
  destruct (onceType (Edge.type e)) eqn:Eo; simpl; rewrite IH; [reflexivity |].
  destruct (joins ty a b e) eqn:Ej; [| reflexivity].
  apply joins_key in Ej. destruct Ej as [Et _]. congruence.
Qed.

Lemma edgesBetween_le_1 (graph : RelationsGraph) (pages : PageInfoMap)
    (ty : EdgeType) (a b : string) :
  onceType ty = true ->
  edgesBetween ty a b (buildGraphData graph pages) <= 1.
Proof.
  intros Hty. unfold edgesBetween, buildGraphData. cbn [edges].
  destruct (buildGraphState_inv graph pages) as [E Hnd].
  rewrite <- (@filter_joins_once ty a b _ Hty).
  apply at_most_one with (f := keyOf) (k := edgeKey a b ty).
  - now rewrite E.
  - intros e _ Hj. now apply joins_key in Hj.
Qed.

(** X14. For a symmetric type, and for [next], the full view never has
    two edges of that type between the same two pages, whichever end
    they are read from and whatever the slugs are. *)
Theorem never_two_edges (graph : RelationsGraph) (pages : PageInfoMap)
    (ty : EdgeType) (a b : string) :
  onceType ty = true ->
  edgesBetween ty a b (buildGraphData graph pages) <= 1.
Proof. apply edgesBetween_le_1. Qed.

Lemma never_two_edges_witness :
  let store := [pageDeclaring "A" EQ ["B"]; pageDeclaring "B" EQ ["A"]] in
  onceType E_eq = true /\
  edgesBetween E_eq "A" "B"
    (buildGraphData (fst (buildRelationsGraph store))
                    (snd (buildRelationsGraph store))) <= 1.
Proof.
  intros store.
  assert (H : onceType E_eq = true) by reflexivity.
  split; [exact H |].
  exact (@never_two_edges (fst (buildRelationsGraph store))
           (snd (buildRelationsGraph store)) E_eq "A" "B" H).
Defined.

(** ** The full view: where nodes and edges come from *)

Lemma grows_refl (st : ViewState) : grows st st [].
Proof. unfold grows. rewrite app_nil_r. auto using incl_refl. Qed.

Lemma grows_trans (st1 st2 st3 : ViewState) (a b : list GraphEdge) :
  grows st1 st2 a -> grows st2 st3 b -> grows st1 st3 (a ++ b).
Proof.
  intros (E1 & N1 & I1) (E2 & N2 & I2). unfold grows.
  rewrite E2, E1, N2, N1, app_assoc. eauto using incl_tran.
Qed.

Lemma pushEdge_fold_grows (slug : string) (ty : EdgeType) (targets : list string)
    (st : ViewState) :
  grows st (fold_left (fun st target => pushEdge slug target ty st) targets st)
        (map (fun target => Edge.mk slug target ty) targets).
Proof.
  revert st. induction targets as [| t ts IH]; intros st; simpl.
  - apply grows_refl.
  - apply (@grows_trans st (pushEdge slug t ty st) _ [Edge.mk slug t ty]); [| apply IH].
    unfold grows, pushEdge. cbn [vs_edges vs_nodes vs_seen]. auto using incl_refl.
Qed.

Lemma pushEdgeOnce_grows (slug : string) (ty : EdgeType) (st : ViewState)
    (t : string) :
  exists added,
    grows st (pushEdgeOnce slug ty st t) added /\
    Forall (fun e => e = Edge.mk slug t ty) added /\
    In (edgeKey slug t ty) (vs_seen (pushEdgeOnce slug ty st t)).
Proof.
  unfold pushEdgeOnce.
  destruct (JsSet.has (vs_seen st) (edgeKey slug t ty)) eqn:Hseen.
  - exists []. split; [apply grows_refl |]. split; [constructor |].
    now apply JsSet_has_In.
  - exists [Edge.mk slug t ty]. unfold grows. cbn [vs_edges vs_nodes vs_seen].
    repeat split.
    + intros x Hx. apply JsSet_add_In. now left.
    + repeat constructor.
    + apply JsSet_add_In. now right.
Qed.

Lemma pushEdgeOnce_fold_grows (slug : string) (ty : EdgeType)
    (targets : list string) (st : ViewState) :
  exists added,
    grows st (fold_left (pushEdgeOnce slug ty) targets st) added /\
    Forall (fun e => Edge.source e = slug /\ Edge.type e = ty /\
                     In (Edge.target e) targets) added /\
    (forall t, In t targets ->
       In (edgeKey slug t ty) (vs_seen (fold_left (pushEdgeOnce slug ty) targets st))).
Proof.
  revert st. induction targets as [| t ts IH]; intros st; simpl.
  - exists []. split; [apply grows_refl |]. split; [constructor | tauto].
  - destruct (pushEdgeOnce_grows slug ty st t) as (a & Ga & Fa & Ka).
    destruct (IH (pushEdgeOnce slug ty st t)) as (b & Gb & Fb & Kb).
    exists (a ++ b). split; [eapply grows_trans; eassumption |]. split.
    + apply Forall_app. split.
      * eapply Forall_impl; [| exact Fa]. intros e ->. simpl. auto.
      * eapply Forall_impl; [| exact Fb]. intros e (? & ? & ?). auto.
    + intros x [<- | Hx]; [| now apply Kb].
      destruct Gb as (_ & _ & I). now apply I.
Qed.

Lemma filter_type_map (ty ty' : EdgeType) (slug : string) (l : list string) :
  filter (hasType ty) (map (fun t => Edge.mk slug t ty') l) =
  if EdgeType_eqb ty' ty then map (fun t => Edge.mk slug t ty') l else [].
Proof.
  induction l as [| t l IH]; cbn [map filter].
  - now destruct (EdgeType_eqb ty' ty).
  - unfold hasType at 1. cbn [Edge.type]. rewrite IH.
    now destruct (EdgeType_eqb ty' ty).
Qed.

Lemma filter_type_none (ty ty' : EdgeType) (l : list GraphEdge) :
  Forall (fun e => Edge.type e = ty') l -> EdgeType_eqb ty' ty = false ->
  filter (hasType ty) l = [].
Proof.
  intros F Hne. induction F as [| e l He F IH]; cbn [filter]; [reflexivity |].
  unfold hasType at 1. now rewrite He, Hne.
Qed.

Ltac climb :=
  repeat match goal with
  | I : incl ?a ?b, K : In ?x ?a |- _ => apply I in K
  end.

Lemma viewStep_grows (pages : PageInfoMap) (st : ViewState) (s : string)
    (rel : PageRelations) (info : PageInfo) :
  JsMap.get s pages = Some info ->
  exists added,
    vs_edges (viewStep pages st (s, rel)) = vs_edges st ++ added /\
    vs_nodes (viewStep pages st (s, rel)) =
      vs_nodes st ++ [Node.mk s (title info) (countConnections rel)] /\
    incl (vs_seen st) (vs_seen (viewStep pages st (s, rel))) /\
    Forall (fromEntry s rel) added /\
    (forall ty, onceType ty = false ->
       filter (hasType ty) added =
       map (fun t => Edge.mk s t ty) (fieldOfType ty rel)) /\
    (forall ty t, onceType ty = true -> In t (fieldOfType ty rel) ->
       In (edgeKey s t ty) (vs_seen (viewStep pages st (s, rel)))) /\
    (forall n, Rel.next rel = Some n -> n <> ""%string ->
       In (edgeKey s n E_next) (vs_seen (viewStep pages st (s, rel)))).
Proof.
  intros Hget. unfold viewStep. rewrite Hget. cbn [fold_left].
  set (st0 := mkView _ (vs_edges st) (vs_seen st)).
  pose proof (pushEdge_fold_grows s E_ntpp (Rel.ntpp rel) st0) as G1.
  set (st1 := fold_left _ (Rel.ntpp rel) st0) in *.
  pose proof (pushEdge_fold_grows s E_tpp (Rel.tpp rel) st1) as G2.
  set (st2 := fold_left _ (Rel.tpp rel) st1) in *.
  destruct (pushEdgeOnce_fold_grows s E_po (fieldOfType E_po rel) st2)
    as (a3 & G3 & F3 & K3).
  set (st3 := fold_left _ (fieldOfType E_po rel) st2) in *.
  destruct (pushEdgeOnce_fold_grows s E_ec (fieldOfType E_ec rel) st3)
    as (a4 & G4 & F4 & K4).
  set (st4 := fold_left _ (fieldOfType E_ec rel) st3) in *.
  destruct (pushEdgeOnce_fold_grows s E_eq (fieldOfType E_eq rel) st4)
    as (a5 & G5 & F5 & K5).
  set (st5 := fold_left _ (fieldOfType E_eq rel) st4) in *.
  destruct (pushEdgeOnce_fold_grows s E_dc (fieldOfType E_dc rel) st5)
    as (a6 & G6 & F6 & K6).
  set (st6 := fold_left _ (fieldOfType E_dc rel) st5) in *.
  set (st7 := match Rel.next rel with
              | Some n => if truthy (Some n) then pushEdgeOnce s E_next st6 n else st6
              | None => st6
              end).
  assert (H7 : exists a7, grows st6 st7 a7 /\
            Forall (fun e => Edge.source e = s /\ Edge.type e = E_next /\
                      Rel.next rel = Some (Edge.target e) /\
                      Edge.target e <> ""%string) a7 /\
            (forall n, Rel.next rel = Some n -> n <> ""%string ->
               In (edgeKey s n E_next) (vs_seen st7))).
  { subst st7. destruct (Rel.next rel) as [n |].
    - cbn [truthy]. destruct (String.eqb_spec n "") as [-> | Hn]; cbn [negb].
      + exists []. split; [apply grows_refl |]. split; [constructor |].
        intros n [= <-] Hn. now elim Hn.
      + destruct (pushEdgeOnce_grows s E_next st6 n) as (a & Ga & Fa & Ka).
        exists a. split; [exact Ga |]. split.
        * eapply Forall_impl; [| exact Fa]. intros e ->. simpl. auto.
        * now intros n' [= <-] _.
    - exists []. split; [apply grows_refl |]. split; [constructor |].
      intros n [=]. }
  destruct H7 as (a7 & G7 & F7 & K7).
  pose proof (pushEdge_fold_grows s E_r (Rel.r rel) st7) as G8.
  set (st8 := fold_left _ (Rel.r rel) st7) in *.
  pose proof (grows_trans G1 (grows_trans G2 (grows_trans G3 (grows_trans G4
               (grows_trans G5 (grows_trans G6 (grows_trans G7 G8))))))) as G.
  destruct G as (GE & GN & GI).
  destruct G8 as (_ & _ & I8). destruct G7 as (_ & _ & I7).
  destruct G6 as (_ & _ & I6). destruct G5 as (_ & _ & I5).
  destruct G4 as (_ & _ & I4). destruct G3 as (_ & _ & I3).
  eexists. split; [exact GE |]. split; [exact GN |]. split; [exact GI |].
  split; [| split; [| split]].
  - repeat (apply Forall_app; split).
    + apply Forall_forall. intros e He. apply in_map_iff in He.
      destruct He as (t & <- & Ht). split; [reflexivity |]. now left.
    + apply Forall_forall. intros e He. apply in_map_iff in He.
      destruct He as (t & <- & Ht). split; [reflexivity |]. now left.
    + eapply Forall_impl; [| exact F3]. intros e (Hs & Hty & Hin).
      split; [exact Hs |]. left. now rewrite Hty.
    + eapply Forall_impl; [| exact F4]. intros e (Hs & Hty & Hin).
      split; [exact Hs |]. left. now rewrite Hty.
    + eapply Forall_impl; [| exact F5]. intros e (Hs & Hty & Hin).
      split; [exact Hs |]. left. now rewrite Hty.
    + eapply Forall_impl; [| exact F6]. intros e (Hs & Hty & Hin).
      split; [exact Hs |]. left. now rewrite Hty.
    + eapply Forall_impl; [| exact F7]. intros e (Hs & Hty & Hn & Hne).
      split; [exact Hs |]. right. auto.
    + apply Forall_forall. intros e He. apply in_map_iff in He.
      destruct He as (t & <- & Ht). split; [reflexivity |]. now left.
  - intros ty Hty. rewrite !filter_app, !filter_type_map.
    assert (T3 : Forall (fun e => Edge.type e = E_po) a3)
      by (eapply Forall_impl; [| exact F3]; now intros e (_ & ? & _)).
    assert (T4 : Forall (fun e => Edge.type e = E_ec) a4)
      by (eapply Forall_impl; [| exact F4]; now intros e (_ & ? & _)).
    assert (T5 : Forall (fun e => Edge.type e = E_eq) a5)
      by (eapply Forall_impl; [| exact F5]; now intros e (_ & ? & _)).
    assert (T6 : Forall (fun e => Edge.type e = E_dc) a6)
      by (eapply Forall_impl; [| exact F6]; now intros e (_ & ? & _)).
    assert (T7 : Forall (fun e => Edge.type e = E_next) a7)
      by (eapply Forall_impl; [| exact F7]; now intros e (_ & ? & _)).
    destruct ty; try discriminate Hty;
      rewrite (@filter_type_none _ _ _ T3), (@filter_type_none _ _ _ T4),
              (@filter_type_none _ _ _ T5), (@filter_type_none _ _ _ T6),
              (@filter_type_none _ _ _ T7) by reflexivity;
      cbn [EdgeType_eqb fieldOfType app]; now rewrite ?app_nil_r.
  - intros ty t Hty Ht.
    destruct ty; try discriminate Hty.
    + apply K3 in Ht. climb. exact Ht.
    + apply K4 in Ht. climb. exact Ht.
    + apply K5 in Ht. climb. exact Ht.
    + apply K6 in Ht. climb. exact Ht.
    + destruct Ht.
  - intros n Hn Hne. pose proof (K7 n Hn Hne) as Ht. now apply I8.
Qed.

Lemma viewStep_unknown (pages : PageInfoMap) (st : ViewState) (s : string)
    (rel : PageRelations) :
  JsMap.get s pages = None -> viewStep pages st (s, rel) = st.
Proof. intros H. unfold viewStep. now rewrite H. Qed.

Lemma fold_viewStep_nodes (pages : PageInfoMap) (graph : RelationsGraph)
    (st : ViewState) :
  vs_nodes (fold_left (viewStep pages) graph st) =
  vs_nodes st ++ flat_map (nodeOf pages) graph.
Proof.
  revert st. induction graph as [| [s rel] g IH]; intros st; cbn [fold_left flat_map].
  - now rewrite app_nil_r.
  - rewrite IH. unfold nodeOf at 2. cbn [fst snd].
    destruct (JsMap.get s pages) as [info |] eqn:Hget.
    + destruct (@viewStep_grows pages st s rel info Hget) as (a & _ & -> & _).
      now rewrite <- app_assoc.
    + now rewrite viewStep_unknown.
Qed.

Lemma fold_viewStep_typed (pages : PageInfoMap) (ty : EdgeType)
    (graph : RelationsGraph) (st : ViewState) :
  onceType ty = false ->
  filter (hasType ty) (vs_edges (fold_left (viewStep pages) graph st)) =
  filter (hasType ty) (vs_edges st) ++ flat_map (listedEdges pages ty) graph.
Proof.
  intros Hty. revert st.
  induction graph as [| [s rel] g IH]; intros st; cbn [fold_left flat_map].
  - now rewrite app_nil_r.
  - rewrite IH. unfold listedEdges at 2. cbn [fst snd].
    destruct (JsMap.get s pages) as [info |] eqn:Hget.
    + destruct (@viewStep_grows pages st s rel info Hget) as (a & -> & _ & _ & _ & F & _).
      now rewrite filter_app, (F ty Hty), <- app_assoc.
    + now rewrite viewStep_unknown.
Qed.

Lemma fold_viewStep_seen (pages : PageInfoMap) (graph : RelationsGraph)
    (st : ViewState) :
  incl (vs_seen st) (vs_seen (fold_left (viewStep pages) graph st)).
Proof.
  revert st. induction graph as [| [s rel] g IH]; intros st; cbn [fold_left].
  - apply incl_refl.
  - eapply incl_tran; [| apply IH].
    destruct (JsMap.get s pages) as [info |] eqn:Hget.
    + now destruct (@viewStep_grows pages st s rel info Hget) as (a & _ & _ & I & _).
    + rewrite viewStep_unknown by assumption. apply incl_refl.
Qed.

Lemma fold_viewStep_from (pages : PageInfoMap) (graph : RelationsGraph)
    (st : ViewState) (e : GraphEdge) :
  In e (vs_edges (fold_left (viewStep pages) graph st)) ->
  In e (vs_edges st) \/
  exists rel, In (Edge.source e, rel) graph /\
              JsMap.get (Edge.source e) pages <> None /\
              listed rel (Edge.type e) (Edge.target e).
Proof.
  revert st. induction graph as [| [s rel] g IH]; intros st; cbn [fold_left].
  - now left.
  - intros He. apply IH in He. destruct He as [He | (rel' & Hin & Hk & Hl)].
    + destruct (JsMap.get s pages) as [info |] eqn:Hget.
      * destruct (@viewStep_grows pages st s rel info Hget) as (a & E & _ & _ & F & _).
        rewrite E in He. apply in_app_or in He. destruct He as [He | He];
          [now left |].
        right. rewrite Forall_forall in F. destruct (F e He) as [Hs Hl].
        exists rel. rewrite Hs. split; [now left |]. split; [congruence | exact Hl].
      * rewrite viewStep_unknown in He by assumption. now left.
    + right. exists rel'. split; [now right | auto].
Qed.

Lemma fold_viewStep_key (pages : PageInfoMap) (graph : RelationsGraph)
    (st : ViewState) (s : string) (rel : PageRelations) (ty : EdgeType)
    (t : string) :
  In (s, rel) graph -> JsMap.get s pages <> None ->
  onceType ty = true -> listed rel ty t ->
  In (edgeKey s t ty) (vs_seen (fold_left (viewStep pages) graph st)).
Proof.
  intros Hin Hk Hty Hl. revert st.
  induction graph as [| entry g IH]; intros st; [destruct Hin |].
  cbn [fold_left]. destruct Hin as [-> | Hin]; [| now apply IH].
  apply fold_viewStep_seen.
  destruct (JsMap.get s pages) as [info |] eqn:Hget; [| now elim Hk].
  destruct (@viewStep_grows pages st s rel info Hget) as (a & _ & _ & _ & _ & _ & K & Kn).
  destruct Hl as [Hl | (-> & Hn & Hne)]; [now apply K | now apply Kn].
Qed.

(** ** The nodes of the view *)

Lemma nodeOf_ids (pages : PageInfoMap) (graph : RelationsGraph) :
  (forall s, In s (JsMap.keys graph) -> JsMap.get s pages <> None) ->
  map Node.id (flat_map (nodeOf pages) graph) = JsMap.keys graph.
Proof.
  induction graph as [| [s rel] g IH]; intros H; [reflexivity |].
  cbn [flat_map]. rewrite map_app, IH by (intros x Hx; apply H; now right).
  unfold nodeOf. cbn [fst snd].
  destruct (JsMap.get s pages) eqn:E; [reflexivity |].
  elim (H s); [now left | exact E].
Qed.

(** X15. The full view has one node for each entry of the graph whose
    page is known, in the order of the graph, with the title of the page
    and the count of its connections; for a graph that was built, these
    are the page ids of the store in the order they first occur. *)
Theorem view_nodes (graph : RelationsGraph) (pages : PageInfoMap)
    (allPages : list Page) :
  nodes (buildGraphData graph pages) = flat_map (nodeOf pages) graph /\
  map Node.id (nodes (buildGraphData (fst (buildRelationsGraph allPages))
                                     (snd (buildRelationsGraph allPages)))) =
  JsSet.of_list (map id allPages).
Proof.
  assert (H : forall g p, nodes (buildGraphData g p) = flat_map (nodeOf p) g).
  { intros g p. unfold buildGraphData, buildGraphState. cbn [nodes].
    now rewrite fold_viewStep_nodes. }
  split; [apply H |]. rewrite H, nodeOf_ids.
  - rewrite buildRelationsGraph_eq. cbn [fst]. rewrite keys_secondPass.
    apply firstPass_keys_order.
  - intros s Hs Hnone.
    pose proof (buildRelationsGraph_completed allPages s) as Hc.
    rewrite Hnone in Hc.
    destruct (JsMap.get s (fst (buildRelationsGraph allPages))) eqn:E; [exact Hc |].
    apply JsMapFacts.get_in_keys in Hs. congruence.
Qed.

(** X16. The edges of a containment or reference type ([ntpp], [tpp],
    [r]) in the full view are exactly the targets the entries list under
    that type, one edge for each, in the order of the graph and of the
    arrays: none is dropped and none is merged. *)
Theorem directional_edges_exact (graph : RelationsGraph) (pages : PageInfoMap)
    (ty : EdgeType) :
  onceType ty = false ->
  filter (hasType ty) (edges (buildGraphData graph pages)) =
  flat_map (listedEdges pages ty) graph.
Proof.
  intros Hty. unfold buildGraphData, buildGraphState. cbn [edges].
  now rewrite fold_viewStep_typed.
Qed.

Lemma directional_edges_exact_witness :
  let store := [pageDeclaring "A" NTPP ["B"; "B"]; pageDeclaring "B" NTPP []] in
  onceType E_ntpp = false /\
  filter (hasType E_ntpp)
    (edges (buildGraphData (fst (buildRelationsGraph store))
                           (snd (buildRelationsGraph store)))) =
  flat_map (listedEdges (snd (buildRelationsGraph store)) E_ntpp)
           (fst (buildRelationsGraph store)).
Proof.
  intros store.
  assert (H : onceType E_ntpp = false) by reflexivity.
  split; [exact H |].
  exact (@directional_edges_exact (fst (buildRelationsGraph store))
           (snd (buildRelationsGraph store)) E_ntpp H).
Defined.

(** X17. Every edge of the full view is read from the graph: it starts
    at a key of the graph that is a node of the view, and ends at a slug
    the entry of that key lists under the type of the edge. *)
Theorem edges_from_entries (graph : RelationsGraph) (pages : PageInfoMap)
    (e : GraphEdge) :
  In e (edges (buildGraphData graph pages)) ->
  In (Edge.source e) (map Node.id (nodes (buildGraphData graph pages))) /\
  exists rel, In (Edge.source e, rel) graph /\
              listed rel (Edge.type e) (Edge.target e).
Proof.
  unfold buildGraphData, buildGraphState. cbn [edges nodes]. intros He.
  apply fold_viewStep_from in He. destruct He as [[] | (rel & Hin & Hk & Hl)].
  split; [| now exists rel].
  rewrite fold_viewStep_nodes. cbn [vs_nodes app].
  apply in_map_iff.
  destruct (JsMap.get (Edge.source e) pages) as [info |] eqn:Hget; [| now elim Hk].
  exists (Node.mk (Edge.source e) (title info) (countConnections rel)).
  split; [reflexivity |]. apply in_flat_map. exists (Edge.source e, rel).
  split; [exact Hin |]. unfold nodeOf. cbn [fst snd]. rewrite Hget. now left.
Qed.

Lemma edges_from_entries_witness :
  let store := [pageDeclaring "A" EQ ["B"]; pageDeclaring "B" EQ []] in
  let view := buildGraphData (fst (buildRelationsGraph store))
                             (snd (buildRelationsGraph store)) in
  In (Edge.mk "A" "B" E_eq) (edges view) /\
  In "A" (map Node.id (nodes view)).
Proof.
  intros store view.
  assert (H : In (Edge.mk "A" "B" E_eq) (edges view)) by (vm_compute; auto).
  split; [exact H |].
  exact (proj1 (@edges_from_entries (fst (buildRelationsGraph store))
                  (snd (buildRelationsGraph store)) _ H)).
Defined.

(** ** The full view: the keys tell the pairs apart when no slug holds a colon *)

Lemma split_at_colons (x x' r r' : string) :
  colonFree x = true -> colonFree x' = true ->
  (x ++ "::" ++ r)%string = (x' ++ "::" ++ r')%string -> x = x' /\ r = r'.
Proof.
  unfold colonFree. revert x'.
  induction x as [| a x IH]; intros [| a' x'] Hx Hx' E; cbn in *.
  - injection E as E. auto.
  - injection E as <- _. discriminate Hx'.
  - injection E as -> _. discriminate Hx.
  - injection E as -> E.
    destruct (Ascii.eqb a' ":") eqn:Ea; [discriminate Hx |]. cbn in *.
    destruct (IH x' Hx Hx' E) as [-> ->]. auto.
Qed.

Lemma sortPair_cases (a b : string) :
  sortPair a b = (a, b) \/ sortPair a b = (b, a).
Proof. unfold sortPair. destruct (String.leb a b); auto. Qed.

Lemma edgeTypeName_inj (ty ty' : EdgeType) :
  edgeTypeName ty = edgeTypeName ty' -> ty = ty'.
Proof. destruct ty, ty'; intros E; try reflexivity; discriminate E. Qed.

Lemma edgeKey_inj (a b a' b' : string) (ty ty' : EdgeType) :
  colonFree a = true -> colonFree b = true ->
  colonFree a' = true -> colonFree b' = true ->
  edgeKey a b ty = edgeKey a' b' ty' ->
  ty = ty' /\ ((a = a' /\ b = b') \/ (a = b' /\ b = a')).
Proof.
  intros Ha Hb Ha' Hb'. unfold edgeKey.
  destruct (sortPair_cases a b) as [-> | ->],
           (sortPair_cases a' b') as [-> | ->]; intros E;
    apply split_at_colons in E; try assumption; destruct E as [-> E];
    apply split_at_colons in E; try assumption; destruct E as [-> E];
    apply edgeTypeName_inj in E; auto.
Qed.

Lemma colonFreeGraph_listed (graph : RelationsGraph) (s : string)
    (rel : PageRelations) (ty : EdgeType) (t : string) :
  colonFreeGraph graph = true -> In (s, rel) graph ->
  onceType ty = true -> listed rel ty t ->
  colonFree s = true /\ colonFree t = true.
Proof.
  intros Hg Hin Hty Hl. unfold colonFreeGraph in Hg.
  rewrite forallb_forall in Hg. specialize (Hg _ Hin).
  unfold colonFreeEntry in Hg. cbn [fst snd] in Hg.
  apply andb_true_iff in Hg. destruct Hg as [Hg Hn].
  apply andb_true_iff in Hg. destruct Hg as [Hs Hf].
  split; [exact Hs |]. rewrite forallb_forall in Hf.
  destruct Hl as [Hl | (-> & Hnext & _)].
  - destruct ty; try discriminate Hty; cbn [fieldOfType] in Hl;
      [| | | | destruct Hl]; apply Hf; rewrite !in_app_iff; tauto.
  - now rewrite Hnext in Hn.
Qed.

Lemma joins_intro (ty : EdgeType) (a b : string) (e : GraphEdge) :
  Edge.type e = ty ->
  (Edge.source e = a /\ Edge.target e = b) \/
  (Edge.source e = b /\ Edge.target e = a) ->
  joins ty a b e = true.
Proof.
  intros Hty H. unfold joins. apply andb_true_iff. split.
  - now apply EdgeType_eqb_eq.
  - apply orb_true_iff. rewrite !andb_true_iff, !String.eqb_eq. exact H.
Qed.

(** X18. When neither a key of the graph nor a slug listed under a
    symmetric type or as [next] holds a colon, a pair that an entry with
    a known page lists under such a type has exactly one edge of that
    type in the full view. *)
Theorem one_edge_when_colon_free (graph : RelationsGraph) (pages : PageInfoMap)
    (a b : string) (rel : PageRelations) (ty : EdgeType) :
  colonFreeGraph graph = true ->
  In (a, rel) graph -> JsMap.get a pages <> None ->
  onceType ty = true -> listed rel ty b ->
  edgesBetween ty a b (buildGraphData graph pages) = 1.
Proof.
  intros Hg Hin Hk Hty Hl.
  pose proof (@edgesBetween_le_1 graph pages ty a b Hty) as Hle.
  enough (1 <= edgesBetween ty a b (buildGraphData graph pages)) by lia.
  unfold edgesBetween, buildGraphData, buildGraphState in *. cbn [edges] in *.
  pose proof (@fold_viewStep_key pages graph (mkView [] [] JsSet.empty)
                a rel ty b Hin Hk Hty Hl) as Hkey.
  destruct (buildGraphState_inv graph pages) as [E _].
  unfold buildGraphState in E. rewrite <- E in Hkey.
  apply in_map_iff in Hkey. destruct Hkey as (e & Hke & He).
  apply filter_In in He. destruct He as [He Ho].
  pose proof (fold_viewStep_from _ _ _ _ He) as Hfrom.
  destruct Hfrom as [[] | (rel' & Hin' & _ & Hl')].
  destruct (colonFreeGraph_listed _ _ Hg Hin Hty Hl) as [Ca Cb].
  destruct (colonFreeGraph_listed _ _ Hg Hin' Ho Hl') as [Cs Ct].
  unfold keyOf in Hke. apply edgeKey_inj in Hke; try assumption.
  destruct Hke as [Het Hends].
  assert (Hj : In e (filter (joins ty a b)
                 (vs_edges (fold_left (viewStep pages) graph
                              (mkView [] [] JsSet.empty))))).
  { apply filter_In. split; [exact He |]. now apply joins_intro. }
  destruct (filter (joins ty a b) _); [destruct Hj | simpl; lia].
Qed.

Lemma one_edge_when_colon_free_witness :
  let store := [pageDeclaring "A" EQ ["B"]; pageDeclaring "B" EQ ["A"]] in
  let graph := fst (buildRelationsGraph store) in
  let pages := snd (buildRelationsGraph store) in
  edgesBetween E_eq "B" "A" (buildGraphData graph pages) = 1.
Proof.
  intros store graph pages.
  refine (@one_edge_when_colon_free graph pages "B" "A"
            (Rel.mk [] [] [] [] [] [] ["A"] [] None None [] []) E_eq _ _ _ _ _).
  - vm_compute. reflexivity.
  - vm_compute. auto.
  - vm_compute. discriminate.
  - reflexivity.
  - left. vm_compute. auto.
Defined.

(** ** The subgraph view: more hops or more types never lose anything *)

Lemma hops_mono (E E' : list GraphEdge) (root : string) (n : nat) (v : string) :
  incl E E' -> hops E root n v -> hops E' root n v.
Proof.
  intros Hincl H. induction H as [| n u v _ IH (e & He & Hends)].
  - constructor.
  - apply hops_next with (u := u); [exact IH |].
    exists e. split; [now apply Hincl | exact Hends].
Qed.

Lemma within_mono (E E' : list GraphEdge) (root : string) (N N' : nat)
    (v : string) :
  incl E E' -> N <= N' -> within E root N v -> within E' root N' v.
Proof.
  intros Hincl Hle (n & Hn & H). exists n. split; [lia |].
  now apply hops_mono with (E := E).
Qed.

Lemma relevantEdges_mono (full : GraphData) (types types' : list EdgeType)
    (d d' : nat) :
  incl types types' ->
  incl (relevantEdgesOf full (mkOpts types d))
       (relevantEdgesOf full (mkOpts types' d')).
Proof.
  intros Hincl e He. apply relevantEdges_In in He. apply relevantEdges_In.
  cbn [relationTypes] in *. destruct He as [He Hty]. auto.
Qed.

Lemma subgraph_nodes_In (graph : RelationsGraph) (pages : PageInfoMap)
    (rootSlug : string) (opts : SubgraphOptions) (n : GraphNode) :
  In n (nodes (buildSubgraphData graph pages rootSlug opts)) <->
  In n (nodes (buildGraphData graph pages)) /\
  within (relevantEdgesOf (buildGraphData graph pages) opts) rootSlug
         (depth opts) (Node.id n).
Proof.
  unfold buildSubgraphData. cbn [nodes].
  rewrite filter_In, JsSet_has_In, includedSlugs_within. reflexivity.
Qed.

Lemma subgraph_edges_In (graph : RelationsGraph) (pages : PageInfoMap)
    (rootSlug : string) (opts : SubgraphOptions) (e : GraphEdge) :
  In e (edges (buildSubgraphData graph pages rootSlug opts)) <->
  In e (relevantEdgesOf (buildGraphData graph pages) opts) /\
  within (relevantEdgesOf (buildGraphData graph pages) opts) rootSlug
         (depth opts) (Edge.source e) /\
  within (relevantEdgesOf (buildGraphData graph pages) opts) rootSlug
         (depth opts) (Edge.target e).
Proof.
  unfold buildSubgraphData. cbn [edges].
  rewrite filter_In, andb_true_iff, !JsSet_has_In, !includedSlugs_within.
  reflexivity.
Qed.

(** X19. Asking [buildSubgraphData] for more hops, or for more relation
    types, never loses a node or an edge: the subgraph for a depth and a
    list of types is within the subgraph for any greater depth and any
    list that holds those types. *)
Theorem subgraph_monotone (graph : RelationsGraph) (pages : PageInfoMap)
    (rootSlug : string) (types types' : list EdgeType) (d d' : nat) :
  incl types types' -> d <= d' ->
  incl (nodes (buildSubgraphData graph pages rootSlug (mkOpts types d)))
       (nodes (buildSubgraphData graph pages rootSlug (mkOpts types' d'))) /\
  incl (edges (buildSubgraphData graph pages rootSlug (mkOpts types d)))
       (edges (buildSubgraphData graph pages rootSlug (mkOpts types' d'))).
Proof.
  intros Hty Hd.
  pose proof (@relevantEdges_mono (buildGraphData graph pages) types types' d d' Hty)
    as Hrel.
  split.
  - intros n Hn. apply subgraph_nodes_In in Hn. apply subgraph_nodes_In.
    cbn [depth] in *. destruct Hn as [Hn Hw]. split; [exact Hn |].
    now apply within_mono with (E := relevantEdgesOf (buildGraphData graph pages)
                                       (mkOpts types d)) (N := d).
  - intros e He. apply subgraph_edges_In in He. apply subgraph_edges_In.
    cbn [depth] in *. destruct He as (He & Hs & Ht).
    split; [now apply Hrel |].
    split; now apply within_mono with (E := relevantEdgesOf (buildGraphData graph pages)
                                              (mkOpts types d)) (N := d).
Qed.

Lemma subgraph_monotone_witness :
  let store := [pageDeclaring "R" EQ ["A"]; pageDeclaring "A" NTPP ["B"];
                pageDeclaring "B" EQ []] in
  let graph := fst (buildRelationsGraph store) in
  let pages := snd (buildRelationsGraph store) in
  incl (nodes (buildSubgraphData graph pages "R" (mkOpts [E_eq] 1)))
       (nodes (buildSubgraphData graph pages "R" (mkOpts [E_eq; E_ntpp] 2))) /\
  incl (edges (buildSubgraphData graph pages "R" (mkOpts [E_eq] 1)))
       (edges (buildSubgraphData graph pages "R" (mkOpts [E_eq; E_ntpp] 2))).
Proof.
  intros store graph pages.
  refine (@subgraph_monotone graph pages "R" [E_eq] [E_eq; E_ntpp] 1 2 _ _).
  - intros ty [<- | []]. simpl. auto.
  - lia.
Defined.

(** ** The link extractor: no link is lost *)

Lemma extractStep_grows (sourceSlug : string) (knownSlugs : JsSet.t)
    (slugs : list string) (href s : string) :
  In s slugs -> In s (extractStep sourceSlug knownSlugs slugs href).
Proof.
  intros H. unfold extractStep. destruct (skipped href); [exact H |].
  destruct (_ && _ && _); [| exact H]. apply in_or_app. now left.
Qed.

Lemma extract_fold_grows (sourceSlug : string) (knownSlugs : JsSet.t)
    (hrefs : list string) (slugs : list string) (s : string) :
  In s slugs -> In s (fold_left (extractStep sourceSlug knownSlugs) hrefs slugs).
Proof.
  revert slugs. induction hrefs as [| h hs IH]; intros slugs H; simpl; [exact H |].
  apply IH. now apply extractStep_grows.
Qed.

Lemma extract_fold_complete (sourceSlug : string) (knownSlugs : JsSet.t)
    (hrefs : list string) (slugs : list string) (href : string) :
  In href hrefs -> skipped href = false ->
  JsSet.has knownSlugs (pathToSlug (normalizePath href)) = true ->
  pathToSlug (normalizePath href) <> sourceSlug ->
  In (pathToSlug (normalizePath href))
     (fold_left (extractStep sourceSlug knownSlugs) hrefs slugs).
Proof.
  intros Hin Hs Hk Hne. revert slugs.
  induction hrefs as [| h hs IH]; intros slugs; [destruct Hin |].
  simpl. destruct Hin as [-> | Hin]; [| now apply IH].
  apply extract_fold_grows. unfold extractStep. rewrite Hs, Hk.
  apply String.eqb_neq in Hne. rewrite Hne. cbn [negb andb].
  destruct (includes slugs _) eqn:E; cbn [negb].
  - now apply includes_In.
  - apply in_or_app. right. now left.
Qed.

(** X20. [extractLinkSlugs] returns a slug exactly when the body has a
    link, not skipped, whose target normalises to the path of that
    slug, the slug is known and is not the source: no such link is
    lost, and nothing else is returned. *)
Theorem extracted_iff_linked (body sourceSlug : string) (knownSlugs : JsSet.t)
    (s : string) :
  In s (extractLinkSlugs body sourceSlug knownSlugs) <->
  exists href, In href (linkTargets body) /\ skipped href = false /\
               s = pathToSlug (normalizePath href) /\
               JsSet.has knownSlugs s = true /\ s <> sourceSlug.
Proof.
  rewrite extractLinkSlugs_fold. split.
  - intros H. apply extract_fold_origin in H. destruct H as [[] | H]. exact H.
  - intros (href & Hin & Hs & -> & Hk & Hne).
    now apply extract_fold_complete.
Qed.

(** ** The backlinks endpoint, key by key *)

Lemma linkStep_get (sp stl : string) (bl : Backlinks.t) (href k : string) :
  JsMap.get k (Backlinks.linkStep sp stl bl href) =
  option_map
    (fun arr =>
       if negb (skipped href) && (normalizePath href =? k) && negb (k =? sp)
          && negb (existsb (fun b => Backlinks.path b =? sp) arr)
       then arr ++ [Backlinks.mk sp stl] else arr)
    (JsMap.get k bl).
Proof.
  rewrite linkStep_normalizePath. destruct (skipped href); cbn [negb andb].
  - now destruct (JsMap.get k bl).
  - destruct (String.eqb_spec (normalizePath href) k) as [-> | Hne].
    + destruct (JsMap.get k bl) as [arr |] eqn:E; cbn [option_map]; [| exact E].
      destruct (k =? sp); cbn [negb andb orb]; [exact E |].
      destruct (existsb _ arr); cbn [negb]; [exact E |].
      now rewrite get_set, String.eqb_refl.
    + destruct (JsMap.get (normalizePath href) bl) as [arr0 |];
        [destruct (_ || _); [| rewrite get_set_ne by exact Hne] |];
        now destruct (JsMap.get k bl).
Qed.

Lemma linkStep_keys (sp stl : string) (bl : Backlinks.t) (href : string) :
  JsMap.keys (Backlinks.linkStep sp stl bl href) = JsMap.keys bl.
Proof.
  rewrite linkStep_normalizePath. destruct (skipped href); [reflexivity |].
  destruct (JsMap.get (normalizePath href) bl) as [arr |] eqn:E; [| reflexivity].
  destruct (_ || _); [reflexivity |].
  apply keys_set_present. congruence.
Qed.

Lemma existsb_snoc (A : Type) (f : A -> bool) (l : list A) (x : A) :
  existsb f (l ++ [x]) = existsb f l || f x.
Proof. rewrite existsb_app. simpl. now rewrite orb_false_r. Qed.

Lemma fold_linkStep_get (sp stl : string) (hrefs : list string)
    (bl : Backlinks.t) (k : string) :
  JsMap.get k (fold_left (Backlinks.linkStep sp stl) hrefs bl) =
  option_map
    (fun arr =>
       if existsb (fun href => negb (skipped href) && (normalizePath href =? k)) hrefs
          && negb (k =? sp)
          && negb (existsb (fun b => Backlinks.path b =? sp) arr)
       then arr ++ [Backlinks.mk sp stl] else arr)
    (JsMap.get k bl).
Proof.
  revert bl. induction hrefs as [| h hs IH]; intros bl; cbn [fold_left existsb].
  - now destruct (JsMap.get k bl).
  - rewrite IH, linkStep_get.
    destruct (JsMap.get k bl) as [arr |]; [| reflexivity]. cbn [option_map].
    f_equal.
    destruct (negb (skipped h) && (normalizePath h =? k)); cbn [andb orb].
    + destruct (negb (k =? sp)); cbn [andb];
        [| now rewrite !andb_false_r].
      destruct (existsb (fun b => Backlinks.path b =? sp) arr) eqn:Ex; cbn [negb].
      * now rewrite Ex, !andb_false_r.
      * rewrite existsb_snoc. cbn [Backlinks.path]. rewrite String.eqb_refl.
        now rewrite orb_true_r, !andb_false_r.
    + reflexivity.
Qed.

Lemma fold_linkStep_keys (sp stl : string) (hrefs : list string)
    (bl : Backlinks.t) :
  JsMap.keys (fold_left (Backlinks.linkStep sp stl) hrefs bl) = JsMap.keys bl.
Proof.
  revert bl. induction hrefs as [| h hs IH]; intros bl; simpl; [reflexivity |].
  now rewrite IH, linkStep_keys.
Qed.

Lemma pageStep_fold (bl : Backlinks.t) (page : Page) :
  Backlinks.pageStep bl page =
  fold_left (Backlinks.linkStep (Backlinks.pagePath page) (data_title page))
            (linkTargets (bodyOf page)) bl.
Proof. unfold Backlinks.pageStep. now rewrite execLoop_terminates. Qed.

Lemma pageStep_get (bl : Backlinks.t) (page : Page) (k : string) :
  JsMap.get k (Backlinks.pageStep bl page) =
  option_map (fun arr => addBacklink k arr page) (JsMap.get k bl).
Proof. rewrite pageStep_fold. apply fold_linkStep_get. Qed.

Lemma pageStep_keys (bl : Backlinks.t) (page : Page) :
  JsMap.keys (Backlinks.pageStep bl page) = JsMap.keys bl.
Proof. rewrite pageStep_fold. apply fold_linkStep_keys. Qed.

Lemma fold_pageStep_get (pages : list Page) (bl : Backlinks.t) (k : string) :
  JsMap.get k (fold_left Backlinks.pageStep pages bl) =
  option_map (fun arr => fold_left (addBacklink k) pages arr) (JsMap.get k bl).
Proof.
  revert bl. induction pages as [| p ps IH]; intros bl; cbn [fold_left].
  - now destruct (JsMap.get k bl).
  - rewrite IH, pageStep_get. now destruct (JsMap.get k bl).
Qed.

Lemma fold_pageStep_keys (pages : list Page) (bl : Backlinks.t) :
  JsMap.keys (fold_left Backlinks.pageStep pages bl) = JsMap.keys bl.
Proof.
  revert bl. induction pages as [| p ps IH]; intros bl; simpl; [reflexivity |].
  now rewrite IH, pageStep_keys.
Qed.

Lemma init_run (pages : list Page) (bl : Backlinks.t) :
  (forall k arr, JsMap.get k bl = Some arr -> arr = []) ->
  let bl' := fold_left (fun backlinks page =>
                          JsMap.set (Backlinks.pagePath page) [] backlinks)
                       pages bl in
  JsMap.keys bl' = fold_left JsSet.add (map Backlinks.pagePath pages) (JsMap.keys bl) /\
  (forall k arr, JsMap.get k bl' = Some arr -> arr = []).
Proof.
  revert bl. induction pages as [| p ps IH]; intros bl Hbl; cbn [fold_left map].
  - split; [reflexivity | exact Hbl].
  - specialize (IH (JsMap.set (Backlinks.pagePath p) [] bl)).
    rewrite keys_set_add in IH. apply IH.
    intros k arr. rewrite get_set.
    destruct (k =? Backlinks.pagePath p); [now intros [= <-] | apply Hbl].
Qed.

Lemma init_keys (pages : list Page) :
  JsMap.keys (Backlinks.init pages) = JsSet.of_list (map Backlinks.pagePath pages).
Proof.
  unfold Backlinks.init, JsSet.of_list.
  apply (@init_run pages JsMap.empty). intros k arr [=].
Qed.

Lemma init_get (pages : list Page) (k : string) :
  JsMap.get k (Backlinks.init pages) =
  if includes (map Backlinks.pagePath pages) k then Some [] else None.
Proof.
  destruct (includes (map Backlinks.pagePath pages) k) eqn:E.
  - apply includes_In in E.
    assert (Hk : In k (JsMap.keys (Backlinks.init pages))).
    { rewrite init_keys. unfold JsSet.of_list. apply fold_add_In. now right. }
    apply in_keys_get in Hk. destruct Hk as [arr Harr]. rewrite Harr. f_equal.
    unfold Backlinks.init in Harr.
    refine (proj2 (@init_run pages JsMap.empty _) k arr Harr).
    intros k' arr' [=].
  - apply includes_false in E.
    destruct (JsMap.get k (Backlinks.init pages)) eqn:G; [| reflexivity].
    elim E. apply get_Some_in_keys in G. rewrite init_keys in G.
    unfold JsSet.of_list in G. apply fold_add_In in G. now destruct G.
Qed.

Lemma GET_get (allPages : list Page) (k : string) :
  JsMap.get k (Backlinks.GET allPages) =
  if includes (map Backlinks.pagePath allPages) k
  then Some (backlinksAt allPages k) else None.
Proof.
  unfold Backlinks.GET. rewrite fold_pageStep_get, init_get.
  now destruct (includes _ k).
Qed.

(** ** The backlinks endpoint: its entries *)

(** X21. The endpoint has one entry for each page path of the store, in
    the order the paths first occur, and none for any other path: a
    link whose target is no page adds no entry. *)
Theorem backlinks_keys (allPages : list Page) (k : string) :
  JsMap.keys (Backlinks.GET allPages) =
    JsSet.of_list (map Backlinks.pagePath allPages) /\
  (JsMap.get k (Backlinks.GET allPages) = None <->
   ~ In k (map Backlinks.pagePath allPages)).
Proof.
  split.
  - unfold Backlinks.GET. rewrite fold_pageStep_keys. apply init_keys.
  - rewrite GET_get. destruct (includes _ k) eqn:E.
    + apply includes_In in E. split; [discriminate | tauto].
    + apply includes_false in E. tauto.
Qed.

Lemma listed_path (arr : list Backlinks.Backlink) (p : string) :
  existsb (fun b => Backlinks.path b =? p) arr = true <->
  In p (map Backlinks.path arr).
Proof.
  rewrite existsb_exists, in_map_iff. split.
  - intros (b & Hb & E). apply String.eqb_eq in E. eauto.
  - intros (b & E & Hb). exists b. split; [exact Hb | now apply String.eqb_eq].
Qed.

Lemma addBacklink_cases (k : string) (arr : list Backlinks.Backlink)
    (page : Page) :
  addBacklink k arr page = arr \/
  (addBacklink k arr page =
     arr ++ [Backlinks.mk (Backlinks.pagePath page) (data_title page)] /\
   linksToPath page k = true /\ k <> Backlinks.pagePath page /\
   ~ In (Backlinks.pagePath page) (map Backlinks.path arr)).
Proof.
  unfold addBacklink.
  destruct (linksToPath page k); cbn [andb]; [| now left].
  destruct (String.eqb_spec k (Backlinks.pagePath page)) as [E | Hne];
    cbn [negb andb]; [now left |].
  destruct (existsb _ arr) eqn:Ex; cbn [negb]; [now left |].
  right. repeat split; try assumption.
  intros Hin. apply listed_path in Hin. congruence.
Qed.

Lemma backlinksAt_sound (k : string) (pages : list Page)
    (acc : list Backlinks.Backlink) :
  NoDup (map Backlinks.path acc) ->
  NoDup (map Backlinks.path (fold_left (addBacklink k) pages acc)) /\
  forall b, In b (fold_left (addBacklink k) pages acc) ->
    In b acc \/
    (Backlinks.path b <> k /\
     exists Q, In Q pages /\
               b = Backlinks.mk (Backlinks.pagePath Q) (data_title Q) /\
               linksToPath Q k = true).
Proof.
  revert acc. induction pages as [| p ps IH]; intros acc Hnd; cbn [fold_left].
  - split; [exact Hnd | now left].
  - destruct (addBacklink_cases k acc p) as [-> | (-> & Hl & Hne & Hnew)].
    + destruct (IH acc Hnd) as [H1 H2]. split; [exact H1 |].
      intros b Hb. destruct (H2 b Hb) as [? | (? & Q & ? & ? & ?)]; [now left |].
      right. split; [assumption |]. exists Q. split; [now right | auto].
    + assert (Hnd' : NoDup (map Backlinks.path
                (acc ++ [Backlinks.mk (Backlinks.pagePath p) (data_title p)]))).
      { rewrite map_app. apply NoDup_app; [assumption | repeat constructor; simpl; tauto |].
        intros x Hx [<- | []]. contradiction. }
      destruct (IH _ Hnd') as [H1 H2]. split; [exact H1 |].
      intros b Hb. destruct (H2 b Hb) as [Hin | (? & Q & ? & ? & ?)].
      * apply in_app_or in Hin. destruct Hin as [Hin | [<- | []]]; [now left |].
        right. split; [cbn [Backlinks.path]; congruence |].
        exists p. split; [now left | auto].
      * right. split; [assumption |]. exists Q. split; [now right | auto].
Qed.

Lemma backlinksAt_grows (k : string) (pages : list Page)
    (acc : list Backlinks.Backlink) (p : string) :
  In p (map Backlinks.path acc) ->
  In p (map Backlinks.path (fold_left (addBacklink k) pages acc)).
Proof.
  revert acc. induction pages as [| q ps IH]; intros acc H; cbn [fold_left];
    [exact H |].
  apply IH. destruct (addBacklink_cases k acc q) as [-> | (-> & _)]; [exact H |].
  rewrite map_app. apply in_or_app. now left.
Qed.

Lemma backlinksAt_complete (k : string) (pages : list Page)
    (acc : list Backlinks.Backlink) (Q : Page) :
  In Q pages -> linksToPath Q k = true -> Backlinks.pagePath Q <> k ->
  In (Backlinks.pagePath Q)
     (map Backlinks.path (fold_left (addBacklink k) pages acc)).
Proof.
  intros Hin Hl Hne. revert acc.
  induction pages as [| q ps IH]; intros acc; [destruct Hin |].
  cbn [fold_left]. destruct Hin as [-> | Hin]; [| now apply IH].
  apply backlinksAt_grows. unfold addBacklink. rewrite Hl.
  assert (E : (k =? Backlinks.pagePath Q) = false)
    by (apply String.eqb_neq; congruence).
  rewrite E. cbn [negb andb].
  destruct (existsb _ acc) eqn:Ex; cbn [negb].
  - now apply listed_path.
  - rewrite map_app. apply in_or_app. right. now left.
Qed.

(** X22. The entry of a page path lists no page twice and never the
    page itself; every page it lists is a page of the store, under its
    path and title, with a link, not skipped, that normalises to that
    path; and every page of the store with such a link, other than the
    page itself, is listed. *)
Theorem backlinks_entry (allPages : list Page) (k : string) :
  In k (map Backlinks.pagePath allPages) ->
  exists arr,
    JsMap.get k (Backlinks.GET allPages) = Some arr /\
    NoDup (map Backlinks.path arr) /\
    (forall b, In b arr ->
       Backlinks.path b <> k /\
       exists Q, In Q allPages /\
                 b = Backlinks.mk (Backlinks.pagePath Q) (data_title Q) /\
                 linksToPath Q k = true) /\
    (forall Q, In Q allPages -> linksToPath Q k = true ->
               Backlinks.pagePath Q <> k ->
               In (Backlinks.pagePath Q) (map Backlinks.path arr)).
Proof.
  intros Hk. exists (backlinksAt allPages k). rewrite GET_get.
  apply includes_In in Hk. rewrite Hk. split; [reflexivity |].
  unfold backlinksAt.
  destruct (@backlinksAt_sound k allPages [] (NoDup_nil _)) as [H1 H2].
  split; [exact H1 |]. split.
  - intros b Hb. destruct (H2 b Hb) as [[] | H]. exact H.
  - intros Q. apply backlinksAt_complete.
Qed.

Lemma backlinks_entry_witness :
  let store := [pageBody "index" "Home [a](/a)"; pageBody "a" "Back [home](/)."] in
  exists arr,
    JsMap.get "/" (Backlinks.GET store) = Some arr /\
    NoDup (map Backlinks.path arr) /\
    (forall b, In b arr ->
       Backlinks.path b <> "/"%string /\
       exists Q, In Q store /\
                 b = Backlinks.mk (Backlinks.pagePath Q) (data_title Q) /\
                 linksToPath Q "/" = true) /\
    (forall Q, In Q store -> linksToPath Q "/" = true ->
               Backlinks.pagePath Q <> "/"%string ->
               In (Backlinks.pagePath Q) (map Backlinks.path arr)).
Proof.
  intros store. apply (@backlinks_entry store "/"). vm_compute. auto.
Defined.

(** ** The backlinks endpoint and the link extractor *)

Lemma normalizePath_slash (href : string) :
  startsWith (normalizePath href) "/" = true.
Proof.
  unfold normalizePath.
  set (p1 := if startsWith href "./" then slice1 href else href).
  set (p2 := if startsWith p1 "/" then p1 else ("/" ++ p1)%string).
  assert (H2 : startsWith p2 "/" = true).
  { subst p2. destruct (startsWith p1 "/") eqn:E; [exact E |].
    apply startsWith_slash_app. }
  destruct (endsWithSlash p2 && negb (p2 =? "/")) eqn:E; [| exact H2].
  destruct p2 as [| c [| c' r]]; [discriminate H2 | |].
  - unfold startsWith in H2. apply prefix_cons_head in H2. subst c.
    cbn in E. discriminate E.
  - unfold startsWith in H2. pose proof (prefix_cons_head _ _ _ _ H2) as Hc.
    subst c. cbn [sliceInit]. apply startsWith_slash.
Qed.

Lemma slug_of_path (p : string) :
  startsWith p "/" = true -> p <> "/index"%string ->
  slugToPath (pathToSlug p) = p.
Proof.
  intros Hs Hne. destruct p as [| c r]; [discriminate Hs |].
  unfold startsWith in Hs. pose proof (prefix_cons_head _ _ _ _ Hs) as Hc.
  subst c. unfold pathToSlug. rewrite startsWith_slash.
  destruct r as [| c' r']; [reflexivity |].
  change (String "/" (String c' r') =? "/") with false. cbn [slice1].
  unfold slugToPath.
  destruct (String.eqb_spec (String c' r') "index") as [E | _];
    [rewrite E in Hne; now elim Hne | reflexivity].
Qed.

Lemma path_of_slug (s : string) : s <> ""%string -> pathToSlug (slugToPath s) = s.
Proof.
  intros Hne. unfold slugToPath.
  destruct (String.eqb_spec s "index") as [-> | _]; [reflexivity |].
  destruct s as [| c s']; [now elim Hne |]. reflexivity.
Qed.

Lemma pagePath_slugToPath (page : Page) :
  Backlinks.pagePath page = slugToPath (id page).
Proof. reflexivity. Qed.

Lemma slugToPath_inj (a b : string) :
  a <> ""%string -> b <> ""%string -> slugToPath a = slugToPath b -> a = b.
Proof.
  intros Ha Hb E. apply (f_equal pathToSlug) in E.
  now rewrite !path_of_slug in E.
Qed.

Lemma bool_eq_iff (a b : bool) : (a = true <-> b = true) -> a = b.
Proof. destruct a, b; intros [H1 H2]; auto; symmetry; auto. Qed.

Lemma backlinksAt_distinct (k : string) (pages : list Page)
    (acc : list Backlinks.Backlink) :
  NoDup (map Backlinks.pagePath pages) ->
  (forall Q, In Q pages -> ~ In (Backlinks.pagePath Q) (map Backlinks.path acc)) ->
  fold_left (addBacklink k) pages acc =
  acc ++ map (fun Q => Backlinks.mk (Backlinks.pagePath Q) (data_title Q))
             (filter (fun Q => linksToPath Q k && negb (k =? Backlinks.pagePath Q))
                     pages).
Proof.
  revert acc. induction pages as [| p ps IH]; intros acc Hnd Hacc;
    cbn [fold_left filter map].
  - now rewrite app_nil_r.
  - cbn [map] in Hnd. inversion Hnd as [| ? ? Hp Hnd']; subst.
    assert (Ex : existsb (fun bl => Backlinks.path bl =? Backlinks.pagePath p) acc
                 = false).
    { destruct (existsb _ acc) eqn:Ex; [| reflexivity].
      apply listed_path in Ex. elim (Hacc p (or_introl eq_refl) Ex). }
    unfold addBacklink at 2. rewrite Ex. cbn [negb]. rewrite andb_true_r.
    destruct (linksToPath p k && negb (k =? Backlinks.pagePath p)).
    + rewrite IH; [cbn [map]; now rewrite <- app_assoc | exact Hnd' |].
      intros Q HQ Hin. rewrite map_app in Hin. apply in_app_or in Hin.
      destruct Hin as [Hin | [E | []]].
      * exact (Hacc Q (or_intror HQ) Hin).
      * cbn [Backlinks.path] in E. apply Hp. rewrite E. now apply in_map.
    + apply IH; [exact Hnd' |]. intros Q HQ. apply Hacc. now right.
Qed.

Lemma NoDup_pagePath (pages : list Page) :
  NoDup (map id pages) -> (forall page, In page pages -> id page <> ""%string) ->
  NoDup (map Backlinks.pagePath pages).
Proof.
  induction pages as [| p ps IH]; intros Hnd Hne; cbn [map]; [constructor |].
  cbn [map] in Hnd. inversion Hnd as [| ? ? Hp Hnd']; subst. constructor.
  - intros Hin. apply in_map_iff in Hin. destruct Hin as (q & E & Hq).
    apply Hp. rewrite !pagePath_slugToPath in E.
    apply slugToPath_inj in E; [| apply Hne; now right | apply Hne; now left].
    rewrite <- E. now apply in_map.
  - apply IH; [exact Hnd' |]. intros page Hpage. apply Hne. now right.
Qed.

Lemma of_list_In (l : list string) (x : string) :
  In x (JsSet.of_list l) <-> In x l.
Proof. unfold JsSet.of_list. rewrite fold_add_In. simpl. tauto. Qed.

Lemma linksToPath_spec (page : Page) (k : string) :
  linksToPath page k = true <->
  exists href, In href (linkTargets (bodyOf page)) /\ skipped href = false /\
               normalizePath href = k.
Proof.
  unfold linksToPath. rewrite existsb_exists. split.
  - intros (href & Hin & E). apply andb_true_iff in E. destruct E as [E1 E2].
    apply negb_true_iff in E1. apply String.eqb_eq in E2. eauto.
  - intros (href & Hin & Hs & Hk). exists href. split; [exact Hin |].
    rewrite Hs. cbn [negb andb]. now apply String.eqb_eq.
Qed.

Lemma extractor_agrees (allPages : list Page) (P Q : Page) :
  (forall page, In page allPages -> id page <> ""%string) ->
  ((exists page, In page allPages /\ id page = "index"%string) ->
   noIndexLink allPages = true) ->
  In P allPages -> In Q allPages ->
  includes (extractLinkSlugs (bodyOf Q) (id Q) (JsSet.of_list (map id allPages)))
           (id P) =
  linksToPath Q (Backlinks.pagePath P)
  && negb (Backlinks.pagePath P =? Backlinks.pagePath Q).
Proof.
  intros Hne Hidx HP HQ. apply bool_eq_iff.
  rewrite includes_In, extractLinkSlugs_fold, andb_true_iff, negb_true_iff,
    String.eqb_neq, linksToPath_spec.
  split.
  - intros H. apply extract_fold_origin in H.
    destruct H as [[] | (href & Hin & Hs & E & _ & Hself)].
    assert (Hnp : normalizePath href <> "/index"%string).
    { intros Hnp. rewrite Hnp in E. change (pathToSlug "/index") with "index"%string in E.
      assert (Hno : noIndexLink allPages = true) by (apply Hidx; eauto).
      unfold noIndexLink in Hno. rewrite forallb_forall in Hno.
      specialize (Hno Q HQ). apply negb_true_iff in Hno.
      assert (Hyes : linksToPath Q "/index" = true)
        by (apply linksToPath_spec; eauto).
      congruence. }
    split.
    + exists href. split; [exact Hin |]. split; [exact Hs |].
      rewrite pagePath_slugToPath, E.
      symmetry. apply slug_of_path; [apply normalizePath_slash | exact Hnp].
    + rewrite !pagePath_slugToPath. intros Heq.
      apply slugToPath_inj in Heq; auto.
  - intros [(href & Hin & Hs & Hk) Hdiff].
    assert (E : pathToSlug (normalizePath href) = id P).
    { rewrite Hk, pagePath_slugToPath. apply path_of_slug. auto. }
    rewrite <- E. apply extract_fold_complete; try assumption.
    + rewrite E. apply JsSet_has_In, of_list_In. now apply in_map.
    + rewrite E. intros Heq. apply Hdiff. unfold Backlinks.pagePath.
      now rewrite Heq.
Qed.

(** X23. In a store whose page ids are distinct and not empty, and where
    no link names the home page as [/index], the endpoint and the link
    extractor agree: the entry of each page lists, in the order of the
    store, the pages whose extracted references hold its slug. *)
Theorem backlinks_agree_plain (allPages : list Page) :
  NoDup (map id allPages) ->
  (forall page, In page allPages -> id page <> ""%string) ->
  ((exists page, In page allPages /\ id page = "index"%string) ->
   noIndexLink allPages = true) ->
  backlinksAgree allPages.
Proof.
  intros Hnd Hne Hidx P HP. rewrite GET_get.
  assert (Hk : includes (map Backlinks.pagePath allPages) (Backlinks.pagePath P) = true)
    by (apply includes_In; now apply in_map).
  rewrite Hk. f_equal. unfold backlinksAt, backlinksFromExtractor.
  rewrite backlinksAt_distinct;
    [| now apply NoDup_pagePath | intros Q _ []].
  cbn [app]. f_equal. apply filter_ext_in. intros Q HQ.
  symmetry. now apply extractor_agrees.
Qed.

Lemma backlinks_agree_plain_witness :
  backlinksAgree [pageBody "index" "Home [a](./a/)"; pageBody "a" "Back [home](/)."].
Proof.
  apply backlinks_agree_plain.
  - repeat constructor; simpl; intuition discriminate.
  - intros page [<- | [<- | []]]; discriminate.
  - intros _. reflexivity.
Defined.

(** ** Breadcrumbs of a built graph *)

Lemma walk_fresh (graph : RelationsGraph) (visited : JsSet.t) (cur : string)
    (chain : list string) :
  walk graph visited cur chain -> ~ In cur visited ->
  NoDup chain /\
  forall x, In x chain -> ~ In x visited /\ JsMap.get x graph <> None.
Proof.
  induction 1 as [visited cur rel o Hg Hc Hh | visited cur rel p chain Hg Hp Hnew Hdef Hw IH];
    intros Hcur.
  - split; [repeat constructor; simpl; tauto |].
    intros x [<- | []]. split; [exact Hcur | congruence].
  - destruct (IH Hnew) as [Hnd Hall]. split.
    + apply NoDup_app; [exact Hnd | repeat constructor; simpl; tauto |].
      intros x Hx [<- | []]. destruct (Hall _ Hx) as [Hx' _].
      apply Hx'. apply JsSet_add_In. now right.
    + intros x Hx. apply in_app_or in Hx. destruct Hx as [Hx | [<- | []]].
      * destruct (Hall _ Hx) as [Hx' Hd]. split; [| exact Hd].
        intros Hv. apply Hx'. apply JsSet_add_In. now left.
      * split; [exact Hcur | congruence].
Qed.

Lemma built_keys (allPages : list Page) (s : string) :
  JsMap.get s (fst (buildRelationsGraph allPages)) <> None <->
  In s (map id allPages).
Proof.
  rewrite get_in_keys, buildRelationsGraph_eq. cbn [fst].
  rewrite keys_secondPass. apply firstPass_keys.
Qed.

Lemma of_list_length (l : list string) :
  List.length (JsSet.of_list l) <= List.length l.
Proof.
  induction l as [| x l IH] using rev_ind; [simpl; lia |].
  rewrite of_list_snoc, length_app. simpl.
  unfold JsSet.add. destruct (JsSet.has _ x); [lia |].
  rewrite length_app. simpl. lia.
Qed.

(** X24. On the graph built from a store without the empty id, the
    breadcrumbs of a page of the store are returned, hold no page twice,
    are pages of the store only, and are no more than the store has
    pages: a cycle of containment ends the walk and is not followed
    round. *)
Theorem breadcrumbs_of_store (allPages : list Page) (start : string) :
  (forall page, In page allPages -> id page <> ""%string) ->
  In start (map id allPages) ->
  exists infos,
    getBreadcrumbs start (fst (buildRelationsGraph allPages))
                   (snd (buildRelationsGraph allPages)) = Some infos /\
    NoDup (map slug infos) /\
    List.length infos <= List.length allPages /\
    Forall (fun info => In (slug info) (map id allPages)) infos.
Proof.
  intros Hne Hstart.
  set (graph := fst (buildRelationsGraph allPages)).
  set (pages := snd (buildRelationsGraph allPages)).
  assert (Hc : completed graph pages) by apply buildRelationsGraph_completed.
  assert (He : JsMap.get "" graph = None).
  { destruct (JsMap.get "" graph) eqn:E; [| reflexivity]. exfalso.
    assert (Hin : In ""%string (map id allPages)) by (apply built_keys; fold graph; congruence).
    apply in_map_iff in Hin. destruct Hin as (page & Hid & Hpage).
    exact (Hne page Hpage Hid). }
  destruct (@breadcrumbLoop_walk graph pages Hc He (S (List.length graph))
              start JsSet.empty [])
    as (infos & Hloop & Hwalk & _);
    [constructor | intros x [] | simpl; lia | now apply built_keys | intros [] |].
  rewrite app_nil_r in Hloop. exists infos. split; [exact Hloop |].
  destruct (walk_fresh Hwalk (fun H => H)) as [Hnd Hall].
  split; [exact Hnd |]. split.
  - rewrite <- (length_map slug infos).
    apply Nat.le_trans with (m := List.length (JsMap.keys graph)).
    + apply NoDup_incl_length; [exact Hnd |].
      intros x Hx. apply get_in_keys. now apply Hall.
    + unfold graph. rewrite buildRelationsGraph_eq. cbn [fst].
      rewrite keys_secondPass.
      rewrite (proj1 (firstPass_keys_order allPages)).
      rewrite <- (length_map id allPages). apply of_list_length.
  - apply Forall_forall. intros info Hinfo. apply built_keys.
    apply Hall. now apply in_map.
Qed.

Lemma breadcrumbs_of_store_witness :
  let store := [pageDeclaring "a" NTPP ["b"]; pageDeclaring "b" NTPP ["a"]] in
  exists infos,
    getBreadcrumbs "a" (fst (buildRelationsGraph store))
                   (snd (buildRelationsGraph store)) = Some infos /\
    NoDup (map slug infos) /\
    List.length infos <= List.length store /\
    Forall (fun info => In (slug info) (map id store)) infos.
Proof.
  intros store. apply (@breadcrumbs_of_store store "a").
  - intros page [<- | [<- | []]]; discriminate.
  - simpl. auto.
Defined.

(** ** The earlier relations graph *)

Section OldUpdate.
Variable s : string.
Variable f : Old.PageRelations -> Old.PageRelations.
Variable g : Old.RelationsGraph.

Lemma get_update (k : string) :
  JsMap.get k (update s f g) =
  if k =? s then option_map f (JsMap.get s g) else JsMap.get k g.
Proof.
  unfold update. destruct (JsMap.get s g) as [r |] eqn:E.
  - rewrite get_set. now destruct (k =? s).
  - destruct (String.eqb_spec k s) as [-> | _]; [exact E | reflexivity].
Qed.

Lemma keys_update : JsMap.keys (update s f g) = JsMap.keys g.
Proof.
  unfold update. destruct (JsMap.get s g) as [r |] eqn:E; [| reflexivity].
  apply keys_set_present. congruence.
Qed.

Lemma get_update_view (k : string) :
  JsMap.get k (update s f g) =
  option_map (fun r => if k =? s then f r else r) (JsMap.get k g).
Proof.
  rewrite get_update. destruct (String.eqb_spec k s) as [-> | _].
  - now destruct (JsMap.get s g).
  - now destruct (JsMap.get k g).
Qed.

Lemma upOf_update_frame (k : string) :
  (forall r, Old.up (f r) = Old.up r) -> upOf (update s f g) k = upOf g k.
Proof.
  intros H. unfold upOf. rewrite get_update_view.
  destruct (JsMap.get k g) as [r |]; [| reflexivity]. cbn [option_map].
  now destruct (k =? s).
Qed.

Lemma downOf_update_frame (k : string) :
  (forall r, Old.down (f r) = Old.down r) -> downOf (update s f g) k = downOf g k.
Proof.
  intros H. unfold downOf. rewrite get_update_view.
  destruct (JsMap.get k g) as [r |]; [| reflexivity]. cbn [option_map].
  now destruct (k =? s).
Qed.

Lemma defined_update (k : string) :
  JsMap.get k (update s f g) <> None <-> JsMap.get k g <> None.
Proof. now rewrite !get_in_keys, keys_update. Qed.

Lemma update_ext : (forall r, relExt r (f r)) -> graphExt g (update s f g).
Proof.
  intros H. split; [apply keys_update |].
  intros k r Hk. rewrite get_update_view, Hk. cbn [option_map].
  eexists. split; [reflexivity |].
  destruct (k =? s); [apply H |].
  repeat split; try (intros _; reflexivity). exists []. now rewrite app_nil_r.
Qed.
End OldUpdate.

Lemma update_id (s : string) (f : Old.PageRelations -> Old.PageRelations)
    (g : Old.RelationsGraph) (r : Old.PageRelations) :
  JsMap.get s g = Some r -> f r = r -> update s f g = g.
Proof. intros H E. unfold update. rewrite H, E. now apply set_same. Qed.

Lemma relExt_refl (r : Old.PageRelations) : relExt r r.
Proof.
  repeat split; try (intros _; reflexivity). exists []. now rewrite app_nil_r.
Qed.

Lemma keptOpt_trans (a b c : option string) :
  keptOpt a b -> keptOpt b c -> keptOpt a c.
Proof.
  unfold keptOpt. intros H1 H2 Ha. specialize (H1 Ha). subst b. auto.
Qed.

Lemma relExt_trans (a b c : Old.PageRelations) :
  relExt a b -> relExt b c -> relExt a c.
Proof.
  intros (U1 & (e1 & D1) & N1 & P1) (U2 & (e2 & D2) & N2 & P2).
  repeat split; eauto using keptOpt_trans.
  exists (e1 ++ e2). now rewrite D2, D1, app_assoc.
Qed.

Lemma graphExt_refl (g : Old.RelationsGraph) : graphExt g g.
Proof. split; [reflexivity |]. intros s r H. eauto using relExt_refl. Qed.

Lemma graphExt_trans (a b c : Old.RelationsGraph) :
  graphExt a b -> graphExt b c -> graphExt a c.
Proof.
  intros [K1 H1] [K2 H2]. split; [congruence |].
  intros s r Hs. destruct (H1 s r Hs) as (r1 & Hr1 & E1).
  destruct (H2 s r1 Hr1) as (r2 & Hr2 & E2).
  eauto using relExt_trans.
Qed.

Lemma listChild_ext (slug : string) (r : Old.PageRelations) :
  relExt r (listChild slug r).
Proof.
  unfold listChild. destruct (negb _); [| apply relExt_refl].
  repeat split; try (intros _; reflexivity). now exists [slug].
Qed.

Lemma falsy_kept (o o' : option string) : negb (truthy o) = true -> keptOpt o o'.
Proof. intros H Ht. rewrite Ht in H. discriminate H. Qed.

Lemma prevIfNone_ext (slug : string) (r : Old.PageRelations) :
  relExt r (prevIfNone slug r).
Proof.
  unfold prevIfNone. destruct (negb _) eqn:E; [| apply relExt_refl].
  repeat split; try (intros _; reflexivity);
    [exists []; now rewrite app_nil_r | now apply falsy_kept].
Qed.

Lemma upIfNone_ext (slug : string) (r : Old.PageRelations) :
  relExt r (upIfNone slug r).
Proof.
  unfold upIfNone. destruct (negb _) eqn:E; [| apply relExt_refl].
  repeat split; try (intros _; reflexivity);
    [now apply falsy_kept | exists []; now rewrite app_nil_r].
Qed.

Lemma nextIfNone_ext (slug : string) (r : Old.PageRelations) :
  relExt r (nextIfNone slug r).
Proof.
  unfold nextIfNone. destruct (negb _) eqn:E; [| apply relExt_refl].
  repeat split; try (intros _; reflexivity);
    [exists []; now rewrite app_nil_r | now apply falsy_kept].
Qed.

(** The rules, as changes of one entry. *)
Lemma inferDown_update (slug : string) (g : Old.RelationsGraph) :
  Old.inferDown slug g =
  match upOf g slug with
  | Some u => if truthy (Some u) then update u (listChild slug) g else g
  | None => g
  end.
Proof.
  unfold Old.inferDown, upOf. destruct (JsMap.get slug g) as [r |]; [| reflexivity].
  destruct (Old.up r) as [u |]; [| reflexivity].
  destruct (truthy (Some u)); [| reflexivity].
  unfold update, listChild. destruct (JsMap.get u g) as [parent |] eqn:E; [| reflexivity].
  destruct (negb _); [reflexivity |]. symmetry. now apply set_same.
Qed.

Lemma inferPrev_update (slug : string) (g : Old.RelationsGraph) :
  Old.inferPrev slug g =
  match JsMap.get slug g with
  | Some r =>
      match Old.next r with
      | Some n => if truthy (Some n) then update n (prevIfNone slug) g else g
      | None => g
      end
  | None => g
  end.
Proof.
  unfold Old.inferPrev. destruct (JsMap.get slug g) as [r |]; [| reflexivity].
  destruct (Old.next r) as [n |]; [| reflexivity].
  destruct (truthy (Some n)); [| reflexivity].
  unfold update, prevIfNone. destruct (JsMap.get n g) as [q |] eqn:E; [| reflexivity].
  destruct (negb _); [reflexivity |]. symmetry. now apply set_same.
Qed.

Lemma inferNext_update (slug : string) (g : Old.RelationsGraph) :
  Old.inferNext slug g =
  match JsMap.get slug g with
  | Some r =>
      match Old.prev r with
      | Some p => if truthy (Some p) then update p (nextIfNone slug) g else g
      | None => g
      end
  | None => g
  end.
Proof.
  unfold Old.inferNext. destruct (JsMap.get slug g) as [r |]; [| reflexivity].
  destruct (Old.prev r) as [p |]; [| reflexivity].
  destruct (truthy (Some p)); [| reflexivity].
  unfold update, nextIfNone. destruct (JsMap.get p g) as [q |] eqn:E; [| reflexivity].
  destruct (negb _); [reflexivity |]. symmetry. now apply set_same.
Qed.

Lemma adopt_update (slug : string) (g : Old.RelationsGraph) (child : string) :
  Old.adopt slug g child = update child (upIfNone slug) g.
Proof.
  unfold Old.adopt, update, upIfNone.
  destruct (JsMap.get child g) as [c |] eqn:E; [| reflexivity].
  destruct (negb _); [reflexivity |]. symmetry. now apply set_same.
Qed.

Lemma inferUp_update (slug : string) (g : Old.RelationsGraph) :
  Old.inferUp slug g =
  fold_left (fun g child => update child (upIfNone slug) g) (downOf g slug) g.
Proof.
  unfold Old.inferUp, downOf. destruct (JsMap.get slug g) as [r |]; [| reflexivity].
  generalize (Old.down r) g. intros l. induction l as [| c l IH]; intros g0;
    [reflexivity |].
  cbn [fold_left]. now rewrite IH, adopt_update.
Qed.

(** What a graph that keeps the entries of another tells of the views. *)
Lemma ext_defined (g g' : Old.RelationsGraph) (k : string) :
  graphExt g g' -> (JsMap.get k g' <> None <-> JsMap.get k g <> None).
Proof. intros [K _]. now rewrite !get_in_keys, K. Qed.

Lemma ext_upOf (g g' : Old.RelationsGraph) (k : string) :
  graphExt g g' -> truthy (upOf g k) = true -> upOf g' k = upOf g k.
Proof.
  intros [_ H] Ht. unfold upOf in *.
  destruct (JsMap.get k g) as [r |] eqn:E; [| discriminate Ht].
  destruct (H k r E) as (r' & -> & (U & _)). now apply U.
Qed.

Lemma ext_downOf (g g' : Old.RelationsGraph) (k : string) :
  graphExt g g' -> incl (downOf g k) (downOf g' k).
Proof.
  intros [_ H]. unfold downOf.
  destruct (JsMap.get k g) as [r |] eqn:E; [| intros x []].
  destruct (H k r E) as (r' & -> & (_ & (extra & ->) & _)).
  intros x Hx. apply in_or_app. now left.
Qed.

Lemma inferDown_ext (slug : string) (g : Old.RelationsGraph) :
  graphExt g (Old.inferDown slug g).
Proof.
  rewrite inferDown_update. destruct (upOf g slug) as [u |]; [| apply graphExt_refl].
  destruct (truthy (Some u)); [| apply graphExt_refl].
  apply update_ext. apply listChild_ext.
Qed.

Lemma inferPrev_ext (slug : string) (g : Old.RelationsGraph) :
  graphExt g (Old.inferPrev slug g).
Proof.
  rewrite inferPrev_update. destruct (JsMap.get slug g) as [r |]; [| apply graphExt_refl].
  destruct (Old.next r) as [n |]; [| apply graphExt_refl].
  destruct (truthy (Some n)); [| apply graphExt_refl].
  apply update_ext. apply prevIfNone_ext.
Qed.

Lemma inferNext_ext (slug : string) (g : Old.RelationsGraph) :
  graphExt g (Old.inferNext slug g).
Proof.
  rewrite inferNext_update. destruct (JsMap.get slug g) as [r |]; [| apply graphExt_refl].
  destruct (Old.prev r) as [p |]; [| apply graphExt_refl].
  destruct (truthy (Some p)); [| apply graphExt_refl].
  apply update_ext. apply nextIfNone_ext.
Qed.

Lemma adoptAll_ext (slug : string) (children : list string) (g : Old.RelationsGraph) :
  graphExt g (fold_left (fun g child => update child (upIfNone slug) g) children g).
Proof.
  revert g. induction children as [| c cs IH]; intros g; cbn [fold_left];
    [apply graphExt_refl |].
  eapply graphExt_trans; [| apply IH]. apply update_ext. apply upIfNone_ext.
Qed.

Lemma inferUp_ext (slug : string) (g : Old.RelationsGraph) :
  graphExt g (Old.inferUp slug g).
Proof. rewrite inferUp_update. apply adoptAll_ext. Qed.

Lemma inferPage_ext (g : Old.RelationsGraph) (slug : string) :
  graphExt g (Old.inferPage g slug).
Proof.
  unfold Old.inferPage.
  eapply graphExt_trans; [apply inferDown_ext |].
  eapply graphExt_trans; [apply inferPrev_ext |].
  eapply graphExt_trans; [apply inferUp_ext |].
  apply inferNext_ext.
Qed.

Lemma fold_inferPage_ext (l : list string) (g : Old.RelationsGraph) :
  graphExt g (fold_left Old.inferPage l g).
Proof.
  revert g. induction l as [| s l IH]; intros g; cbn [fold_left];
    [apply graphExt_refl |].
  eapply graphExt_trans; [apply inferPage_ext | apply IH].
Qed.

(** The first rule lists the page with its parent and leaves every [up]. *)
Lemma inferDown_upOf (slug : string) (g : Old.RelationsGraph) (k : string) :
  upOf (Old.inferDown slug g) k = upOf g k.
Proof.
  rewrite inferDown_update. destruct (upOf g slug) as [u |]; [| reflexivity].
  destruct (truthy (Some u)); [| reflexivity].
  apply upOf_update_frame. intros r. unfold listChild. now destruct (negb _).
Qed.

Lemma inferDown_lists (slug : string) (g : Old.RelationsGraph) (u : string) :
  upOf g slug = Some u -> u <> ""%string -> JsMap.get u g <> None ->
  In slug (downOf (Old.inferDown slug g) u).
Proof.
  intros Hup Hu Hdef. rewrite inferDown_update, Hup. cbn [truthy].
  apply String.eqb_neq in Hu. rewrite Hu. cbn [negb].
  unfold downOf. rewrite get_update_view.
  destruct (JsMap.get u g) as [parent |]; [| now elim Hdef].
  cbn [option_map]. rewrite String.eqb_refl. unfold listChild.
  destruct (includes (Old.down parent) slug) eqn:E; cbn [negb].
  - now apply includes_In.
  - cbn [Old.set_down Old.down]. apply in_or_app. right. now left.
Qed.

Lemma inferPrev_upOf (slug : string) (g : Old.RelationsGraph) (k : string) :
  upOf (Old.inferPrev slug g) k = upOf g k.
Proof.
  rewrite inferPrev_update. destruct (JsMap.get slug g) as [r |]; [| reflexivity].
  destruct (Old.next r) as [n |]; [| reflexivity].
  destruct (truthy (Some n)); [| reflexivity].
  apply upOf_update_frame. intros r'. unfold prevIfNone. now destruct (negb _).
Qed.

Lemma inferNext_upOf (slug : string) (g : Old.RelationsGraph) (k : string) :
  upOf (Old.inferNext slug g) k = upOf g k.
Proof.
  rewrite inferNext_update. destruct (JsMap.get slug g) as [r |]; [| reflexivity].
  destruct (Old.prev r) as [p |]; [| reflexivity].
  destruct (truthy (Some p)); [| reflexivity].
  apply upOf_update_frame. intros r'. unfold nextIfNone. now destruct (negb _).
Qed.

(** The third rule gives a parent to the children that have none. *)
Lemma adoptAll_upOf (slug : string) (children : list string)
    (g : Old.RelationsGraph) (k : string) :
  let g' := fold_left (fun g child => update child (upIfNone slug) g) children g in
  upOf g' k = upOf g k \/ (upOf g' k = Some slug /\ In k children).
Proof.
  revert g. induction children as [| c cs IH]; intros g; cbn [fold_left];
    [now left |].
  cbv zeta in IH.
  destruct (IH (update c (upIfNone slug) g)) as [E | [E Hin]].
  - assert (Hc : upOf (update c (upIfNone slug) g) k = upOf g k \/
                 (upOf (update c (upIfNone slug) g) k = Some slug /\ k = c)).
    { unfold upOf. rewrite get_update_view.
      destruct (JsMap.get k g) as [r |]; [| now left]. cbn [option_map].
      destruct (String.eqb_spec k c) as [-> | _]; [| now left].
      unfold upIfNone. destruct (negb _); [right | left]; auto. }
    destruct Hc as [Hc | [Hc ->]].
    + left. congruence.
    + destruct (truthy (Some slug)) eqn:Ts.
      * right. split; [| now left]. rewrite E. exact Hc.
      * right. split; [| now left]. rewrite E. exact Hc.
  - right. split; [exact E | now right].
Qed.

Lemma adoptAll_adopts (slug : string) (children : list string)
    (g : Old.RelationsGraph) (k : string) :
  slug <> ""%string -> In k children -> JsMap.get k g <> None ->
  truthy (upOf (fold_left (fun g child => update child (upIfNone slug) g)
                          children g) k) = true.
Proof.
  intros Hs Hin Hdef. revert g Hdef.
  induction children as [| c cs IH]; intros g Hdef; [destruct Hin |].
  cbn [fold_left]. destruct Hin as [-> | Hin].
  - assert (Hc : truthy (upOf (update k (upIfNone slug) g) k) = true).
    { unfold upOf. rewrite get_update_view.
      destruct (JsMap.get k g) as [r |]; [| now elim Hdef]. cbn [option_map].
      rewrite String.eqb_refl. unfold upIfNone.
      destruct (truthy (Old.up r)) eqn:T; cbn [negb]; [exact T |].
      cbn [Old.set_up Old.up truthy]. now apply negb_true_iff, String.eqb_neq. }
    rewrite (@ext_upOf _ _ k (adoptAll_ext slug cs _) Hc). exact Hc.
  - apply IH; [exact Hin |]. now apply defined_update.
Qed.

Lemma inferUp_upOf (slug : string) (g : Old.RelationsGraph) (k : string) :
  upOf (Old.inferUp slug g) k = upOf g k \/
  (upOf (Old.inferUp slug g) k = Some slug /\ In k (downOf g slug)).
Proof. rewrite inferUp_update. apply adoptAll_upOf. Qed.

Lemma truthy_Some (p : string) : p <> ""%string -> truthy (Some p) = true.
Proof. intros H. cbn [truthy]. now apply negb_true_iff, String.eqb_neq. Qed.

(** One turn of the loop keeps the parents' lists right and makes the
    list of the parent of the page it visits right. *)
Lemma inferPage_parents (done : list string) (g : Old.RelationsGraph)
    (A : string) :
  parentsList done g -> parentsList (done ++ [A]) (Old.inferPage g A).
Proof.
  intros HJ B p Hup Hp Hdef Hin.
  unfold Old.inferPage in *.
  set (g1 := Old.inferDown A g) in *.
  set (g2 := Old.inferPrev A g1) in *.
  set (g3 := Old.inferUp A g2) in *.
  assert (E1 : graphExt g g1) by apply inferDown_ext.
  assert (E2 : graphExt g1 g2) by apply inferPrev_ext.
  assert (E3 : graphExt g2 g3) by apply inferUp_ext.
  assert (E4 : graphExt g3 (Old.inferNext A g3)) by apply inferNext_ext.
  rewrite inferNext_upOf in Hup.
  assert (U2 : upOf g2 B = upOf g B).
  { unfold g2, g1. now rewrite inferPrev_upOf, inferDown_upOf. }
  assert (Hdef0 : JsMap.get p g <> None).
  { apply (ext_defined p E1), (ext_defined p E2), (ext_defined p E3),
      (ext_defined p E4). exact Hdef. }
  destruct (truthy (upOf g2 B)) eqn:T.
  - rewrite (@ext_upOf _ _ B E3 T), U2 in Hup.
    apply (ext_downOf p E4), (ext_downOf p E3), (ext_downOf p E2).
    apply in_app_or in Hin. destruct Hin as [Hin | [<- | []]].
    + apply (ext_downOf p E1). now apply HJ.
    + now apply inferDown_lists.
  - destruct (inferUp_upOf A g2 B) as [E | [E Hd]]; fold g3 in E.
    + rewrite <- E, Hup in T. rewrite truthy_Some in T by assumption. discriminate T.
    + rewrite E in Hup. injection Hup as <-.
      apply (ext_downOf A E4), (ext_downOf A E3). exact Hd.
Qed.

Lemma fold_inferPage_parents (l done : list string) (g : Old.RelationsGraph) :
  parentsList done g -> parentsList (done ++ l) (fold_left Old.inferPage l g).
Proof.
  revert done g. induction l as [| s l IH]; intros done g H; cbn [fold_left].
  - now rewrite app_nil_r.
  - replace (done ++ s :: l) with ((done ++ [s]) ++ l)
      by (now rewrite <- app_assoc).
    apply IH. now apply inferPage_parents.
Qed.

Lemma old_build_eq (allPages : list Old.Page) :
  Old.buildRelationsGraph allPages =
  (Old.secondPass (fst (Old.firstPass allPages)), snd (Old.firstPass allPages)).
Proof. unfold Old.buildRelationsGraph. now destruct (Old.firstPass allPages). Qed.

(** X28. In the earlier graph, after the build, every page whose [up]
    is a page of the graph is listed in the [down] of that page,
    whether the [up] was declared or inferred. *)
Theorem old_parent_lists_child (allPages : list Old.Page) (B p : string)
    (relB relP : Old.PageRelations) :
  let graph := fst (Old.buildRelationsGraph allPages) in
  JsMap.get B graph = Some relB -> Old.up relB = Some p -> p <> ""%string ->
  JsMap.get p graph = Some relP ->
  In B (Old.down relP).
Proof.
  intros graph HB Hup Hp HP. unfold graph in *. rewrite old_build_eq in *.
  cbn [fst] in *. unfold Old.secondPass in *.
  set (g0 := fst (Old.firstPass allPages)) in *.
  pose proof (@fold_inferPage_parents (JsMap.keys g0) [] g0) as HJ.
  cbn [app] in HJ.
  assert (H0 : parentsList [] g0) by (intros ? ? _ _ _ []).
  specialize (HJ H0 B p). unfold upOf, downOf in HJ. rewrite HB, HP in HJ.
  apply HJ; [exact Hup | exact Hp | discriminate |].
  destruct (fold_inferPage_ext (JsMap.keys g0) g0) as [K _].
  rewrite <- K. now apply get_Some_in_keys with (v := relB).
Qed.

Lemma old_parent_lists_child_witness :
  let store := [Old.mkPage "a" "A" None (Some ["b"]) None None;
                Old.mkPage "b" "B" None None None None;
                Old.mkPage "c" "C" (Some "a") None None None] in
  In "b"%string (Old.down (Old.mk None ["b"; "c"] None None)) /\
  In "c"%string (Old.down (Old.mk None ["b"; "c"] None None)).
Proof.
  intros store. split.
  - refine (@old_parent_lists_child store "b" "a"
              (Old.mk (Some "a") [] None None) (Old.mk None ["b"; "c"] None None)
              _ _ _ _); try (vm_compute; reflexivity). discriminate.
  - refine (@old_parent_lists_child store "c" "a"
              (Old.mk (Some "a") [] None None) (Old.mk None ["b"; "c"] None None)
              _ _ _ _); try (vm_compute; reflexivity). discriminate.
Defined.

(** The first pass of the earlier graph. *)
Lemma old_firstPass_snoc (ps : list Old.Page) (q : Old.Page) :
  Old.firstPass (ps ++ [q]) = Old.firstPassStep (Old.firstPass ps) q.
Proof. unfold Old.firstPass. now rewrite fold_left_app. Qed.

Lemma old_firstPass_keys (allPages : list Old.Page) (s : string) :
  In s (JsMap.keys (fst (Old.firstPass allPages))) <-> In s (map Old.id allPages).
Proof.
  induction allPages as [| q ps IH] using rev_ind; [simpl; tauto |].
  rewrite old_firstPass_snoc. unfold Old.firstPassStep.
  destruct (Old.firstPass ps) as [graph pages]. cbn [fst] in *.
  rewrite keys_set_add, JsSet_add_In, IH, map_app, in_app_iff. simpl.
  intuition.
Qed.

Lemma old_firstPass_get (allPages : list Old.Page) (page : Old.Page) :
  NoDup (map Old.id allPages) -> In page allPages ->
  JsMap.get (Old.id page) (fst (Old.firstPass allPages)) = Some (declaredOld page).
Proof.
  intros Hnd Hin. induction allPages as [| q ps IH] using rev_ind; [destruct Hin |].
  rewrite old_firstPass_snoc. unfold Old.firstPassStep.
  destruct (Old.firstPass ps) as [graph pages]. cbn [fst] in *.
  rewrite get_set.
  rewrite map_app in Hnd. apply NoDup_remove in Hnd. simpl in Hnd.
  rewrite app_nil_r in Hnd. destruct Hnd as [Hnd Hq].
  apply in_app_or in Hin. destruct Hin as [Hin | [-> | []]].
  - destruct (String.eqb_spec (Old.id page) (Old.id q)) as [E | _].
    + elim Hq. rewrite <- E. now apply in_map.
    + now apply IH.
  - now rewrite String.eqb_refl.
Qed.

(** X29. In the earlier graph, with distinct page ids, the build keeps
    what a page declares: a declared [up], [next] or [prev] that is set
    is not replaced, and the declared [down] is the start of the final
    one; what is inferred is only added. *)
Theorem old_declared_kept (allPages : list Old.Page) (page : Old.Page) :
  NoDup (map Old.id allPages) -> In page allPages ->
  exists rel,
    JsMap.get (Old.id page) (fst (Old.buildRelationsGraph allPages)) = Some rel /\
    (truthy (Old.data_up page) = true -> Old.up rel = Old.data_up page) /\
    (exists extra, Old.down rel = orEmpty (Old.data_down page) ++ extra) /\
    (truthy (Old.data_next page) = true -> Old.next rel = Old.data_next page) /\
    (truthy (Old.data_prev page) = true -> Old.prev rel = Old.data_prev page).
Proof.
  intros Hnd Hin. rewrite old_build_eq. cbn [fst]. unfold Old.secondPass.
  set (g0 := fst (Old.firstPass allPages)).
  destruct (fold_inferPage_ext (JsMap.keys g0) g0) as [_ H].
  destruct (H _ _ (@old_firstPass_get allPages page Hnd Hin)) as (rel & Hrel & Hext).
  exists rel. split; [exact Hrel | exact Hext].
Qed.

Lemma old_declared_kept_witness :
  let store := [Old.mkPage "a" "A" None (Some ["b"]) None None;
                Old.mkPage "b" "B" None None None None;
                Old.mkPage "c" "C" (Some "a") None None None] in
  exists rel,
    JsMap.get "a" (fst (Old.buildRelationsGraph store)) = Some rel /\
    (truthy None = true -> Old.up rel = None) /\
    (exists extra, Old.down rel = ["b"] ++ extra) /\
    (truthy None = true -> Old.next rel = None) /\
    (truthy None = true -> Old.prev rel = None).
Proof.
  intros store.
  refine (@old_declared_kept store
            (Old.mkPage "a" "A" None (Some ["b"]) None None) _ _).
  - repeat constructor; simpl; intuition discriminate.
  - simpl. auto.
Defined.

Lemma fold_inferPage_at (P Q : Old.RelationsGraph -> Prop) (A : string)
    (l : list string) (g : Old.RelationsGraph) :
  (forall g s, Q g -> Q (Old.inferPage g s)) ->
  (forall g s, P g -> P (Old.inferPage g s)) ->
  (forall g, Q g -> P (Old.inferPage g A)) ->
  In A l -> Q g -> P (fold_left Old.inferPage l g).
Proof.
  intros HQ HP HA Hin. revert g.
  assert (HPfold : forall l g, P g -> P (fold_left Old.inferPage l g)).
  { intros l0. induction l0 as [| s l0 IH]; intros g Hg; cbn [fold_left]; auto. }
  induction l as [| s l IH]; intros g Hg; [destruct Hin |].
  cbn [fold_left]. destruct Hin as [-> | Hin].
  - apply HPfold. now apply HA.
  - apply IH; [exact Hin |]. now apply HQ.
Qed.

(** X30. In the earlier graph, with distinct page ids, a page of the
    store that a page with a non-empty id declares in its [down] has a
    parent after the build: its [up] is set and is not empty. *)
Theorem old_child_gets_parent (allPages : list Old.Page) (page : Old.Page)
    (B : string) :
  NoDup (map Old.id allPages) -> In page allPages ->
  Old.id page <> ""%string ->
  In B (orEmpty (Old.data_down page)) -> In B (map Old.id allPages) ->
  exists relB p,
    JsMap.get B (fst (Old.buildRelationsGraph allPages)) = Some relB /\
    Old.up relB = Some p /\ p <> ""%string.
Proof.
  intros Hnd Hin Hid HB HBpage. rewrite old_build_eq. cbn [fst].
  unfold Old.secondPass. set (g0 := fst (Old.firstPass allPages)).
  set (A := Old.id page).
  assert (HP : truthy (upOf (fold_left Old.inferPage (JsMap.keys g0) g0) B) = true).
  { apply fold_inferPage_at
      with (P := fun g => truthy (upOf g B) = true)
           (Q := fun g => graphExt g0 g) (A := A).
    - intros g s Hg. eapply graphExt_trans; [exact Hg | apply inferPage_ext].
    - intros g s Hg. now rewrite (@ext_upOf _ _ B (inferPage_ext g s) Hg).
    - intros g Hg. unfold Old.inferPage.
      set (g2 := Old.inferPrev A (Old.inferDown A g)).
      assert (E2 : graphExt g0 g2).
      { eapply graphExt_trans; [exact Hg |].
        eapply graphExt_trans; [apply inferDown_ext | apply inferPrev_ext]. }
      assert (Hup : truthy (upOf (Old.inferUp A g2) B) = true).
      { rewrite inferUp_update. apply adoptAll_adopts; [exact Hid | |].
        - apply (ext_downOf A E2). unfold downOf, g0, A.
          now rewrite (@old_firstPass_get allPages page Hnd Hin).
        - apply (ext_defined B E2). apply get_in_keys.
          now apply old_firstPass_keys. }
      now rewrite (@ext_upOf _ _ B (inferNext_ext A _) Hup).
    - apply old_firstPass_keys. now apply in_map.
    - apply graphExt_refl. }
  unfold upOf in HP.
  destruct (JsMap.get B (fold_left Old.inferPage (JsMap.keys g0) g0)) as [relB |];
    [| discriminate HP].
  destruct (Old.up relB) as [p |] eqn:Ep; [| discriminate HP].
  exists relB, p. split; [reflexivity |]. split; [exact Ep |].
  cbn [truthy] in HP. now apply negb_true_iff, String.eqb_neq in HP.
Qed.

Lemma old_child_gets_parent_witness :
  let store := [Old.mkPage "a" "A" None (Some ["b"]) None None;
                Old.mkPage "b" "B" None None None None] in
  exists relB p,
    JsMap.get "b" (fst (Old.buildRelationsGraph store)) = Some relB /\
    Old.up relB = Some p /\ p <> ""%string.
Proof.
  intros store.
  refine (@old_child_gets_parent store
            (Old.mkPage "a" "A" None (Some ["b"]) None None) "b" _ _ _ _ _).
  - repeat constructor; simpl; intuition discriminate.
  - simpl. auto.
  - discriminate.
  - simpl. auto.
  - simpl. auto.
Defined.

(** ** Sequential consistency, with what a page declares *)

Lemma firstPass_get_pageOf (allPages : list Page) (s : string) :
  JsMap.get s (fst (firstPass allPages)) =
  option_map (declaredRelations (JsSet.of_list (map id allPages)))
             (pageOf allPages s).
Proof.
  unfold firstPass, pageOf. generalize (JsSet.of_list (map id allPages)).
  intros known. induction allPages as [| q ps IH] using rev_ind; [reflexivity |].
  rewrite run_snoc. cbn [fst]. rewrite get_set, rev_app_distr.
  cbn [rev app find]. rewrite (String.eqb_sym (id q) s).
  destruct (s =? id q); [reflexivity | exact IH].
Qed.

Lemma secondPass_prev_kept (g : RelationsGraph) (s : string)
    (rel rel' : PageRelations) :
  JsMap.get s g = Some rel -> JsMap.get s (secondPass g) = Some rel' ->
  isSet (Rel.prev rel) -> Rel.prev rel' = Rel.prev rel.
Proof.
  intros H H' Hset.
  pose proof (prevOf_pointers _ _ H) as Hp.
  pose proof (prevOf_pointers _ _ H') as Hp'.
  unfold secondPass in Hp'. rewrite ptr_pass in Hp'.
  rewrite <- Hp', <- Hp. apply ptrPass_prev_kept. now rewrite Hp.
Qed.

(** C3. After [buildRelationsGraph] over pages with non-empty slugs, if
    [graph[A].next = B] and B is a page, then [graph[B].prev] is set: to
    A, or to the [prev] B declared, or to a page visited before A whose
    [next] is B as well.  The value that came first is kept: a [prev]
    that the page of B declares, when it is set, is the final one. *)
Theorem sequential_first_come (allPages : list Page)
    (A B : string) (relA relB : PageRelations) :
  ~ In "" (map id allPages) ->
  JsMap.get A (fst (buildRelationsGraph allPages)) = Some relA ->
  JsMap.get B (fst (buildRelationsGraph allPages)) = Some relB ->
  Rel.next relA = Some B ->
  exists P, Rel.prev relB = Some P /\ P <> "" /\
    (P = A \/
     declaresPrev allPages B P \/
     (exists relP,
        JsMap.get P (fst (buildRelationsGraph allPages)) = Some relP /\
        Rel.next relP = Some B /\
        before (JsMap.keys (fst (buildRelationsGraph allPages))) P A)) /\
    (forall page, pageOf allPages B = Some page -> isSet (data_prev page) ->
                  data_prev page = Some P).
Proof.
  rewrite buildRelationsGraph_eq. simpl. intros Hne HA HB Hnext.
  assert (Hne' : ~ In "" (JsMap.keys (fst (firstPass allPages))))
    by (now rewrite firstPass_keys).
  destruct (secondPass_sequential _ _ Hne' HA HB Hnext) as [P [HP [HPne Hcase]]].
  exists P. split; [assumption | split; [assumption |]]. split.
  - destruct Hcase as [H | [[rel0 [H0 Hprev]] | H]];
      [now left | right; left | now right; right].
    destruct (firstPass_graph_get _ _ H0) as [page [Hin [Hid ->]]].
    exists page. rewrite declaredRelations_prev in Hprev. auto.
  - intros page Hpage Hset.
    pose proof (firstPass_get_pageOf allPages B) as H0.
    rewrite Hpage in H0. cbn [option_map] in H0.
    pose proof (@secondPass_prev_kept _ _ _ _ H0 HB) as Hk.
    rewrite declaredRelations_prev in Hk. rewrite <- (Hk Hset). exact HP.
Qed.

Lemma sequential_first_come_witness :
  let allPages := [pageWith "a" (Some "b") None;
                   pageWith "c" (Some "b") None;
                   pageWith "b" None (Some "x");
                   pageWith "x" None None] in
  let graph := fst (buildRelationsGraph allPages) in
  let relC := Rel.mk [] [] [] [] [] [] [] [] (Some "b") None [] [] in
  let relB := Rel.mk [] [] [] [] [] [] [] [] None (Some "x") [] [] in
  ~ In "" (map id allPages) /\
  JsMap.get "c" graph = Some relC /\
  JsMap.get "b" graph = Some relB /\
  Rel.next relC = Some "b" /\
  exists P, Rel.prev relB = Some P /\ P <> "" /\
    (P = "c" \/
     declaresPrev allPages "b" P \/
     (exists relP, JsMap.get P graph = Some relP /\
                   Rel.next relP = Some "b" /\
                   before (JsMap.keys graph) P "c")) /\
    (forall page, pageOf allPages "b" = Some page -> isSet (data_prev page) ->
                  data_prev page = Some P).
Proof.
  intros allPages graph relC relB.
  assert (Hne : ~ In "" (map id allPages))
    by (simpl; intros [H | [H | [H | [H | []]]]]; discriminate).
  assert (HC : JsMap.get "c" graph = Some relC) by (vm_compute; reflexivity).
  assert (HB : JsMap.get "b" graph = Some relB) by (vm_compute; reflexivity).
  assert (Hn : Rel.next relC = Some "b") by reflexivity.
  split; [exact Hne | split; [exact HC | split; [exact HB | split; [exact Hn |]]]].
  exact (@sequential_first_come allPages "c" "b" relC relB Hne HC HB Hn).
Defined.

(** Among inferred values the first one stays: with a and c both
    declaring [next: b], in this order, [b.prev] is a. *)
Example sequential_first_inferred :
  let allPages := [pageWith "a" (Some "b") None;
                   pageWith "c" (Some "b") None;
                   pageWith "b" None None] in
  JsMap.get "b" (fst (buildRelationsGraph allPages)) =
    Some (Rel.mk [] [] [] [] [] [] [] [] None (Some "a") [] []).
Proof. vm_compute. reflexivity. Qed.

(** C3 as the claim states it fails, in two ways.  With pages a, c, b
    in this order, a and c both declaring [next: b] and b declaring
    nothing, the graph has [c.next = b] and [b.prev = a], a value b
    never declared.  And a [next] that names the page whose slug is
    empty infers nothing, the test [if (rel.next)] being false: that
    page keeps no [prev]. *)
Lemma sequentialConsistency_counterexample :
  ~ sequentialConsistency [pageWith "a" (Some "b") None;
                           pageWith "c" (Some "b") None;
                           pageWith "b" None None] /\
  ~ sequentialConsistency [pageWith "a" (Some "") None;
                           pageWith "" None None].
Proof.
  split; intros H.
  - destruct (H "c" "b" (Rel.mk [] [] [] [] [] [] [] [] (Some "b") None [] [])
                (Rel.mk [] [] [] [] [] [] [] [] None (Some "a") [] [])
                eq_refl eq_refl eq_refl) as [E | [P [_ [[page [Hin [_ Hd]]] _]]]].
    + discriminate.
    + simpl in Hin. destruct Hin as [<- | [<- | [<- | []]]]; discriminate.
  - destruct (H "a" "" (Rel.mk [] [] [] [] [] [] [] [] (Some "") None [] [])
                (Rel.mk [] [] [] [] [] [] [] [] None None [] [])
                eq_refl eq_refl eq_refl) as [E | [P [_ [_ E]]]]; discriminate.
Qed.

(** ** The entry of a page *)

Lemma symPass_sound (ks : list string) (m : JsMap.t (list string))
    (s x : string) (l' : list string) :
  JsMap.get s (fold_left symStep ks m) = Some l' -> In x l' ->
  (exists l, JsMap.get s m = Some l /\ In x l) \/
  (exists lx, JsMap.get x (fold_left symStep ks m) = Some lx /\ In s lx).
Proof.
  revert m l'. induction ks as [| a ks IH]; intros m l' Hget Hin.
  - left. eauto.
  - cbn [fold_left] in *.
    destruct (IH _ _ Hget Hin) as [[l [Hl Hx]] | H]; [| now right].
    rewrite get_symStep in Hl.
    destruct (JsMap.get s m) as [l0 |]; [| discriminate].
    cbn [option_map] in Hl. injection Hl as <-.
    destruct (includes (targetsOf m a) s) eqn:E; [| left; eauto].
    apply addUnique_In in Hx. destruct Hx as [Hx | ->]; [left; eauto |].
    right. apply includes_In in E. unfold targetsOf in E.
    destruct (JsMap.get a m) as [la |] eqn:Ea; [| destruct E].
    pose proof (symPass_grows (a :: ks) m a) as Hg. cbn [fold_left] in Hg.
    rewrite Ea in Hg.
    destruct (JsMap.get a (fold_left symStep ks (symStep m a))) as [la' |];
      [| contradiction].
    exists la'. split; [reflexivity |]. now apply (dedupAppended_incl Hg).
Qed.

Lemma secondPass_symmetric_sound (g : RelationsGraph) (k : RelKind)
    (A B : string) (relB : PageRelations) :
  symmetricKind k ->
  JsMap.get B (secondPass g) = Some relB ->
  In A (field k relB) ->
  (exists rel0, JsMap.get B g = Some rel0 /\ In A (field k rel0)) \/
  listsBack (secondPass g) k B A.
Proof.
  intros Hk HB Hin.
  pose proof (get_field k _ _ HB) as HB'.
  unfold secondPass in HB'. rewrite proj_pass_symmetric in HB' by assumption.
  destruct (symPass_sound _ _ _ _ HB' Hin) as [[l [Hl Hx]] | [lx [Hlx Hx]]].
  - left. rewrite get_mapVals in Hl.
    destruct (JsMap.get B g) as [rel0 |]; [| discriminate].
    cbn [option_map] in Hl. injection Hl as <-.
    exists rel0. split; [reflexivity | exact Hx].
  - right. rewrite <- proj_pass_symmetric in Hlx by assumption.
    fold (secondPass g) in Hlx. rewrite get_mapVals in Hlx.
    destruct (JsMap.get A (secondPass g)) as [relA |] eqn:EA; [| discriminate].
    cbn [option_map] in Hlx. injection Hlx as <-.
    exists relA. split; [exact EA | exact Hx].
Qed.

Lemma inferredAfter_symmetric (g : RelationsGraph) (k : RelKind) (s : string)
    (rel0 rel : PageRelations) :
  symmetricKind k ->
  JsMap.get s g = Some rel0 -> JsMap.get s (secondPass g) = Some rel ->
  inferredAfter (secondPass g) k s (field k rel0) (field k rel).
Proof.
  intros Hk H0 H.
  destruct (dedupAppended_prefix (@secondPass_field_grows g k s rel0 rel H0 H))
    as (extra & E & Hnd & Hnew).
  exists extra. repeat split; try assumption.
  apply Forall_forall. intros x Hx.
  destruct (@secondPass_symmetric_sound g k x s rel Hk H) as [(r & Hr & Hin) | Hb].
  - rewrite E. apply in_or_app. now right.
  - rewrite H0 in Hr. injection Hr as <-. elim (Hnew x Hx Hin).
  - exact Hb.
Qed.

Lemma inferredAfter_inverse (g : RelationsGraph) (src dst : RelKind) (s : string)
    (rel0 rel : PageRelations) :
  (src, dst) = (NTPP, NTTPI) \/ (src, dst) = (TPP, TPPI) \/ (src, dst) = (R, RI) ->
  JsMap.get s g = Some rel0 -> JsMap.get s (secondPass g) = Some rel ->
  inferredAfter (secondPass g) src s (field dst rel0) (field dst rel).
Proof.
  intros Hk H0 H.
  destruct (dedupAppended_prefix (@secondPass_field_grows g dst s rel0 rel H0 H))
    as (extra & E & Hnd & Hnew).
  exists extra. repeat split; try assumption.
  apply Forall_forall. intros x Hx.
  destruct (@secondPass_inverse_sound g src dst x s rel Hk H)
    as [(r & Hr & Hin) | (relx & Hrx & Hin)].
  - rewrite E. apply in_or_app. now right.
  - rewrite H0 in Hr. injection Hr as <-. elim (Hnew x Hx Hin).
  - exists relx. auto.
Qed.

(** X8. In a store of pages with distinct ids, the entry of a page holds
    what the page declares: its info is its id and title, its [ntpp],
    [tpp] are the declared arrays and [r] the links extracted from its
    body; its symmetric arrays are the declared ones followed by
    inferred slugs, and its arrays [nttpi], [tppi], [ri] hold inferred
    slugs only, an inferred slug being a page, listed once, that lists
    this page in the array the inference reads; and a declared [next]
    or [prev] that is set is kept. *)
Theorem page_entry (allPages : list Page) (page : Page) :
  NoDup (map id allPages) -> In page allPages ->
  let graph := fst (buildRelationsGraph allPages) in
  JsMap.get (id page) (snd (buildRelationsGraph allPages)) =
    Some (mkInfo (id page) (data_title page)) /\
  exists rel,
    JsMap.get (id page) graph = Some rel /\
    Rel.ntpp rel = orEmpty (data_ntpp page) /\
    Rel.tpp rel = orEmpty (data_tpp page) /\
    Rel.r rel = extractLinkSlugs (match body page with Some b => b | None => "" end)
                  (id page) (JsSet.of_list (map id allPages)) /\
    inferredAfter graph PO (id page) (orEmpty (data_po page)) (Rel.po rel) /\
    inferredAfter graph EC (id page) (orEmpty (data_ec page)) (Rel.ec rel) /\
    inferredAfter graph EQ (id page) (orEmpty (data_eq page)) (Rel.eq rel) /\
    inferredAfter graph DC (id page) (orEmpty (data_dc page)) (Rel.dc rel) /\
    inferredAfter graph NTPP (id page) [] (Rel.nttpi rel) /\
    inferredAfter graph TPP (id page) [] (Rel.tppi rel) /\
    inferredAfter graph R (id page) [] (Rel.ri rel) /\
    (isSet (data_next page) -> Rel.next rel = data_next page) /\
    (isSet (data_prev page) -> Rel.prev rel = data_prev page).
Proof.
  intros Hnd Hin. cbv zeta. rewrite buildRelationsGraph_eq. cbn [fst snd].
  destruct (@firstPass_unique_get allPages page Hnd Hin) as [Hg Hp].
  split; [exact Hp |].
  set (g := fst (firstPass allPages)) in *.
  set (rel0 := declaredRelations (JsSet.of_list (map id allPages)) page) in *.
  destruct (JsMap.get (id page) (secondPass g)) as [rel |] eqn:H'.
  2:{ apply (proj1 (secondPass_defined g (id page))) in H'. congruence. }
  exists rel. split; [reflexivity |].
  pose proof (fun k Hk => @secondPass_forward_kept g k (id page) rel0 rel Hk Hg H') as Hkeep.
  pose proof (fun k Hk => @inferredAfter_symmetric g k (id page) rel0 rel Hk Hg H')
    as Hsym.
  pose proof (fun src dst Hk =>
                @inferredAfter_inverse g src dst (id page) rel0 rel Hk Hg H') as Hinv.
  assert (E0 : rel0 = _) by apply declaredRelations_fields.
  pose proof (Hkeep NTPP (or_introl eq_refl)) as K1.
  pose proof (Hkeep TPP (or_intror (or_introl eq_refl))) as K2.
  pose proof (Hkeep R (or_intror (or_intror eq_refl))) as K3.
  pose proof (Hsym PO (or_introl eq_refl)) as G1.
  pose proof (Hsym EC (or_intror (or_introl eq_refl))) as G2.
  pose proof (Hsym EQ (or_intror (or_intror (or_introl eq_refl)))) as G3.
  pose proof (Hsym DC (or_intror (or_intror (or_intror eq_refl)))) as G4.
  pose proof (Hinv NTPP NTTPI (or_introl eq_refl)) as G5.
  pose proof (Hinv TPP TPPI (or_intror (or_introl eq_refl))) as G6.
  pose proof (Hinv R RI (or_intror (or_intror eq_refl))) as G7.
  rewrite E0 in K1, K2, K3, G1, G2, G3, G4, G5, G6, G7.
  cbn [field Rel.ntpp Rel.tpp Rel.r Rel.po Rel.ec Rel.eq Rel.dc Rel.nttpi
       Rel.tppi Rel.ri] in K1, K2, K3, G1, G2, G3, G4, G5, G6, G7.
  repeat (split; [assumption |]).
  assert (En : Rel.next rel0 = data_next page) by (rewrite E0; reflexivity).
  assert (Ep : Rel.prev rel0 = data_prev page) by (rewrite E0; reflexivity).
  pose proof (nextOf_pointers _ _ Hg) as Hn.
  pose proof (nextOf_pointers _ _ H') as Hn'.
  unfold secondPass in Hn'. rewrite ptr_pass in Hn'.
  split; intros Hset.
  - rewrite <- Hn', <- En, <- Hn. apply ptrPass_next_kept. now rewrite Hn, En.
  - rewrite <- Ep. apply (@secondPass_prev_kept g (id page) rel0 rel Hg H').
    now rewrite Ep.
Qed.

Lemma page_entry_witness :
  let allPages := [mkPage "a" "A" (Some "see [b](/b)") (Some ["b"]) None
                          (Some ["b"]) None None None (Some "b") None;
                   pageDeclaring "b" EQ ["a"]] in
  let page := mkPage "a" "A" (Some "see [b](/b)") (Some ["b"]) None
                     (Some ["b"]) None None None (Some "b") None in
  let graph := fst (buildRelationsGraph allPages) in
  NoDup (map id allPages) /\ In page allPages /\
  JsMap.get (id page) (snd (buildRelationsGraph allPages)) =
    Some (mkInfo (id page) (data_title page)) /\
  exists rel,
    JsMap.get (id page) graph = Some rel /\
    Rel.ntpp rel = orEmpty (data_ntpp page) /\
    Rel.tpp rel = orEmpty (data_tpp page) /\
    Rel.r rel = extractLinkSlugs (match body page with Some b => b | None => "" end)
                  (id page) (JsSet.of_list (map id allPages)) /\
    inferredAfter graph PO (id page) (orEmpty (data_po page)) (Rel.po rel) /\
    inferredAfter graph EC (id page) (orEmpty (data_ec page)) (Rel.ec rel) /\
    inferredAfter graph EQ (id page) (orEmpty (data_eq page)) (Rel.eq rel) /\
    inferredAfter graph DC (id page) (orEmpty (data_dc page)) (Rel.dc rel) /\
    inferredAfter graph NTPP (id page) [] (Rel.nttpi rel) /\
    inferredAfter graph TPP (id page) [] (Rel.tppi rel) /\
    inferredAfter graph R (id page) [] (Rel.ri rel) /\
    (isSet (data_next page) -> Rel.next rel = data_next page) /\
    (isSet (data_prev page) -> Rel.prev rel = data_prev page).
Proof.
  intros allPages page graph.
  assert (H1 : NoDup (map id allPages)).
  { simpl. repeat constructor; simpl; intros H; intuition discriminate. }
  assert (H2 : In page allPages) by (left; reflexivity).
  split; [exact H1 | split; [exact H2 |]].
  exact (@page_entry allPages page H1 H2).
Defined.

(** ** Two constructions over the same store *)

(** C9. Two runs of [buildRelationsGraph] over stores that read as the
    same pages in the same order, wherever their arrays lie, give the
    same graph and the same page infos: the result is
    [buildRelationsGraph] of the pages read, a function of the store and
    its order alone.  The first run leaves the store as it was, and a
    second run after it, on the heap it left, gives the same result
    again. *)
Theorem build_deterministic (allPages1 allPages2 : list PageRef)
    (h1 h2 : Heap.t) :
  storeAllocated allPages1 h1 -> storeAllocated allPages2 h2 ->
  readStore h1 allPages1 = readStore h2 allPages2 ->
  let st1 := buildRelationsGraphRef allPages1 h1 in
  let st2 := buildRelationsGraphRef allPages2 h2 in
  let again := buildRelationsGraphRef allPages1 (bs_heap st1) in
  readGraph (bs_heap st1) (bs_graph st1) = readGraph (bs_heap st2) (bs_graph st2) /\
  bs_pages st1 = bs_pages st2 /\
  (readGraph (bs_heap st1) (bs_graph st1), bs_pages st1) =
    buildRelationsGraph (readStore h1 allPages1) /\
  readStore (bs_heap st1) allPages1 = readStore h1 allPages1 /\
  readGraph (bs_heap again) (bs_graph again) =
    readGraph (bs_heap st1) (bs_graph st1) /\
  bs_pages again = bs_pages st1.
Proof.
  intros H1 H2 Hread. cbv zeta.
  destruct (buildRef_spec H1) as [E1 [Hlen1 [Hframe1 Hwf1]]].
  destruct (buildRef_spec H2) as [E2 _].
  assert (H1' : storeAllocated allPages1
                  (bs_heap (buildRelationsGraphRef allPages1 h1))).
  { intros page l Hin Hl. specialize (H1 page l Hin Hl). lia. }
  destruct (buildRef_spec H1') as [E3 _].
  pose proof (@readStore_frame allPages1 h1 _ H1 Hframe1) as Hstore.
  rewrite Hstore, <- E1 in E3. rewrite <- Hread, <- E1 in E2.
  injection E2 as Eg2 Ep2. injection E3 as Eg3 Ep3.
  repeat split; auto.
Qed.

Lemma build_deterministic_witness :
  storeAllocated sharedStore sharedHeap /\
  storeAllocated movedStore movedHeap /\
  readStore sharedHeap sharedStore = readStore movedHeap movedStore /\
  let st1 := buildRelationsGraphRef sharedStore sharedHeap in
  let st2 := buildRelationsGraphRef movedStore movedHeap in
  let again := buildRelationsGraphRef sharedStore (bs_heap st1) in
  readGraph (bs_heap st1) (bs_graph st1) = readGraph (bs_heap st2) (bs_graph st2) /\
  bs_pages st1 = bs_pages st2 /\
  (readGraph (bs_heap st1) (bs_graph st1), bs_pages st1) =
    buildRelationsGraph (readStore sharedHeap sharedStore) /\
  readStore (bs_heap st1) sharedStore = readStore sharedHeap sharedStore /\
  readGraph (bs_heap again) (bs_graph again) =
    readGraph (bs_heap st1) (bs_graph st1) /\
  bs_pages again = bs_pages st1.
Proof.
  assert (H1 : storeAllocated sharedStore sharedHeap).
  { intros page l Hin Hl. simpl in Hin.
    destruct Hin as [<- | [<- | []]]; simpl in Hl;
      repeat (destruct Hl as [Hl | Hl]; [inversion Hl; subst; simpl; lia |]);
      destruct Hl. }
  assert (H2 : storeAllocated movedStore movedHeap).
  { intros page l Hin Hl. simpl in Hin.
    destruct Hin as [<- | [<- | []]]; simpl in Hl;
      repeat (destruct Hl as [Hl | Hl]; [inversion Hl; subst; simpl; lia |]);
      destruct Hl. }
  assert (H3 : readStore sharedHeap sharedStore = readStore movedHeap movedStore)
    by reflexivity.
  split; [exact H1 | split; [exact H2 | split; [exact H3 |]]].
  exact (@build_deterministic sharedStore movedStore sharedHeap movedHeap H1 H2 H3).
Defined.

(** The order of the store is part of the input: the same pages in
    another order can give another graph, by first come. *)
Example order_matters_example :
  let p := [pageWith "a" (Some "b") None; pageWith "c" (Some "b") None;
            pageWith "b" None None] in
  let q := [pageWith "c" (Some "b") None; pageWith "a" (Some "b") None;
            pageWith "b" None None] in
  JsMap.get "b" (fst (buildRelationsGraph p)) =
    Some (Rel.mk [] [] [] [] [] [] [] [] None (Some "a") [] []) /\
  JsMap.get "b" (fst (buildRelationsGraph q)) =
    Some (Rel.mk [] [] [] [] [] [] [] [] None (Some "c") [] []).
Proof. split; vm_compute; reflexivity. Qed.
